(** * Osiris train: log-space arithmetic and the training driver

    A shallow embedding of the log-space probability primitives
    ([eexp], [eln], [lnSum], [lnProd], [lnQuot], [lnGreaterThan]) and of
    [train_main] (per-read graph construction, event pooling, per-position
    mixture fit and output), with the properties the design document
    states about them; and of what surrounds them in the program: the
    parser of the command line, the reading of the bounds of a read, and
    the readers of the reference and of the pore model file, with the
    properties the code itself shows. *)

From Stdlib Require Import ZArith List String Ascii Bool Lia.
From Stdlib Require Import Reals Lra SpecFloat DecimalString Sorted.
From Stdlib Require DecimalFacts DecimalPos DecimalN.
Import ListNotations.

Set Implicit Arguments.

(* ================================================================== *)
(** * Outcomes of fallible code *)
(* ================================================================== *)

(** The exceptions the translated code can raise. *)
Inductive exn : Type :=
| NegativeLog      (* class NegativeLog *)
| DivideByZero     (* class DivideByZero *)
| out_of_range     (* std::out_of_range: map::at, string::substr *)
| length_error.    (* std::length_error: a vector too large to create *)

(** What running a piece of the program yields: a value, a thrown
    exception, undefined behaviour (an unchecked [operator[]] outside its
    vector), or a loop that is still running when the fuel is spent. *)
Inductive result (A : Type) : Type :=
| Ok (a : A)
| Throw (e : exn)
| Undefined
| OutOfFuel.

Arguments Ok {A} a.
Arguments Throw {A} e.
Arguments Undefined {A}.
Arguments OutOfFuel {A}.

Definition bind {A B : Type} (m : result A) (k : A -> result B) : result B :=
  match m with
  | Ok a => k a
  | Throw e => Throw e
  | Undefined => Undefined
  | OutOfFuel => OutOfFuel
  end.

Notation "x <- m ;; k" := (bind m (fun x => k))
  (at level 61, m at next level, right associativity).
Notation "' p <- m ;; k" := (bind m (fun p => k))
  (at level 61, p pattern, m at next level, right associativity).

(* ================================================================== *)
(** * Arithmetic on [double] *)
(* ================================================================== *)

(** The operations on [double] that the log-space functions use.  The
    code is written once over this interface and read at two instances:
    IEEE-754 binary64, which is the [double] of the code, and exact real
    arithmetic, which is not: it is the idealisation the design document
    names where it says that the round trip is exact over exact real
    arithmetic. *)
Class Arith (double : Type) : Type := {
  NAN : double;                       (* the NAN macro *)
  isnan : double -> bool;             (* std::isnan *)
  lit0 : double;                      (* the literal 0.0 *)
  lit1 : double;                      (* the literal 1.0 *)
  feq : double -> double -> bool;     (* x == y *)
  fgt : double -> double -> bool;     (* x > y *)
  fadd : double -> double -> double;  (* x + y *)
  fsub : double -> double -> double;  (* x - y *)
  fexp : double -> double;            (* exp of <math.h> *)
  flog : double -> double             (* log of <math.h> *)
}.

Section LogSpace.
Context {double : Type} {A : Arith double}.

(** Map from log space back to linear space. *)
Definition eexp (x : double) : double :=
  if isnan x then lit0 else fexp x.

(** Map from linear space to log space. *)
Definition eln (x : double) : result double :=
  if feq x lit0 then Ok NAN
  else if fgt x lit0 then Ok (flog x)
  else Throw NegativeLog.

Definition lnSum (ln_x ln_y : double) : result double :=
  if isnan ln_x || isnan ln_y then
    if isnan ln_x && isnan ln_y then Ok NAN
    else if isnan ln_x then Ok ln_y
    else Ok ln_x
  else
    if fgt ln_x ln_y then
      t <- eln (fadd lit1 (eexp (fsub ln_y ln_x))) ;; Ok (fadd ln_x t)
    else
      t <- eln (fadd lit1 (eexp (fsub ln_x ln_y))) ;; Ok (fadd ln_y t).

Definition lnProd (ln_x ln_y : double) : double :=
  if isnan ln_x || isnan ln_y then NAN else fadd ln_x ln_y.

Definition lnQuot (ln_x ln_y : double) : result double :=
  if isnan ln_y then Throw DivideByZero
  else if isnan ln_x then Ok NAN
  else Ok (fsub ln_x ln_y).

Definition lnGreaterThan (ln_x ln_y : double) : bool :=
  if isnan ln_x || isnan ln_y then
    if isnan ln_x || Bool.eqb (isnan ln_y) false then false
    else if Bool.eqb (isnan ln_x) false || isnan ln_y then true
    else false
  else
    if fgt ln_x ln_y then true else false.

(** ** The operations as the design document words them *)

(** The larger and the smaller of two non-sentinel values; on a tie the
    second operand counts as the larger, as in the comparison of
    [lnSum]. *)
Definition larger (a b : double) : double := if fgt a b then a else b.
Definition smaller (a b : double) : double := if fgt a b then b else a.

(** [logSum] as the design document words it: both sentinel gives the
    sentinel, exactly one sentinel gives the other operand, otherwise
    [max + ln (1 + e^(min - max))], the exponential and the logarithm
    being those of the arithmetic themselves. *)
Definition logSum_formula (a b : double) : double :=
  match isnan a, isnan b with
  | true, true => NAN
  | true, false => b
  | false, true => a
  | false, false =>
      fadd (larger a b)
        (flog (fadd lit1 (fexp (fsub (smaller a b) (larger a b)))))
  end.

(** [logGreaterThan]: strict order with the sentinel as least element. *)
Definition logGreaterThan_spec (a b : double) : bool :=
  match isnan a, isnan b with
  | true, _ => false
  | false, true => true
  | false, false => fgt a b
  end.

End LogSpace.

(* ================================================================== *)
(** * The two readings of [double] *)
(* ================================================================== *)

(** ** IEEE-754 binary64 *)

Module Binary64.

Definition prec : Z := 53.
Definition emax : Z := 1024.

Definition double : Type := spec_float.

Definition is_nan (x : double) : bool :=
  match x with S754_nan => true | _ => false end.

Definition zero : double := S754_zero false.
Definition one : double := Eval cbv in SFone prec emax.
Definition half : double :=
  Eval cbv in SFdiv prec emax one (SFadd prec emax one one).

Definition eqb (x y : double) : bool := SFeqb x y.
Definition gtb (x y : double) : bool := SFltb y x.
Definition ltb (x y : double) : bool := SFltb x y.
Definition add (x y : double) : double := SFadd prec emax x y.
Definition sub (x y : double) : double := SFsub prec emax x y.
Definition fabs (x : double) : double := SFabs x.

(** [exp] and [log] come from the C library; they are parameters. *)
Definition arith (c_exp c_log : double -> double) : Arith double :=
  {| NAN := S754_nan; isnan := is_nan; lit0 := zero; lit1 := one;
     feq := eqb; fgt := gtb; fadd := add; fsub := sub;
     fexp := c_exp; flog := c_log |}.

End Binary64.

(** ** Exact real arithmetic with the not-a-number sentinel

    No rounding, no overflow or underflow, no infinities and no signed
    zeros: what holds here need not hold of the code. *)

Module Exact.

Inductive xreal : Type :=
| XNaN
| XR (r : R).

Definition is_nan (x : xreal) : bool :=
  match x with XNaN => true | XR _ => false end.

Definition lift2 (f : R -> R -> R) (x y : xreal) : xreal :=
  match x, y with
  | XR a, XR b => XR (f a b)
  | _, _ => XNaN
  end.

Definition eqb (x y : xreal) : bool :=
  match x, y with
  | XR a, XR b => if Req_dec_T a b then true else false
  | _, _ => false
  end.

Definition gtb (x y : xreal) : bool :=
  match x, y with
  | XR a, XR b => if Rlt_dec b a then true else false
  | _, _ => false
  end.

Definition x_exp (x : xreal) : xreal :=
  match x with XR a => XR (exp a) | XNaN => XNaN end.

(** No infinities here: [log] of a non-positive number is the NaN. *)
Definition x_log (x : xreal) : xreal :=
  match x with
  | XR a => if Rlt_dec 0 a then XR (ln a) else XNaN
  | XNaN => XNaN
  end.

#[global] Instance arith : Arith xreal :=
  {| NAN := XNaN; isnan := is_nan; lit0 := XR 0; lit1 := XR 1;
     feq := eqb; fgt := gtb; fadd := lift2 Rplus; fsub := lift2 Rminus;
     fexp := x_exp; flog := x_log |}.

End Exact.

(* ================================================================== *)
(** * Machine integers, vectors and strings *)
(* ================================================================== *)

Local Open Scope Z_scope.

Definition UINT_MAX : Z := 4294967295.
Definition INT_MAX : Z := 2147483647.

(** Conversion to [unsigned int], to [int] and to [size_t]. *)
Definition to_uint (z : Z) : Z := z mod 4294967296.
Definition to_int (z : Z) : Z := (z + 2147483648) mod 4294967296 - 2147483648.
Definition to_size (z : Z) : Z := z mod 18446744073709551616.

(** [for ( unsigned int i = i0; i < bound; i++ ) body], the bound being a
    [size_t]: the counter wraps at [UINT_MAX], the comparison is made in
    [size_t]. *)
Fixpoint for_uint {St : Type} (fuel : nat) (i bound : Z)
    (body : Z -> St -> result St) (s : St) : result St :=
  if i <? bound then
    match fuel with
    | O => OutOfFuel
    | S fuel' =>
        s' <- body i s ;; for_uint fuel' (to_uint (i + 1)) bound body s'
    end
  else Ok s.

(** Running a body over a list of indices, in order. *)
Fixpoint foldM {St : Type} (body : Z -> St -> result St) (l : list Z) (s : St)
    : result St :=
  match l with
  | [] => Ok s
  | i :: l' => s' <- body i s ;; foldM body l' s'
  end.

(** The indices [0, 1, ..., n-1]. *)
Definition upto (n : nat) : list Z := map Z.of_nat (seq 0 n).

(** [v[i]] without a bounds check. *)
Definition vget {A : Type} (v : list A) (i : Z) : result A :=
  if i <? 0 then Undefined
  else match nth_error v (Z.to_nat i) with
       | Some a => Ok a
       | None => Undefined
       end.

Fixpoint upd {A : Type} (v : list A) (n : nat) (a : A) : option (list A) :=
  match v, n with
  | [], _ => None
  | _ :: v', O => Some (a :: v')
  | x :: v', S n' => option_map (cons x) (upd v' n' a)
  end.

(** [v[i] = a] without a bounds check. *)
Definition vset {A : Type} (v : list A) (i : Z) (a : A) : result (list A) :=
  if i <? 0 then Undefined
  else match upd v (Z.to_nat i) a with
       | Some v' => Ok v'
       | None => Undefined
       end.

(** [t[j][i]] and [t[j][i] = a]. *)
Definition tget {A : Type} (t : list (list A)) (j i : Z) : result A :=
  row <- vget t j ;; vget row i.

Definition tset {A : Type} (t : list (list A)) (j i : Z) (a : A)
    : result (list (list A)) :=
  row <- vget t j ;; row' <- vset row i a ;; vset t j row'.

Definition size (s : string) : Z := Z.of_nat (String.length s).

(** [s.substr( pos, count )], [pos] and [count] being [size_t] values. *)
Definition substr (s : string) (pos count : Z) : result string :=
  if size s <? pos then Throw out_of_range
  else Ok (substring (Z.to_nat pos) (Z.to_nat (Z.min count (size s - pos))) s).

(** [s.find( c )]: the index of the first [c]; [None] is [npos]. *)
Definition find (s : string) (c : ascii) : option Z :=
  option_map Z.of_nat (index 0 (String c EmptyString) s).

(** [std::to_string] of an [unsigned int]. *)
Definition to_string (z : Z) : string :=
  DecimalString.NilZero.string_of_uint (N.to_uint (Z.to_N z)).

Definition is_space (c : ascii) : bool :=
  match nat_of_ascii c with
  | 32%nat | 9%nat | 10%nat | 11%nat | 12%nat | 13%nat => true
  | _ => false
  end.

Definition digit_of (c : ascii) : option Z :=
  let n := Z.of_nat (nat_of_ascii c) in
  if (48 <=? n) && (n <=? 57) then Some (n - 48) else None.

Fixpoint skip_spaces (s : string) : string :=
  match s with
  | String c s' => if is_space c then skip_spaces s' else s
  | EmptyString => s
  end.

Fixpoint digits_value (s : string) (acc : Z) : Z :=
  match s with
  | String c s' =>
      match digit_of c with
      | Some d => digits_value s' (10 * acc + d)
      | None => acc
      end
  | EmptyString => acc
  end.

(** [atoi] of the C library: leading white space, an optional sign, then
    the longest run of digits; the value is brought into [int].  This is
    [atoi] for the numerals whose value is a [long]; beyond that the C
    library goes its own way (glibc saturates at the ends of [long]
    before the conversion to [int]); the statements below that fix a
    value of [atoi] keep to numerals within [int]. *)
Definition atoi (s : string) : Z :=
  match skip_spaces s with
  | String "-"%char s' => to_int (- digits_value s' 0)
  | String "+"%char s' => to_int (digits_value s' 0)
  | s' => to_int (digits_value s' 0)
  end.

Fixpoint split_entries (s : string) (delim : ascii) (entry : string)
    : list string :=
  match s with
  | EmptyString => [entry]
  | String c s' =>
      if Ascii.eqb c delim then
        entry :: match s' with
                 | EmptyString => []
                 | _ => split_entries s' delim EmptyString
                 end
      else split_entries s' delim (entry ++ String c EmptyString)%string
  end.

(** Modelled from the spec: [split] (declared in common.h) is not among
    the sources.  A state name is "<position>_<role>" and is parsed by
    cutting it at the separator; [split] returns the entries between the
    delimiters in order, as repeated [std::getline] calls on the string
    yield them (nothing for the empty string, no empty entry after a
    final delimiter). *)
Definition split (s : string) (delim : ascii) : list string :=
  match s with
  | EmptyString => []
  | _ => split_entries s delim EmptyString
  end.

(* ================================================================== *)
(** * Data model of the training driver *)
(* ================================================================== *)

(** [double] is IEEE-754 binary64 in the driver. *)
Definition double : Type := Binary64.double.

(** The three emission distributions. *)
Inductive distribution : Type :=
| SilentDistribution (a b : double)
| UniformDistribution (lb ub : double)
| NormalDistribution (mu sigma : double).

(** Modelled from the spec: the class [State] (Penthus, states.h) is not
    among the sources.  A state has a unique name, the emission
    distribution it is bound to (a pointer, here the distribution pointed
    to, [None] for [NULL]), a meta tag (the k-mer), a tied-group tag and a
    weight; these are the five arguments of its constructor, in order. *)
Record State : Type := mkState {
  dist : option distribution;
  name : string;
  meta : string;
  groupID : string;
  weight : double
}.

Definition set_meta (s : State) (m : string) : State :=
  {| dist := dist s; name := name s; meta := m; groupID := groupID s;
     weight := weight s |}.

(** An end of a transition: the model's own start or end state, or a
    state that was added. *)
Inductive endpoint : Type :=
| hmm_start
| hmm_end
| at_state (s : State).

(** Modelled from the spec: the class [HiddenMarkovModel] (Penthus, hmm.h)
    is not among the sources.  The model owns the states and the weighted
    transitions given to it; [add_state] registers a state,
    [add_transition] records an edge with its weight, [finalise] locks the
    structure. *)
Record HiddenMarkovModel : Type := mkHMM {
  states_of : list State;
  transitions_of : list (endpoint * endpoint * double);
  finalised : bool
}.

Definition new_hmm : HiddenMarkovModel :=
  {| states_of := []; transitions_of := []; finalised := false |}.

Definition add_state (hmm : HiddenMarkovModel) (s : State)
    : HiddenMarkovModel :=
  {| states_of := states_of hmm ++ [s];
     transitions_of := transitions_of hmm;
     finalised := finalised hmm |}.

Definition add_transition (hmm : HiddenMarkovModel) (a b : endpoint)
    (w : double) : HiddenMarkovModel :=
  {| states_of := states_of hmm;
     transitions_of := transitions_of hmm ++ [(a, b, w)];
     finalised := finalised hmm |}.

Definition finalise (hmm : HiddenMarkovModel) : HiddenMarkovModel :=
  {| states_of := states_of hmm;
     transitions_of := transitions_of hmm;
     finalised := true |}.

(** [struct read], as far as [train_main] fills it, and the result of
    the normalisation. *)
Record read : Type := mkRead {
  basecalls : string;
  ROIbounds : Z * Z;
  raw : list double
}.

Record eventDataForRead : Type := mkEventData {
  normalisedEvents : list double;
  qualityScore : double
}.

(** [struct Arguments]: the two bounds of option [-b]. *)
Record Arguments : Type := mkArguments {
  boundLower : Z;
  boundUpper : Z
}.

(** [std::map< int, std::vector< double > >]: the entries in ascending
    order of their keys. *)
Definition pileup : Type := list (Z * list double).

(** [m[k].push_back( e )]. *)
Fixpoint push_back_at (m : pileup) (k : Z) (e : double) : pileup :=
  match m with
  | [] => [(k, [e])]
  | (k', v) :: m' =>
      if k <? k' then (k, [e]) :: m
      else if k =? k' then (k', v ++ [e]) :: m'
      else (k', v) :: push_back_at m' k e
  end.

(** What [train_main] takes from the rest of the program: the transition
    weights of poreSpecificParameters.h, the pore model table of
    poreModels.h, the normalisation of event_handling.h, the decoder and
    the mixture fit of Penthus, and the printing of a [double] on an
    output stream. *)
Class Externals : Type := {
  internalSS2M1 : double;
  internalSS2M2 : double;
  internalD2I : double;
  internalI2I : double;
  internalI2SS : double;
  internalM12M1 : double;
  internalM12SE : double;
  internalM22M2 : double;
  internalM22SE : double;
  internalSE2I : double;
  externalD2D : double;
  externalD2SS : double;
  externalI2SS : double;
  externalSE2SS : double;
  externalSE2D : double;
  FiveMer_model : string -> option (double * double);
  normaliseEvents : read -> eventDataForRead;
  viterbi : HiddenMarkovModel -> list double -> result (double * list State);
  gaussianMixtureEM :
    double -> double -> double -> double -> list double -> double ->
    result (list double);
  show_double : double -> string
}.

(** The literals [50.0], [150.0] and [0.0001]. *)
Definition lit50 : double := S754_finite false 7036874417766400 (-47).
Definition lit150 : double := S754_finite false 5277655813324800 (-45).
Definition lit0_0001 : double := S754_finite false 7378697629483821 (-66).

Definition sd : distribution := SilentDistribution Binary64.zero Binary64.zero.
Definition ud : distribution := UniformDistribution lit50 lit150.

(** The value the vectors of states are filled with at first. *)
Definition dummy_state : State :=
  mkState None EmptyString EmptyString EmptyString Binary64.one.

Definition TAB : string := String (ascii_of_nat 9) EmptyString.
Definition ENDL : string := String (ascii_of_nat 10) EmptyString.

(* ================================================================== *)
(** * [train_main] *)
(* ================================================================== *)

Section Train.
Context {E : Externals}.

Local Open Scope string_scope.

(** ** The hidden state graph of one read *)

(** One round of the loop that creates the normal distributions. *)
Definition make_distribution (refSeqMapped : string) (i : Z)
    (nd : list distribution) : result (list distribution) :=
  kmer <- substr refSeqMapped i 5 ;;
  match FiveMer_model kmer with
  | Some emissionMeanAndStd =>
      Ok (nd ++ [NormalDistribution (fst emissionMeanAndStd)
                                    (snd emissionMeanAndStd)])%list
  | None => Throw out_of_range
  end.

(** [hmm.add_transition( states[a][i], states[b][k], w )]. *)
Definition connect (hmm : HiddenMarkovModel) (states : list (list State))
    (a i b k : Z) (w : double) : result HiddenMarkovModel :=
  from <- tget states a i ;;
  to <- tget states b k ;;
  Ok (add_transition hmm (at_state from) (at_state to) w).

(** One round of the loop over [j] that tags and registers a state. *)
Definition register_state (fiveMer : string) (i j : Z)
    (st : HiddenMarkovModel * list (list State))
    : result (HiddenMarkovModel * list (list State)) :=
  let '(hmm, states) := st in
  s <- tget states j i ;;
  states <- tset states j i (set_meta s fiveMer) ;;
  s <- tget states j i ;;
  Ok (add_state hmm s, states).

(** One round of the loop that adds the states of a position and the
    transitions internal to it. *)
Definition add_module (refSeqMapped : string) (first : Z)
    (nd : list distribution) (i : Z)
    (st : HiddenMarkovModel * list (list State))
    : result (HiddenMarkovModel * list (list State)) :=
  let '(hmm, states) := st in
  let loc := to_string (to_uint (i + first)) in
  fiveMer <- substr refSeqMapped i 5 ;;
  nd_i <- vget nd i ;;
  states <- tset states 0 i
    (mkState (Some sd) (loc ++ "_SS") fiveMer "" Binary64.one) ;;
  states <- tset states 1 i
    (mkState (Some sd) (loc ++ "_D") fiveMer "" Binary64.one) ;;
  states <- tset states 2 i
    (mkState (Some ud) (loc ++ "_I") fiveMer "" Binary64.one) ;;
  states <- tset states 3 i
    (mkState (Some nd_i) (loc ++ "_M1") fiveMer (loc ++ "_match")
       Binary64.one) ;;
  states <- tset states 4 i
    (mkState (Some nd_i) (loc ++ "_M2") fiveMer (loc ++ "_match")
       Binary64.one) ;;
  states <- tset states 5 i
    (mkState (Some sd) (loc ++ "_SE") fiveMer "" Binary64.one) ;;
  ' (hmm, states) <- for_uint 6 0 6 (register_state fiveMer i) (hmm, states) ;;
  hmm <- connect hmm states 0 i 3 i internalSS2M1 ;;
  hmm <- connect hmm states 0 i 4 i internalSS2M2 ;;
  hmm <- connect hmm states 1 i 2 i internalD2I ;;
  hmm <- connect hmm states 2 i 2 i internalI2I ;;
  hmm <- connect hmm states 2 i 0 i internalI2SS ;;
  hmm <- connect hmm states 3 i 3 i internalM12M1 ;;
  hmm <- connect hmm states 3 i 5 i internalM12SE ;;
  hmm <- connect hmm states 4 i 4 i internalM22M2 ;;
  hmm <- connect hmm states 4 i 5 i internalM22SE ;;
  hmm <- connect hmm states 5 i 2 i internalSE2I ;;
  Ok (hmm, states).

(** One round of the loop that adds the transitions between modules. *)
Definition link_modules (states : list (list State)) (i : Z)
    (hmm : HiddenMarkovModel) : result HiddenMarkovModel :=
  hmm <- connect hmm states 1 i 1 (to_uint (i + 1)) externalD2D ;;
  hmm <- connect hmm states 1 i 0 (to_uint (i + 1)) externalD2SS ;;
  hmm <- connect hmm states 2 i 0 (to_uint (i + 1)) externalI2SS ;;
  hmm <- connect hmm states 5 i 0 (to_uint (i + 1)) externalSE2SS ;;
  hmm <- connect hmm states 5 i 1 (to_uint (i + 1)) externalSE2D ;;
  Ok hmm.

(** From the construction of [hmm] to [hmm.finalise()].  The capacities
    given to the constructor of the model and to [nd.reserve] do not show
    in the graph; a vector of [length - 5] states cannot be made when the
    subtraction wraps around. *)
Definition build_hmm (fuel : nat) (refSeqMapped : string) (first : Z)
    : result HiddenMarkovModel :=
  let length := size refSeqMapped in
  let hmm := new_hmm in
  if (length <? 5)%Z then Throw length_error else
  let states := repeat (repeat dummy_state (Z.to_nat (length - 5))) 6 in
  nd <- for_uint fuel 0 (to_size (length - 5))
          (make_distribution refSeqMapped) [] ;;
  ' (hmm, states) <- for_uint fuel 0 (to_size (length - 5))
          (add_module refSeqMapped first nd) (hmm, states) ;;
  hmm <- for_uint fuel 0 (to_size (length - 6)) (link_modules states) hmm ;;
  s <- tget states 0 0 ;;
  let hmm := add_transition hmm hmm_start (at_state s) Binary64.half in
  s <- tget states 1 0 ;;
  let hmm := add_transition hmm hmm_start (at_state s) Binary64.half in
  s <- tget states 1 (to_size (length - 6)) ;;
  let hmm := add_transition hmm (at_state s) hmm_end
               (Binary64.add externalD2D externalD2SS) in
  s <- tget states 2 (to_size (length - 6)) ;;
  let hmm := add_transition hmm (at_state s) hmm_end externalI2SS in
  s <- tget states 5 (to_size (length - 6)) ;;
  let hmm := add_transition hmm (at_state s) hmm_end
               (Binary64.add externalSE2SS externalSE2D) in
  Ok (finalise hmm).

(** ** Alignment of one read and pooling of its events *)

(** The one character that follows the first ['_'] of a state name
    ([find] yields [npos] when there is none, and [npos + 1] is [0]). *)
Definition role_tag (name : string) : result string :=
  substr name
    (match find name "_" with
     | Some k => to_size (k + 1)
     | None => 0%Z
     end) 1.

(** One round of the loop that keeps the emitting states of the path. *)
Definition keep_emitting (emittingStatePath : list State) (s : State)
    : result (list State) :=
  tag <- role_tag (name s) ;;
  if String.eqb tag "M" then Ok (emittingStatePath ++ [s])%list
  else
    tag <- role_tag (name s) ;;
    if String.eqb tag "I" then Ok (emittingStatePath ++ [s])%list
    else Ok emittingStatePath.

Fixpoint filter_emitting (statePath : list State)
    (emittingStatePath : list State) : result (list State) :=
  match statePath with
  | [] => Ok emittingStatePath
  | s :: rest =>
      emittingStatePath <- keep_emitting emittingStatePath s ;;
      filter_emitting rest emittingStatePath
  end.

(** One round of the loop that puts the events of a read on the pile.
    [posOnReference] is an [unsigned int] and the bounds are [int]: the
    two comparisons are made in [unsigned int], and the key of the map
    is an [int] again. *)
Definition pool_event (trainArgs : Arguments) (events : list double)
    (emittingStatePath : list State) (i : Z) (eventPileup : pileup)
    : result pileup :=
  s <- vget emittingStatePath i ;;
  let findIndex := split (name s) "_" in
  entry <- vget findIndex 0 ;;
  let posOnReference := to_uint (atoi entry) in
  if (to_uint (boundLower trainArgs) <=? posOnReference)%Z
     && (posOnReference <? to_uint (boundUpper trainArgs))%Z
  then
    e <- vget events i ;;
    Ok (push_back_at eventPileup (to_int posOnReference) e)
  else Ok eventPileup.

Definition pool_events (fuel : nat) (trainArgs : Arguments)
    (events : list double) (emittingStatePath : list State)
    (eventPileup : pileup) : result pileup :=
  for_uint fuel 0 (Z.of_nat (List.length events))
    (pool_event trainArgs events emittingStatePath) eventPileup.

(** What the loop over the reads carries from one read to the next. *)
Record train_state : Type := mkTrainState {
  eventPileup : pileup;
  prog : Z
}.

(** What was made for a read that was aligned: its graph, the decoded
    path and the emitting states of the path. *)
Record alignment : Type := mkAlignment {
  graph : HiddenMarkovModel;
  statePath : list State;
  emittingPath : list State
}.

(** The body of the loop over the reads, from the normalisation on;
    [None] stands for the [continue] that leaves a read out. *)
Definition process_read (fuel : nat) (trainArgs : Arguments)
    (reference : string) (currentRead : read) (st : train_state)
    : result (train_state * option alignment) :=
  let eventData := normaliseEvents currentRead in
  if Binary64.gtb (Binary64.fabs (qualityScore eventData)) Binary64.one
  then Ok (st, None)
  else
    let first := fst (ROIbounds currentRead) in
    let second := snd (ROIbounds currentRead) in
    refSeqMapped <- substr reference (to_size first)
                      (to_size (to_int (second - first))) ;;
    hmm <- build_hmm fuel refSeqMapped first ;;
    viterbiData <- viterbi hmm (normalisedEvents eventData) ;;
    let statePath := snd viterbiData in
    emittingStatePath <- filter_emitting statePath [] ;;
    pile <- pool_events fuel trainArgs (normalisedEvents eventData)
              emittingStatePath (eventPileup st) ;;
    Ok ({| eventPileup := pile; prog := to_int (prog st + 1) |},
        Some {| graph := hmm; statePath := statePath;
                emittingPath := emittingStatePath |}).

(** The loop over the reads of the training file. *)
Fixpoint align_reads (fuel : nat) (trainArgs : Arguments)
    (reference : string) (reads : list read) (st : train_state)
    : result train_state :=
  match reads with
  | [] => Ok st
  | currentRead :: rest =>
      r <- process_read fuel trainArgs reference currentRead st ;;
      align_reads fuel trainArgs reference rest (fst r)
  end.

(** ** The mixture fit and the output *)

(** The two streams [train_main] writes to. *)
Record streams : Type := mkStreams {
  outFile : string;
  cout : string
}.

(** [what()] of [NegativeLog]. *)
Definition NegativeLog_what : string :=
  "Negative value passed to natural log function.".

(** [os << x] for a string and for a [double]. *)
Definition put (os : string) (x : string) : string := os ++ x.
Definition put_double (os : string) (x : double) : string :=
  os ++ show_double x.

(** The header row, as [train_main] writes it on the output file. *)
Definition write_header (os : string) : string :=
  put (put (put (put (put (put (put (put (put (put (put (put (put (put (put
  (put (put (put os "5mer") TAB) "ONT_mean") TAB) "ONT_stdv") TAB) "pi_1")
  TAB) "mean_1") TAB) "stdv_2") TAB) "pi_2") TAB) "mean_1") TAB) "stdv_2")
  ENDL.

(** The row of one reference position, as [train_main] writes it. *)
Definition write_row (os : string) (fiveMer : string) (mu1 stdv1 : double)
    (p0 p1 p2 p3 p4 p5 : double) : string :=
  put (put_double (put (put_double (put (put_double (put (put_double (put
  (put_double (put (put_double (put (put_double (put (put_double (put
  (put os fiveMer) TAB) mu1) TAB) stdv1) TAB) p0) TAB) p1) TAB) p2) TAB) p3)
  TAB) p4) TAB) p5) ENDL.

(** The body of the loop over the pile: one reference position. *)
Definition fit_position (reference : string) (entry : Z * list double)
    (io : streams) : result streams :=
  fiveMer <- substr reference (to_size (fst entry)) 5 ;;
  let model := match FiveMer_model fiveMer with
               | Some p => p
               | None => (Binary64.zero, Binary64.zero)
               end in
  let mu1 := fst model in
  let stdv1 := snd model in
  let mu2 := Binary64.add mu1 Binary64.one in
  let stdv2 := stdv1 in
  let events := snd entry in
  match gaussianMixtureEM mu1 stdv1 mu2 stdv2 events lit0_0001 with
  | Throw NegativeLog =>
      Ok {| outFile := outFile io;
            cout := put (put (put (put (put (cout io) NegativeLog_what) ENDL)
                      "Aborted training on: ") fiveMer) ENDL |}
  | Throw e => Throw e
  | Undefined => Undefined
  | OutOfFuel => OutOfFuel
  | Ok fitParameters =>
      p0 <- vget fitParameters 0 ;;
      p1 <- vget fitParameters 1 ;;
      p2 <- vget fitParameters 2 ;;
      p3 <- vget fitParameters 3 ;;
      p4 <- vget fitParameters 4 ;;
      p5 <- vget fitParameters 5 ;;
      Ok {| outFile := write_row (outFile io) fiveMer mu1 stdv1
                         p0 p1 p2 p3 p4 p5;
            cout := cout io |}
  end.

Fixpoint fit_positions (reference : string) (pile : pileup) (io : streams)
    : result streams :=
  match pile with
  | [] => Ok io
  | entry :: rest =>
      io <- fit_position reference entry io ;;
      fit_positions reference rest io
  end.

(** [train_main] once the two files are open and the header of the
    training file is read: the header row, the loop over the reads, the
    loop over the pile. *)
Definition train_main (fuel : nat) (trainArgs : Arguments)
    (reference : string) (reads : list read) : result streams :=
  let io := {| outFile := write_header ""; cout := "" |} in
  st <- align_reads fuel trainArgs reference reads
          {| eventPileup := []; prog := 0 |} ;;
  fit_positions reference (eventPileup st) io.

End Train.

(* ================================================================== *)
(** * The hidden state graph in closed form *)
(* ================================================================== *)

(** The six states of a module. *)
Inductive role : Type := SS | D | I | M1 | M2 | SE.

Definition roles : list role := [SS; D; I; M1; M2; SE].

Section Graph.
Context {E : Externals}.
Variable refSeqMapped : string.
Variable first : Z.

Local Open Scope string_scope.

Definition role_suffix (r : role) : string :=
  match r with
  | SS => "_SS" | D => "_D" | I => "_I"
  | M1 => "_M1" | M2 => "_M2" | SE => "_SE"
  end.

Definition fiveMer_at (i : Z) : string :=
  substring (Z.to_nat i) 5 refSeqMapped.

(** The normal distribution of a position, from the pore model table. *)
Definition normal_at (i : Z) : distribution :=
  match FiveMer_model (fiveMer_at i) with
  | Some p => NormalDistribution (fst p) (snd p)
  | None => NormalDistribution Binary64.zero Binary64.zero
  end.

Definition loc_at (i : Z) : string := to_string (to_uint (i + first)).

(** The state of role [r] in the module of position [i]. *)
Definition module_state (r : role) (i : Z) : State :=
  {| dist := Some match r with
                  | SS | D | SE => sd
                  | I => ud
                  | M1 | M2 => normal_at i
                  end;
     name := loc_at i ++ role_suffix r;
     meta := fiveMer_at i;
     groupID := match r with
                | M1 | M2 => loc_at i ++ "_match"
                | _ => ""
                end;
     weight := Binary64.one |}.

Definition module_states (i : Z) : list State :=
  map (fun r => module_state r i) roles.

Definition edge (r : role) (i : Z) (r' : role) (i' : Z) (w : double)
    : endpoint * endpoint * double :=
  (at_state (module_state r i), at_state (module_state r' i'), w).

Definition internal_transitions (i : Z) : list (endpoint * endpoint * double) :=
  [ edge SS i M1 i internalSS2M1;
    edge SS i M2 i internalSS2M2;
    edge D i I i internalD2I;
    edge I i I i internalI2I;
    edge I i SS i internalI2SS;
    edge M1 i M1 i internalM12M1;
    edge M1 i SE i internalM12SE;
    edge M2 i M2 i internalM22M2;
    edge M2 i SE i internalM22SE;
    edge SE i I i internalSE2I ]%list.

Definition external_transitions (i : Z) : list (endpoint * endpoint * double) :=
  [ edge D i D (i + 1) externalD2D;
    edge D i SS (i + 1) externalD2SS;
    edge I i SS (i + 1) externalI2SS;
    edge SE i SS (i + 1) externalSE2SS;
    edge SE i D (i + 1) externalSE2D ]%list.

Definition start_transitions : list (endpoint * endpoint * double) :=
  [ (hmm_start, at_state (module_state SS 0), Binary64.half);
    (hmm_start, at_state (module_state D 0), Binary64.half) ]%list.

Definition end_transitions (last : Z) : list (endpoint * endpoint * double) :=
  [ (at_state (module_state D last), hmm_end,
     Binary64.add externalD2D externalD2SS);
    (at_state (module_state I last), hmm_end, externalI2SS);
    (at_state (module_state SE last), hmm_end,
     Binary64.add externalSE2SS externalSE2D) ]%list.

(** The graph of a mapped subsequence with [n] modules. *)
Definition module_graph (n : nat) : HiddenMarkovModel :=
  {| states_of := flat_map module_states (upto n);
     transitions_of :=
       (flat_map internal_transitions (upto n)
        ++ flat_map external_transitions (upto (n - 1))
        ++ start_transitions
        ++ end_transitions (Z.of_nat n - 1))%list;
     finalised := true |}.

(** Every k-mer of the first [n] positions is in the pore model table. *)
Definition kmers_known (n : nat) : Prop :=
  forall i, 0 <= i < Z.of_nat n -> FiveMer_model (fiveMer_at i) <> None.

(** The vectors of states, and the graph, after [k] rounds of the loop
    over the modules. *)
Definition states_after (n k : nat) : list (list State) :=
  map (fun r => (map (module_state r) (upto k)
                 ++ repeat dummy_state (n - k))%list) roles.

Definition graph_after (k : nat) : HiddenMarkovModel :=
  {| states_of := flat_map module_states (upto k);
     transitions_of := flat_map internal_transitions (upto k);
     finalised := false |}.

(** The vectors of states once every module is in place. *)
Definition states_full (n : nat) : list (list State) :=
  map (fun r => map (module_state r) (upto n)) roles.

End Graph.

Section InstallModule.
Context {E : Externals}.

(** The rounds of [add_module] once the six states are made. *)
Definition install_module (fiveMer : string) (i : Z)
    (vSS vD vI vM1 vM2 vSE : State)
    (st : HiddenMarkovModel * list (list State))
    : result (HiddenMarkovModel * list (list State)) :=
  let '(hmm, states) := st in
  states <- tset states 0 i vSS ;;
  states <- tset states 1 i vD ;;
  states <- tset states 2 i vI ;;
  states <- tset states 3 i vM1 ;;
  states <- tset states 4 i vM2 ;;
  states <- tset states 5 i vSE ;;
  ' (hmm, states) <- for_uint 6 0 6 (register_state fiveMer i) (hmm, states) ;;
  hmm <- connect hmm states 0 i 3 i internalSS2M1 ;;
  hmm <- connect hmm states 0 i 4 i internalSS2M2 ;;
  hmm <- connect hmm states 1 i 2 i internalD2I ;;
  hmm <- connect hmm states 2 i 2 i internalI2I ;;
  hmm <- connect hmm states 2 i 0 i internalI2SS ;;
  hmm <- connect hmm states 3 i 3 i internalM12M1 ;;
  hmm <- connect hmm states 3 i 5 i internalM12SE ;;
  hmm <- connect hmm states 4 i 4 i internalM22M2 ;;
  hmm <- connect hmm states 4 i 5 i internalM22SE ;;
  hmm <- connect hmm states 5 i 2 i internalSE2I ;;
  Ok (hmm, states).

End InstallModule.

(* ================================================================== *)
(** * Vocabulary of the statements on reads and on the output *)
(* ================================================================== *)

(** The name of a state is not empty. *)
Definition named (s : State) : Prop := name s <> EmptyString.

(** The state is kept as an emitting state: the character after the
    first ['_'] of its name is M or I. *)
Definition emits (s : State) : bool :=
  match role_tag (name s) with
  | Ok tag => String.eqb tag "M" || String.eqb tag "I"
  | _ => false
  end.

(** The keys of the pile. *)
Definition keys (m : pileup) : list Z := map fst m.

(** A key lies between the two bounds of the command line. *)
Definition in_bounds (trainArgs : Arguments) (k : Z) : Prop :=
  boundLower trainArgs <= k < boundUpper trainArgs.

(** The bounds are [int] values, and the upper bound is negative only
    if the lower bound is negative, too. *)
Definition bounds_admissible (trainArgs : Arguments) : Prop :=
  - INT_MAX - 1 <= boundLower trainArgs <= INT_MAX
  /\ - INT_MAX - 1 <= boundUpper trainArgs <= INT_MAX
  /\ (boundLower trainArgs < 0 \/ 0 <= boundUpper trainArgs).

(** The fields of a line, tab-separated, and the end of the line. *)
Definition line (fields : list string) : string :=
  (String.concat TAB fields ++ ENDL)%string.

(** The names of the columns, as the header row has them. *)
Definition header_fields : list string :=
  [ "5mer"; "ONT_mean"; "ONT_stdv"; "pi_1"; "mean_1"; "stdv_2"; "pi_2";
    "mean_1"; "stdv_2" ]%string.

Section FitVocabulary.
Context {E : Externals}.

(** The fields of the row of a position, in the order they are written. *)
Definition row_fields (fiveMer : string) (mu1 stdv1 : double)
    (p0 p1 p2 p3 p4 p5 : double) : list string :=
  [ fiveMer; show_double mu1; show_double stdv1; show_double p0;
    show_double p1; show_double p2; show_double p3; show_double p4;
    show_double p5 ].

Variable reference : string.

(** The k-mer, the pore model entry and the fit of a position. *)
Definition fiveMer_of (pos : Z) : string :=
  substring (Z.to_nat pos) (Z.to_nat (Z.min 5 (size reference - pos)))
    reference.

Definition model_of (pos : Z) : double * double :=
  match FiveMer_model (fiveMer_of pos) with
  | Some p => p
  | None => (Binary64.zero, Binary64.zero)
  end.

Definition fit_of (entry : Z * list double) : result (list double) :=
  let mu1 := fst (model_of (fst entry)) in
  let stdv1 := snd (model_of (fst entry)) in
  gaussianMixtureEM mu1 stdv1 (Binary64.add mu1 Binary64.one) stdv1
    (snd entry) lit0_0001.

Definition fit_succeeds (entry : Z * list double) : bool :=
  match fit_of entry with Ok _ => true | _ => false end.

(** The row of a position whose fit succeeds. *)
Definition row_of (entry : Z * list double) : string :=
  match fit_of entry with
  | Ok v =>
      line (row_fields (fiveMer_of (fst entry))
              (fst (model_of (fst entry))) (snd (model_of (fst entry)))
              (nth 0 v S754_nan) (nth 1 v S754_nan) (nth 2 v S754_nan)
              (nth 3 v S754_nan) (nth 4 v S754_nan) (nth 5 v S754_nan))
  | _ => EmptyString
  end.

(** A position of the reference whose fit either succeeds with its six
    parameters or fails with [NegativeLog]. *)
Definition fit_settles (entry : Z * list double) : Prop :=
  0 <= fst entry <= INT_MAX
  /\ fst entry <= size reference
  /\ (fit_of entry = Throw NegativeLog
      \/ exists v, fit_of entry = Ok v /\ List.length v = 6%nat).

Definition rows_text (rows : list string) : string :=
  fold_right append EmptyString rows.

End FitVocabulary.

(* ================================================================== *)
(** * A small instance to run the driver on *)
(* ================================================================== *)

(** A printer of doubles as mantissa and binary exponent. *)
Definition example_show (x : double) : string :=
  match x with
  | S754_zero s => if s then "-0" else "0"
  | S754_infinity s => if s then "-inf" else "inf"
  | S754_nan => "nan"
  | S754_finite s m e =>
      ((if s then "-" else "") ++ to_string (Zpos m) ++ "p"
       ++ NilZero.string_of_int (Z.to_int e))%string
  end.

(** Stand-ins for the parts of the program outside [train_main]: every
    weight is 0.5, every 5-mer has mean 50 and deviation 1, the
    normalisation keeps the raw signal and takes its first value as the
    quality score, the decoder returns the states in the order they were
    added, and the fit fails on an empty sample. *)
Definition example_externals : Externals :=
  {| internalSS2M1 := Binary64.half; internalSS2M2 := Binary64.half;
     internalD2I := Binary64.half; internalI2I := Binary64.half;
     internalI2SS := Binary64.half; internalM12M1 := Binary64.half;
     internalM12SE := Binary64.half; internalM22M2 := Binary64.half;
     internalM22SE := Binary64.half; internalSE2I := Binary64.half;
     externalD2D := Binary64.half; externalD2SS := Binary64.half;
     externalI2SS := Binary64.half; externalSE2SS := Binary64.half;
     externalSE2D := Binary64.half;
     FiveMer_model := fun kmer =>
       if (String.length kmer =? 5)%nat then Some (lit50, Binary64.one)
       else None;
     normaliseEvents := fun r =>
       {| normalisedEvents := raw r;
          qualityScore := hd Binary64.zero (raw r) |};
     viterbi := fun hmm _ => Ok (Binary64.zero, states_of hmm);
     gaussianMixtureEM := fun mu1 stdv1 mu2 stdv2 events _ =>
       match events with
       | [] => Throw NegativeLog
       | _ => Ok [Binary64.half; mu1; stdv1; Binary64.half; mu2; stdv2]
       end;
     show_double := example_show |}.

(* ================================================================== *)
(** * Vocabulary of the statements on the log-space arithmetic *)
(* ================================================================== *)

(** [exp] of the C library is never negative and never a NaN at a
    number: added to [1.0] it gives a positive double. *)
Definition exp_positive (c_exp : Binary64.double -> Binary64.double) : Prop :=
  forall x, Binary64.is_nan x = false ->
            Binary64.gtb (Binary64.add Binary64.one (c_exp x)) Binary64.zero
            = true.

(** The two operands are the same infinity, or the two infinities. *)
Definition same_infinity (a b : Binary64.double) : bool :=
  match a, b with
  | S754_infinity s, S754_infinity s' => Bool.eqb s s'
  | _, _ => false
  end.

Definition opposite_infinities (a b : Binary64.double) : bool :=
  match a, b with
  | S754_infinity s, S754_infinity s' => negb (Bool.eqb s s')
  | _, _ => false
  end.

Definition lit746 : Binary64.double :=
  Eval cbv in binary_normalize Binary64.prec Binary64.emax 746 0 false.
Definition lit710 : Binary64.double :=
  Eval cbv in binary_normalize Binary64.prec Binary64.emax 710 0 false.

(** Stand-ins for [exp] and [log] of the C library, to run the code at
    given arguments.  They have the values the C standard fixes at the
    special arguments ([exp] of a NaN is a NaN, of [+inf] is [+inf], of
    [-inf] is [+0], of a zero is [1]; [log] of a NaN or of a negative
    number is a NaN, of [+inf] is [+inf], of a zero is [-inf], of [1] is
    [+0]) and the values [exp] has where its result leaves the range of
    binary64 ([+0] below [-746], [+inf] above [710]).  At the other
    arguments, where no statement below looks at the value, [exp] is
    taken as [1.0] and [log] as [+0]. *)
Definition sample_exp (x : Binary64.double) : Binary64.double :=
  match x with
  | S754_nan => S754_nan
  | S754_infinity true => Binary64.zero
  | S754_infinity false => S754_infinity false
  | S754_zero _ => Binary64.one
  | S754_finite _ _ _ =>
      if Binary64.ltb x (SFopp lit746) then Binary64.zero
      else if Binary64.gtb x lit710 then S754_infinity false
      else Binary64.one
  end.

Definition sample_log (x : Binary64.double) : Binary64.double :=
  match x with
  | S754_nan => S754_nan
  | S754_infinity true => S754_nan
  | S754_infinity false => S754_infinity false
  | S754_zero _ => S754_infinity true
  | S754_finite true _ _ => S754_nan
  | S754_finite false _ _ => Binary64.zero
  end.

(** The place of a binary64 value that is not a NaN in the order of
    [<]: the infinities outermost, the zeros (of either sign) in the
    middle, the finite values by sign, then exponent, then mantissa. *)
Definition rank (x : Binary64.double) : Z * Z * Z :=
  match x with
  | S754_nan => (0, 0, 0)
  | S754_infinity true => (-2, 0, 0)
  | S754_infinity false => (2, 0, 0)
  | S754_zero _ => (0, 0, 0)
  | S754_finite true m e => (-1, - e, - Zpos m)
  | S754_finite false m e => (1, e, Zpos m)
  end.

Definition rank_lt (a b : Z * Z * Z) : Prop :=
  let '(a1, a2, a3) := a in
  let '(b1, b2, b3) := b in
  a1 < b1 \/ (a1 = b1 /\ (a2 < b2 \/ (a2 = b2 /\ a3 < b3))).

(* ================================================================== *)
(** * Vocabulary of the statements on names, piles and regions *)
(* ================================================================== *)

(** Every character of the string is a decimal digit. *)
Fixpoint all_digits (s : string) : Prop :=
  match s with
  | EmptyString => True
  | String c s' => digit_of c <> None /\ all_digits s'
  end.

(** The pile after the aligned events of a read: each event goes to the
    position of its state when that lies between the bounds. *)
Definition pool_aligned (trainArgs : Arguments) (first : Z)
    (aligned : list (double * (role * Z))) (pile : pileup) : pileup :=
  fold_left
    (fun p x =>
       let pos := snd (snd x) + first in
       if (boundLower trainArgs <=? pos) && (pos <? boundUpper trainArgs)
       then push_back_at p pos (fst x) else p)
    aligned pile.

(** The events under a key; none when the key is not in the pile. *)
Definition events_at (m : pileup) (k : Z) : list double :=
  match List.find (fun x => fst x =? k) m with
  | Some x => snd x
  | None => []
  end.

(** The keys are in strictly ascending order. *)
Definition ascending (m : pileup) : Prop := StronglySorted Z.lt (keys m).

(** The part of the reference between the two bounds of a read. *)
Definition mapped_region (reference : string) (first second : Z) : string :=
  substring (Z.to_nat first) (Z.to_nat (second - first)) reference.

Section ReportVocabulary.
Context {E : Externals}.
Variable reference : string.

(** What is written on the standard output for a position whose fit
    fails with [NegativeLog]. *)
Definition abort_message (entry : Z * list double) : string :=
  (NegativeLog_what ++ ENDL ++ "Aborted training on: "
   ++ fiveMer_of reference (fst entry) ++ ENDL)%string.

Definition fit_fails (entry : Z * list double) : bool :=
  negb (fit_succeeds reference entry).

(** The loop over the pile, with the two streams as they stand when the
    loop is left, at its end or by an exception.  What leaves
    [fit_position] other than a value does so before anything of the
    position is written (after undefined behaviour nothing is known of
    the streams). *)
Fixpoint fit_positions_run (pile : pileup) (io : streams)
    : streams * result unit :=
  match pile with
  | [] => (io, Ok tt)
  | entry :: rest =>
      match fit_position reference entry io with
      | Ok io' => fit_positions_run rest io'
      | Throw e => (io, Throw e)
      | Undefined => (io, Undefined)
      | OutOfFuel => (io, OutOfFuel)
      end
  end.

End ReportVocabulary.

(* ================================================================== *)
(** * The bounds line of a read *)
(* ================================================================== *)

(** [std::string::npos], and [s.find( c )] as a [size_t]. *)
Definition npos : Z := 18446744073709551615.

Definition find_pos (s : string) (c : ascii) : Z :=
  match find s c with
  | Some i => i
  | None => npos
  end.

(** The two bounds of a read, as [train_main] takes them from the second
    line of the record of the read. *)
Definition read_bounds (line : string) : result (Z * Z) :=
  lower <- substr line 0 (find_pos line " ") ;;
  upper <- substr line (to_size (find_pos line " " + 1))
             (to_size (size line - find_pos line " ")) ;;
  Ok (atoi lower, atoi upper).

(* ================================================================== *)
(** * The command line of [train] *)
(* ================================================================== *)

(** What leaves [parseTrainingArguments] and the readers of files other
    than a value: the process exits with a status after writing on the
    standard output, an exception is thrown, or the behaviour is not
    defined. *)
Inductive cli_exn : Type :=
| InsufficientArguments
| InvalidOption (flag : string)
| invalid_argument      (* std::invalid_argument of std::stoi *)
| int_out_of_range.     (* std::out_of_range of std::stoi *)

Inductive outcome (A : Type) : Type :=
| Returns (a : A)
| Exits (status : Z) (written : string)
| Raises (e : cli_exn)
| Unspecified.

Arguments Returns {A} a.
Arguments Exits {A} status written.
Arguments Raises {A} e.
Arguments Unspecified {A}.

Definition EXIT_SUCCESS : Z := 0.
Definition EXIT_FAILURE : Z := 1.

Module CommandLine.

Local Open Scope string_scope.

(** The help text of [train]. *)
Definition help : string :=
  "train: Osiris executable that determines the mean and standard deviation of a base analogue's current." ++ ENDL ++
  "To run Osiris train, do:" ++ ENDL ++
  "  ./Osiris train [arguments]" ++ ENDL ++
  "Example:" ++ ENDL ++
  "  ./Osiris train -d /path/to/data.foh -b 150 650 -o output.txt -t 20" ++ ENDL ++
  "Required arguments are:" ++ ENDL ++
  "  -d,--trainingData         path to training data in the .foh format (made with prepTrainingData.py)," ++ ENDL ++
  "  -b,--bounds               indices of where the de Bruijn sequence starts and ends in the reference," ++ ENDL ++
  "  -o,--output               path to the output pore model file that Osiris will train." ++ ENDL ++
  "Optional arguments are:" ++ ENDL ++
  "  -t,--threads              number of threads (default is 1 thread)." ++ ENDL.

(** [struct Arguments] as [parseTrainingArguments] fills it.  The two
    bounds are not initialised: [None] is a bound that was never
    assigned.  [logFile] and [logFilename] are neither read nor written
    by the parser. *)
Record Arguments : Type := mkArguments {
  trainingDataFilename : string;
  trainingOutputFilename : string;
  threads : Z;
  boundLower : option Z;
  boundUpper : option Z
}.

(** [std::stoi]: leading white space, an optional sign, the longest run
    of decimal digits; [std::invalid_argument] when there is no digit,
    [std::out_of_range] when the value is not an [int]. *)
Definition stoi (s : string) : outcome Z :=
  let s := skip_spaces s in
  let '(negative, digits) :=
    match s with
    | String "-"%char r => (true, r)
    | String "+"%char r => (false, r)
    | _ => (false, s)
    end in
  match digits with
  | String c _ =>
      match digit_of c with
      | Some _ =>
          let v := digits_value digits 0 in
          let v := if negative then (- v)%Z else v in
          if ((- INT_MAX - 1 <=? v) && (v <=? INT_MAX))%Z then Returns v
          else Raises int_out_of_range
      | None => Raises invalid_argument
      end
  | EmptyString => Raises invalid_argument
  end.

Definition is_flag (flag short long : string) : bool :=
  String.eqb flag short || String.eqb flag long.

(** The loop over the options, on the arguments from [argv[i]] on.
    [argv[argc]] is a null pointer, from which no [std::string] can be
    made, and there is nothing to read after it. *)
Fixpoint parse_options (args : list string) (trainArgs : Arguments)
    : outcome Arguments :=
  match args with
  | [] => Returns trainArgs
  | flag :: values =>
      if is_flag flag "-d" "--trainingData" then
        match values with
        | strArg :: rest =>
            parse_options rest
              {| trainingDataFilename := strArg;
                 trainingOutputFilename := trainingOutputFilename trainArgs;
                 threads := threads trainArgs;
                 boundLower := boundLower trainArgs;
                 boundUpper := boundUpper trainArgs |}
        | [] => Unspecified
        end
      else if is_flag flag "-o" "--output" then
        match values with
        | strArg :: rest =>
            parse_options rest
              {| trainingDataFilename := trainingDataFilename trainArgs;
                 trainingOutputFilename := strArg;
                 threads := threads trainArgs;
                 boundLower := boundLower trainArgs;
                 boundUpper := boundUpper trainArgs |}
        | [] => Unspecified
        end
      else if is_flag flag "-b" "--bounds" then
        match values with
        | strLower :: values' =>
            match stoi strLower with
            | Returns lower =>
                match values' with
                | strUpper :: rest =>
                    match stoi strUpper with
                    | Returns upper =>
                        parse_options rest
                          {| trainingDataFilename :=
                               trainingDataFilename trainArgs;
                             trainingOutputFilename :=
                               trainingOutputFilename trainArgs;
                             threads := threads trainArgs;
                             boundLower := Some lower;
                             boundUpper := Some upper |}
                    | Exits status written => Exits status written
                    | Raises e => Raises e
                    | Unspecified => Unspecified
                    end
                | [] => Unspecified
                end
            | Exits status written => Exits status written
            | Raises e => Raises e
            | Unspecified => Unspecified
            end
        | [] => Unspecified
        end
      else if is_flag flag "-t" "--threads" then
        match values with
        | strArg :: rest =>
            match stoi strArg with
            | Returns n =>
                parse_options rest
                  {| trainingDataFilename := trainingDataFilename trainArgs;
                     trainingOutputFilename :=
                       trainingOutputFilename trainArgs;
                     threads := n;
                     boundLower := boundLower trainArgs;
                     boundUpper := boundUpper trainArgs |}
            | Exits status written => Exits status written
            | Raises e => Raises e
            | Unspecified => Unspecified
            end
        | [] => Unspecified
        end
      else Raises (InvalidOption flag)
  end.

(** The record before the loop: one thread, the two names empty. *)
Definition defaults : Arguments :=
  {| trainingDataFilename := ""; trainingOutputFilename := "";
     threads := 1; boundLower := None; boundUpper := None |}.

(** [parseTrainingArguments( argc, argv )], [argv] being the [argc]
    strings before the null pointer. *)
Definition parseTrainingArguments (argv : list string) : outcome Arguments :=
  match argv with
  | [] | [_] => Raises InsufficientArguments
  | _ :: (first :: _) as args =>
      if is_flag first "-h" "--help"
      then Exits EXIT_SUCCESS (help ++ ENDL)
      else parse_options args defaults
  end.

(** ** A command line as a list of settings *)

Inductive setting : Type :=
| TrainingData (path : string)
| Output (path : string)
| Bounds (lower upper : Z)
| Threads (n : Z).

(** The arguments that spell a setting, with the short or the long
    name of its option. *)
Definition spelled (o : bool * setting) : list string :=
  let long := fst o in
  match snd o with
  | TrainingData path => [if long then "--trainingData" else "-d"; path]
  | Output path => [if long then "--output" else "-o"; path]
  | Bounds lower upper =>
      [if long then "--bounds" else "-b"; to_string lower; to_string upper]
  | Threads n => [if long then "--threads" else "-t"; to_string n]
  end.

Definition apply_setting (a : Arguments) (o : bool * setting) : Arguments :=
  match snd o with
  | TrainingData path =>
      {| trainingDataFilename := path;
         trainingOutputFilename := trainingOutputFilename a;
         threads := threads a;
         boundLower := boundLower a; boundUpper := boundUpper a |}
  | Output path =>
      {| trainingDataFilename := trainingDataFilename a;
         trainingOutputFilename := path;
         threads := threads a;
         boundLower := boundLower a; boundUpper := boundUpper a |}
  | Bounds lower upper =>
      {| trainingDataFilename := trainingDataFilename a;
         trainingOutputFilename := trainingOutputFilename a;
         threads := threads a;
         boundLower := Some lower; boundUpper := Some upper |}
  | Threads n =>
      {| trainingDataFilename := trainingDataFilename a;
         trainingOutputFilename := trainingOutputFilename a;
         threads := n;
         boundLower := boundLower a; boundUpper := boundUpper a |}
  end.

(** The numbers of a setting are [int] values that are not negative. *)
Definition plain (o : bool * setting) : Prop :=
  match snd o with
  | Bounds lower upper =>
      (0 <= lower <= INT_MAX /\ 0 <= upper <= INT_MAX)%Z
  | Threads n => (0 <= n <= INT_MAX)%Z
  | _ => True
  end.

Definition sets_bounds (o : bool * setting) : bool :=
  match snd o with Bounds _ _ => true | _ => false end.

(** The eight names of the four options, and the two of the help. *)
Definition recognised (flag : string) : bool :=
  is_flag flag "-d" "--trainingData" || is_flag flag "-o" "--output"
  || is_flag flag "-b" "--bounds" || is_flag flag "-t" "--threads".

Definition asks_help (flag : string) : bool := is_flag flag "-h" "--help".

End CommandLine.

(* ================================================================== *)
(** * Reading the reference and the pore model *)
(* ================================================================== *)

(** [std::map< std::string, V >]: the entries in ascending order of
    their keys. *)
Section StringMap.
Variable V : Type.

(** [m[k] = v]. *)
Fixpoint map_assign (m : list (string * V)) (k : string) (v : V)
    : list (string * V) :=
  match m with
  | [] => [(k, v)]
  | (k', v') :: m' =>
      match String.compare k k' with
      | Lt => (k, v) :: m
      | Eq => (k', v) :: m'
      | Gt => (k', v') :: map_assign m' k v
      end
  end.

Fixpoint map_lookup (m : list (string * V)) (k : string) : option V :=
  match m with
  | [] => None
  | (k', v') :: m' => if String.eqb k k' then Some v' else map_lookup m' k
  end.

End StringMap.

(** [std::transform] of a string onto itself. *)
Fixpoint transform (f : ascii -> ascii) (s : string) : string :=
  match s with
  | EmptyString => EmptyString
  | String c s' => String (f c) (transform f s')
  end.

(** [toupper] in the C locale: a lower-case letter becomes the
    upper-case one, every other character is left as it is. *)
Definition toupper (c : ascii) : ascii :=
  let n := nat_of_ascii c in
  if ((97 <=? n) && (n <=? 122))%nat then ascii_of_nat (n - 32) else c.

Definition CR : ascii := ascii_of_nat 13.
Definition HT : ascii := ascii_of_nat 9.

(** The characters a reference may have. *)
Definition legal (c : ascii) : bool :=
  existsb (Ascii.eqb c) (list_ascii_of_string "ATGCNURYKMSWBDHV").

(** The grammar check of a line: the first character that is neither a
    carriage return nor legal. *)
Fixpoint first_illegal (line : string) : option ascii :=
  match line with
  | EmptyString => None
  | String c rest =>
      if Ascii.eqb c CR then first_illegal rest
      else if legal c then first_illegal rest
      else Some c
  end.

(** [line[0] == '>']. *)
Definition is_header (line : string) : bool :=
  match line with
  | String c _ => Ascii.eqb c ">"
  | EmptyString => false
  end.

(** What the loop of [import_reference] carries from line to line. *)
Record reference_state : Type := mkReferenceState {
  currentRefName : string;
  references : list (string * string);
  referencesInFile : Z
}.

Definition illegal_character (c : ascii) : string :=
  ("Exiting with error.  Illegal character in reference file: "
   ++ String c EmptyString ++ ENDL)%string.

Definition no_header : string :=
  ("Exiting with error.  No fasta header (>) found in reference file."
   ++ ENDL)%string.

(** The body of the loop over the lines of the file.  [referencesInFile]
    is an [int]. *)
Definition reference_line (line : string) (st : reference_state)
    : outcome reference_state :=
  if is_header line then
    let name := substring 1 (String.length line - 1) line in
    let name := match find name " " with
                | Some k => substring 0 (Z.to_nat k) name
                | None => name
                end in
    if referencesInFile st =? INT_MAX then Unspecified
    else Returns {| currentRefName := name;
                    references := map_assign (references st) name EmptyString;
                    referencesInFile := referencesInFile st + 1 |}
  else
    let line := transform toupper line in
    match first_illegal line with
    | Some c => Exits EXIT_FAILURE (illegal_character c)
    | None =>
        let sequence :=
          match map_lookup (references st) (currentRefName st) with
          | Some s => s
          | None => EmptyString
          end in
        Returns {| currentRefName := currentRefName st;
                   references := map_assign (references st)
                                   (currentRefName st)
                                   (sequence ++ line)%string;
                   referencesInFile := referencesInFile st |}
    end.

Fixpoint reference_lines (lines : list string) (st : reference_state)
    : outcome reference_state :=
  match lines with
  | [] => Returns st
  | line :: rest =>
      match reference_line line st with
      | Returns st' => reference_lines rest st'
      | Exits status written => Exits status written
      | Raises e => Raises e
      | Unspecified => Unspecified
      end
  end.

(** [import_reference] on the lines of a file that could be opened. *)
Definition import_reference (lines : list string)
    : outcome (list (string * string)) :=
  match reference_lines lines
          {| currentRefName := EmptyString; references := [];
             referencesInFile := 0 |} with
  | Returns st =>
      if referencesInFile st =? 0 then Exits EXIT_FAILURE no_header
      else Returns (references st)
  | Exits status written => Exits status written
  | Raises e => Raises e
  | Unspecified => Unspecified
  end.

(** Every character of the string is legal or a carriage return. *)
Fixpoint clean (s : string) : Prop :=
  match s with
  | EmptyString => True
  | String c rest => (c = CR \/ legal c = true) /\ clean rest
  end.

Definition clean_store (st : reference_state) : Prop :=
  Forall (fun kv => clean (snd kv)) (references st).

(** ** The pore model file *)

(** [s.erase( 0, n )]. *)
Definition erase_front (s : string) (n : Z) : string :=
  substring (Z.to_nat (Z.min n (size s))) (String.length s) s.

(** [s.substr( 0, s.find( delim ) )], [delim] being the tab. *)
Definition column (s : string) : string :=
  substring 0 (Z.to_nat (Z.min (find_pos s HT) (size s))) s.

(** [s.erase( 0, s.find( delim ) + delim.length() )]. *)
Definition next_column (s : string) : string :=
  erase_front s (to_size (find_pos s HT + 1)).

(** Whether the line is taken as a header of the file. *)
Definition skipped (line : string) : bool :=
  String.eqb (substring 0 4 line) "kmer"
  || match line with
     | String c _ => Ascii.eqb c "#"
     | EmptyString => false
     end.

Section PoreModel.
(** [atof] of the C library. *)
Variable atof : string -> double.

(** The body of the loop over the lines of the file. *)
Definition pore_line (line : string)
    (kmer2MeanStd : list (string * (double * double)))
    : list (string * (double * double)) :=
  if skipped line then kmer2MeanStd
  else
    let key := column line in
    let line := next_column line in
    let mean := column line in
    let line := next_column line in
    let std := column line in
    map_assign kmer2MeanStd key (atof mean, atof std).

(** [import_poreModel] on the lines of a file that could be opened. *)
Definition import_poreModel (lines : list string)
    : list (string * (double * double)) :=
  fold_left (fun m line => pore_line line m) lines [].

End PoreModel.

(* ================================================================== *)
(** * More instances to run the driver on *)
(* ================================================================== *)

(** As [example_externals], but the pore model has no entry for the
    k-mers of [unknown], and the fit fails with [failure] on an empty
    sample. *)
Definition example_with (unknown : list string) (failure : exn)
    : Externals :=
  {| internalSS2M1 := Binary64.half; internalSS2M2 := Binary64.half;
     internalD2I := Binary64.half; internalI2I := Binary64.half;
     internalI2SS := Binary64.half; internalM12M1 := Binary64.half;
     internalM12SE := Binary64.half; internalM22M2 := Binary64.half;
     internalM22SE := Binary64.half; internalSE2I := Binary64.half;
     externalD2D := Binary64.half; externalD2SS := Binary64.half;
     externalI2SS := Binary64.half; externalSE2SS := Binary64.half;
     externalSE2D := Binary64.half;
     FiveMer_model := fun kmer =>
       if (String.length kmer =? 5)%nat
          && negb (existsb (String.eqb kmer) unknown)
       then Some (lit50, Binary64.one)
       else None;
     normaliseEvents := fun r =>
       {| normalisedEvents := raw r;
          qualityScore := hd Binary64.zero (raw r) |};
     viterbi := fun hmm _ => Ok (Binary64.zero, states_of hmm);
     gaussianMixtureEM := fun mu1 stdv1 mu2 stdv2 events _ =>
       match events with
       | [] => Throw failure
       | _ => Ok [Binary64.half; mu1; stdv1; Binary64.half; mu2; stdv2]
       end;
     show_double := example_show |}.

(** A stand-in for [atof] that knows two numerals. *)
Definition example_atof (s : string) : double :=
  if String.eqb s "1" then Binary64.one
  else if String.eqb s "0.5" then Binary64.half
  else Binary64.zero.

(* ================================================================== *)
(** * Properties of the log-space arithmetic *)
(* ================================================================== *)

Lemma bind_Ok {A B : Type} (a : A) (k : A -> result B) : bind (Ok a) k = k a.
Proof. reflexivity. Qed.

Lemma bind_inv_Ok {A B : Type} (m : result A) (k : A -> result B) (b : B) :
  bind m k = Ok b -> exists a, m = Ok a /\ k a = Ok b.
Proof. destruct m; simpl; intros H; try discriminate; eauto. Qed.

Section LogSpaceFacts.
Context {double : Type} {A : Arith double}.

Lemma lnGreaterThan_refines (a b : double) :
  lnGreaterThan a b = logGreaterThan_spec a b.
Proof.
  unfold lnGreaterThan, logGreaterThan_spec.
  destruct (isnan a), (isnan b); simpl; try reflexivity.
  destruct (fgt a b); reflexivity.
Qed.

End LogSpaceFacts.

(** ** IEEE comparisons against zero *)

Lemma ltb_zero_not_eqb (p : Binary64.double) :
  Binary64.ltb p Binary64.zero = true -> Binary64.eqb p Binary64.zero = false.
Proof. destruct p as [s|s| |s m e]; try destruct s; cbv; congruence. Qed.

Lemma ltb_zero_not_gtb (p : Binary64.double) :
  Binary64.ltb p Binary64.zero = true -> Binary64.gtb p Binary64.zero = false.
Proof. destruct p as [s|s| |s m e]; try destruct s; cbv; congruence. Qed.

Lemma gtb_zero_not_eqb (p : Binary64.double) :
  Binary64.gtb p Binary64.zero = true -> Binary64.eqb p Binary64.zero = false.
Proof. destruct p as [s|s| |s m e]; try destruct s; cbv; congruence. Qed.

(** ** Exact arithmetic *)


(** ** Rounding never makes a NaN *)

Lemma shr_1_nonneg (mrs : shr_record) : 0 <= shr_m mrs -> 0 <= shr_m (shr_1 mrs).
Proof.
  destruct mrs as [m r s]. simpl. intros H.
  destruct m as [|p|p]; [simpl; lia| |lia].
  destruct p; simpl; lia.
Qed.

Lemma iter_pos_keeps {T : Type} (P : T -> Prop) (f : T -> T) :
  (forall x, P x -> P (f x)) ->
  forall (n : positive) (x : T), P x -> P (iter_pos f n x).
Proof.
  intros Hf. induction n as [n IH|n IH|]; intros x Hx; simpl.
  - apply IH, IH, Hf, Hx.
  - apply IH, IH, Hx.
  - apply Hf, Hx.
Qed.

Lemma shr_nonneg (mrs : shr_record) (e n : Z) :
  0 <= shr_m mrs -> 0 <= shr_m (fst (shr mrs e n)).
Proof.
  intros H. unfold shr. destruct n; simpl; try assumption.
  apply (iter_pos_keeps (fun r => 0 <= shr_m r)); [apply shr_1_nonneg|assumption].
Qed.

Lemma shr_fexp_nonneg (m e : Z) (l : location) :
  0 <= m ->
  0 <= shr_m (fst (shr_fexp Binary64.prec Binary64.emax m e l)).
Proof.
  intros H. unfold shr_fexp. apply shr_nonneg.
  destruct l as [|[]]; simpl; assumption.
Qed.

Lemma round_nearest_even_nonneg (m : Z) (l : location) :
  0 <= m -> 0 <= round_nearest_even m l.
Proof.
  intros H. unfold round_nearest_even.
  destruct l as [|[]]; try assumption; [destruct (Z.even m)|]; lia.
Qed.

Lemma binary_round_aux_not_nan (sx : bool) (mx ex : Z) (lx : location) :
  0 <= mx ->
  Binary64.is_nan (binary_round_aux Binary64.prec Binary64.emax sx mx ex lx)
  = false.
Proof.
  intros H. unfold binary_round_aux.
  pose proof (shr_fexp_nonneg ex lx H) as H1.
  destruct (shr_fexp Binary64.prec Binary64.emax mx ex lx) as [mrs' e'].
  cbn [fst] in H1.
  pose proof (shr_fexp_nonneg e' loc_Exact
                (round_nearest_even_nonneg (loc_of_shr_record mrs') H1)) as H2.
  destruct (shr_fexp Binary64.prec Binary64.emax
              (round_nearest_even (shr_m mrs') (loc_of_shr_record mrs'))
              e' loc_Exact) as [mrs'' e''].
  cbn [fst] in H2.
  destruct (shr_m mrs'') as [|p|p]; [reflexivity| |lia].
  destruct (e'' <=? Binary64.emax - Binary64.prec); reflexivity.
Qed.

Lemma binary_normalize_not_nan (m e : Z) (szero : bool) :
  Binary64.is_nan
    (binary_normalize Binary64.prec Binary64.emax m e szero) = false.
Proof.
  unfold binary_normalize, binary_round.
  destruct m as [|p|p]; [reflexivity| |];
    destruct (shl_align _ _ _) as [mz ez];
    apply binary_round_aux_not_nan; lia.
Qed.

Lemma sub_nan (a b : Binary64.double) :
  Binary64.is_nan a = false -> Binary64.is_nan b = false ->
  Binary64.is_nan (Binary64.sub a b) = same_infinity a b.
Proof.
  intros Ha Hb. unfold Binary64.sub, SFsub.
  destruct a as [sa|sa| |sa ma ea]; try discriminate;
    destruct b as [sb|sb| |sb mb eb]; try discriminate;
    try (destruct sa, sb; reflexivity); try reflexivity.
  apply binary_normalize_not_nan.
Qed.

Lemma add_nan (a b : Binary64.double) :
  Binary64.is_nan a = false -> Binary64.is_nan b = false ->
  Binary64.is_nan (Binary64.add a b) = opposite_infinities a b.
Proof.
  intros Ha Hb. unfold Binary64.add, SFadd.
  destruct a as [sa|sa| |sa ma ea]; try discriminate;
    destruct b as [sb|sb| |sb mb eb]; try discriminate;
    try (destruct sa, sb; reflexivity); try reflexivity.
  apply binary_normalize_not_nan.
Qed.

Lemma add_comm (a b : Binary64.double) :
  Binary64.add a b = Binary64.add b a.
Proof.
  unfold Binary64.add, SFadd.
  destruct a as [sa|sa| |sa ma ea]; destruct b as [sb|sb| |sb mb eb];
    try reflexivity; try (destruct sa, sb; reflexivity).
  cbv zeta. rewrite (Z.min_comm eb ea), Z.add_comm. reflexivity.
Qed.

Lemma sub_self (a : Binary64.double) :
  Binary64.is_nan a = false -> same_infinity a a = false ->
  Binary64.sub a a = Binary64.zero.
Proof.
  intros Ha Hi. unfold Binary64.sub, SFsub.
  destruct a as [sa|sa| |sa ma ea]; try discriminate.
  - destruct sa; reflexivity.
  - destruct sa; discriminate.
  - cbv zeta. rewrite Z.sub_diag. reflexivity.
Qed.

(** ** [lnSum] on binary64 *)

Lemma same_infinity_sym (a b : Binary64.double) :
  same_infinity a b = same_infinity b a.
Proof.
  destruct a as [sa|sa| |sa ma ea]; destruct b as [sb|sb| |sb mb eb];
    try reflexivity. destruct sa, sb; reflexivity.
Qed.

Ltac binary64_ops :=
  cbn [isnan feq fgt fadd fsub fexp flog lit0 lit1 NAN Binary64.arith].

Section OnBinary64.
Variables c_exp c_log : Binary64.double -> Binary64.double.

(** One branch of [lnSum]: [M] is the operand taken as the larger. *)
Lemma lnSum_branch (M m : Binary64.double) :
  exp_positive c_exp ->
  Binary64.is_nan m = false -> Binary64.is_nan M = false ->
  (t <- @eln _ (Binary64.arith c_exp c_log)
          (Binary64.add Binary64.one
             (@eexp _ (Binary64.arith c_exp c_log) (Binary64.sub m M))) ;;
   Ok (Binary64.add M t))
  = Ok (if same_infinity m M
        then Binary64.add M (c_log Binary64.one)
        else Binary64.add M
               (c_log (Binary64.add Binary64.one
                         (c_exp (Binary64.sub m M))))).
Proof.
  intros Hexp Hm HM. unfold eexp. binary64_ops.
  rewrite (@sub_nan m M Hm HM).
  destruct (same_infinity m M) eqn:Hsame.
  - reflexivity.
  - assert (Hnan : Binary64.is_nan (Binary64.sub m M) = false)
      by (rewrite (@sub_nan m M Hm HM); assumption).
    pose proof (Hexp _ Hnan) as Hpos.
    unfold eln. binary64_ops.
    rewrite (gtb_zero_not_eqb _ Hpos), Hpos. reflexivity.
Qed.

Lemma lnSum_numbers (a b : Binary64.double) :
  let A := Binary64.arith c_exp c_log in
  exp_positive c_exp ->
  Binary64.is_nan a = false -> Binary64.is_nan b = false ->
  lnSum a b
  = Ok (if same_infinity a b
        then Binary64.add (larger a b) (c_log Binary64.one)
        else logSum_formula a b).
Proof.
  intros A Hexp Ha Hb. subst A.
  unfold lnSum, logSum_formula, larger, smaller. binary64_ops.
  rewrite Ha, Hb. cbn [orb].
  destruct (Binary64.gtb a b).
  - rewrite (same_infinity_sym a b).
    apply (@lnSum_branch a b Hexp Hb Ha).
  - apply (@lnSum_branch b a Hexp Ha Hb).
Qed.

End OnBinary64.

Lemma sample_exp_positive : exp_positive sample_exp.
Proof.
  intros x Hx. destruct x as [s|s| |s m e]; try discriminate.
  - reflexivity.
  - destruct s; reflexivity.
  - unfold sample_exp.
    destruct (Binary64.ltb (S754_finite s m e) (SFopp lit746)); [reflexivity|].
    destruct (Binary64.gtb (S754_finite s m e) lit710); reflexivity.
Qed.

(** C2.  On binary64, with an [exp] that is never negative, [lnSum]
    never throws; it yields the sentinel when both operands are the
    sentinel, the other operand when exactly one is, and otherwise the
    larger operand plus the logarithm of one plus the exponential of the
    smaller minus the larger, as [logSum] of the design document has it
    -- unless the two operands are the same infinity: the difference is
    then a NaN, which [eexp] takes for the sentinel, and the result is
    the operand plus [log 1.0]. *)
Theorem lnSum_cases (c_exp c_log : Binary64.double -> Binary64.double)
    (a b : Binary64.double) :
  let A := Binary64.arith c_exp c_log in
  exp_positive c_exp ->
  lnSum a b
  = Ok (if same_infinity a b
        then Binary64.add a (c_log Binary64.one)
        else logSum_formula a b).
Proof.
  intros A Hexp.
  destruct (Binary64.is_nan a) eqn:Ha; [|destruct (Binary64.is_nan b) eqn:Hb].
  - destruct a; try discriminate. destruct b; reflexivity.
  - destruct b; try discriminate. destruct a; try discriminate; reflexivity.
  - subst A. rewrite (@lnSum_numbers c_exp c_log a b Hexp Ha Hb).
    destruct (same_infinity a b) eqn:Hsame; [|reflexivity].
    destruct a as [sa|sa| |sa ma ea]; try discriminate;
      destruct b as [sb|sb| |sb mb eb]; try discriminate.
    destruct sa, sb; try discriminate; reflexivity.
Qed.

(** [lnSum] at 0.5 and 1.0, and at the sentinel. *)
Lemma lnSum_cases_witness :
  let A := Binary64.arith sample_exp sample_log in
  lnSum Binary64.half Binary64.one
  = Ok (Binary64.add Binary64.one
          (sample_log (Binary64.add Binary64.one
                         (sample_exp (Binary64.sub Binary64.half
                                        Binary64.one)))))
  /\ lnSum S754_nan Binary64.one = Ok Binary64.one
  /\ lnSum Binary64.half S754_nan = Ok Binary64.half
  /\ lnSum S754_nan S754_nan = Ok S754_nan.
Proof.
  intros A.
  split; [|split; [|split]].
  - apply (@lnSum_cases sample_exp sample_log Binary64.half Binary64.one
             sample_exp_positive).
  - apply (@lnSum_cases sample_exp sample_log S754_nan Binary64.one
             sample_exp_positive).
  - apply (@lnSum_cases sample_exp sample_log Binary64.half S754_nan
             sample_exp_positive).
  - apply (@lnSum_cases sample_exp sample_log S754_nan S754_nan
             sample_exp_positive).
Defined.

(** At [+inf] and [+inf], [lnSum] returns [+inf], and the formula of
    [logSum] is a NaN. *)
Lemma lnSum_formula_fails_at_infinity :
  let A := Binary64.arith sample_exp sample_log in
  let inf := S754_infinity false in
  lnSum inf inf = Ok inf
  /\ logSum_formula inf inf = S754_nan
  /\ lnSum inf inf <> Ok (logSum_formula inf inf).
Proof.
  intros A inf. split; [reflexivity|]. split; [reflexivity|].
  intros H. discriminate H.
Qed.

(** C3.  On binary64, [eln] yields the sentinel when [p == 0], the
    logarithm of [p] when [p > 0], and raises [NegativeLog] when [p < 0];
    [eln 0.0] is the sentinel and not an exception. *)
Theorem eln_cases (c_exp c_log : Binary64.double -> Binary64.double)
    (p : Binary64.double) :
  let A := Binary64.arith c_exp c_log in
  (Binary64.eqb p Binary64.zero = true -> eln p = Ok S754_nan)
  /\ (Binary64.gtb p Binary64.zero = true -> eln p = Ok (c_log p))
  /\ (Binary64.ltb p Binary64.zero = true -> eln p = Throw NegativeLog)
  /\ eln Binary64.zero = Ok S754_nan.
Proof.
  intros A. unfold eln; simpl. repeat split.
  - intros H; rewrite H; reflexivity.
  - intros H. rewrite (gtb_zero_not_eqb _ H), H. reflexivity.
  - intros H. rewrite (ltb_zero_not_eqb _ H), (ltb_zero_not_gtb _ H).
    reflexivity.
Qed.

(** [eln] at [-0.0], at [1.0] and at [-1.0]; the C library is stood
    for by its values at these points, [log 1.0 = 0.0]. *)
Lemma eln_cases_witness :
  let c_exp := fun _ : Binary64.double => Binary64.one in
  let c_log := fun _ : Binary64.double => Binary64.zero in
  let A := Binary64.arith c_exp c_log in
  eln (S754_zero true) = Ok S754_nan
  /\ eln Binary64.one = Ok Binary64.zero
  /\ eln (SFopp Binary64.one) = Throw NegativeLog.
Proof.
  intros c_exp c_log A.
  destruct (eln_cases c_exp c_log (S754_zero true)) as [H0 _].
  destruct (eln_cases c_exp c_log Binary64.one) as [_ [H1 _]].
  destruct (eln_cases c_exp c_log (SFopp Binary64.one)) as [_ [_ [H2 _]]].
  split; [apply H0; reflexivity|].
  split; [apply H1; reflexivity|apply H2; reflexivity].
Defined.

(** C4.  [lnGreaterThan] is the strict comparison in which the sentinel
    is the least element: false whenever the first operand is the
    sentinel, true when only the second is, and [a > b] when neither
    is. *)
Theorem lnGreaterThan_cases (double : Type) (A : Arith double) (a b : double) :
  lnGreaterThan a b
  = if isnan a then false else if isnan b then true else fgt a b.
Proof.
  rewrite lnGreaterThan_refines. unfold logGreaterThan_spec.
  destruct (isnan a), (isnan b); reflexivity.
Qed.



(* ================================================================== *)
(** * Counted loops and unchecked indexing *)
(* ================================================================== *)

Lemma to_uint_small (z : Z) : 0 <= z <= UINT_MAX -> to_uint z = z.
Proof. unfold to_uint, UINT_MAX. intros H. apply Z.mod_small. lia. Qed.

Lemma to_size_small (z : Z) :
  0 <= z < 18446744073709551616 -> to_size z = z.
Proof. unfold to_size. intros H. apply Z.mod_small. lia. Qed.

Lemma to_int_small (z : Z) : - INT_MAX - 1 <= z <= INT_MAX -> to_int z = z.
Proof.
  unfold to_int, INT_MAX. intros H.
  rewrite Z.mod_small by lia. lia.
Qed.

Lemma upto_length (n : nat) : List.length (upto n) = n.
Proof. unfold upto. rewrite length_map, length_seq. reflexivity. Qed.

Lemma upto_S (n : nat) : upto (S n) = upto n ++ [Z.of_nat n].
Proof. unfold upto. rewrite seq_S, map_app. reflexivity. Qed.

Lemma upto_nth (n k : nat) :
  (k < n)%nat -> nth_error (upto n) k = Some (Z.of_nat k).
Proof.
  intros H. unfold upto.
  rewrite nth_error_map, nth_error_seq.
  destruct (Nat.ltb_spec k n); [reflexivity|lia].
Qed.

Lemma foldM_app {St : Type} (body : Z -> St -> result St) (l1 l2 : list Z)
    (s : St) :
  foldM body (l1 ++ l2) s = (s' <- foldM body l1 s ;; foldM body l2 s').
Proof.
  revert s. induction l1 as [|i l1 IH]; intros s; simpl; [reflexivity|].
  destruct (body i s); simpl; auto.
Qed.

Lemma foldM_ext {St : Type} (f g : Z -> St -> result St) (l : list Z) (s : St) :
  (forall i s', In i l -> f i s' = g i s') -> foldM f l s = foldM g l s.
Proof.
  revert s. induction l as [|i l IH]; intros s H; simpl; [reflexivity|].
  rewrite (H i s) by (left; reflexivity).
  destruct (g i s); simpl; auto.
  apply IH. intros; apply H; right; assumption.
Qed.

(** A counted loop whose bound fits the counter runs its body on the
    indices from the counter up to the bound; the fuel it needs is the
    number of rounds. *)
Lemma for_uint_from {St : Type} (body : Z -> St -> result St) (fuel : nat) :
  forall (i bound : Z) (s : St),
    0 <= i <= bound -> bound <= UINT_MAX ->
    (Z.to_nat (bound - i) <= fuel)%nat ->
    for_uint fuel i bound body s
    = foldM body (map Z.of_nat (seq (Z.to_nat i) (Z.to_nat (bound - i)))) s.
Proof.
  induction fuel as [|fuel IH]; intros i bound s Hi Hb Hf.
  - assert (bound = i) by lia. subst bound.
    rewrite Z.sub_diag. simpl.
    rewrite Z.ltb_irrefl. reflexivity.
  - simpl. destruct (Z.ltb_spec i bound) as [Hlt|Hge].
    + replace (Z.to_nat (bound - i)) with (S (Z.to_nat (bound - (i + 1))))
        by lia.
      simpl. rewrite Z2Nat.id by lia.
      destruct (body i s) as [s'| | |]; simpl; try reflexivity.
      rewrite to_uint_small by lia.
      rewrite IH by lia.
      replace (Z.to_nat (i + 1)) with (S (Z.to_nat i)) by lia.
      reflexivity.
    + assert (bound = i) by lia. subst bound.
      rewrite Z.sub_diag. reflexivity.
Qed.

Lemma for_uint_upto {St : Type} (body : Z -> St -> result St) (fuel : nat)
    (bound : Z) (s : St) :
  0 <= bound <= UINT_MAX -> (Z.to_nat bound <= fuel)%nat ->
  for_uint fuel 0 bound body s = foldM body (upto (Z.to_nat bound)) s.
Proof.
  intros Hb Hf. rewrite for_uint_from by lia.
  rewrite Z.sub_0_r. reflexivity.
Qed.

(** A loop over a bound beyond the counter's range never ends: whatever
    the fuel, it is either still running or has left through its body. *)
Lemma for_uint_wraps {St : Type} (body : Z -> St -> result St) (fuel : nat) :
  forall (i bound : Z) (s s' : St),
    0 <= i <= UINT_MAX -> UINT_MAX < bound ->
    for_uint fuel i bound body s <> Ok s'.
Proof.
  induction fuel as [|fuel IH]; intros i bound s s' Hi Hb; simpl;
    destruct (Z.ltb_spec i bound); try lia; try discriminate.
  destruct (body i s) as [s1| | |]; simpl; try discriminate.
  apply IH; [|assumption].
  unfold to_uint, UINT_MAX in *.
  pose proof (Z.mod_pos_bound (i + 1) 4294967296). lia.
Qed.

Lemma vget_nth {A : Type} (v : list A) (k : nat) (a : A) :
  nth_error v k = Some a -> vget v (Z.of_nat k) = Ok a.
Proof.
  intros H. unfold vget.
  destruct (Z.ltb_spec (Z.of_nat k) 0); [lia|].
  rewrite Nat2Z.id, H. reflexivity.
Qed.

Lemma vget_Ok_inv {A : Type} (v : list A) (i : Z) (a : A) :
  vget v i = Ok a -> 0 <= i < Z.of_nat (List.length v).
Proof.
  unfold vget. destruct (Z.ltb_spec i 0); [discriminate|].
  destruct (nth_error v (Z.to_nat i)) eqn:H1; [|discriminate].
  intros _. assert (Z.to_nat i < List.length v)%nat.
  { apply nth_error_Some. congruence. }
  lia.
Qed.

Lemma vget_in_range {A : Type} (v : list A) (i : Z) :
  0 <= i < Z.of_nat (List.length v) -> exists a, vget v i = Ok a.
Proof.
  intros H. unfold vget. destruct (Z.ltb_spec i 0); [lia|].
  destruct (nth_error v (Z.to_nat i)) eqn:H1; [eauto|].
  apply nth_error_None in H1. lia.
Qed.

Lemma vget_out_of_range {A : Type} (v : list A) (i : Z) :
  Z.of_nat (List.length v) <= i -> vget v i = Undefined.
Proof.
  intros H. unfold vget. destruct (Z.ltb_spec i 0); [reflexivity|].
  destruct (nth_error v (Z.to_nat i)) eqn:H1; [|reflexivity].
  assert (Z.to_nat i < List.length v)%nat by (apply nth_error_Some; congruence).
  lia.
Qed.

Lemma vget_middle {A : Type} (l1 l2 : list A) (x : A) :
  vget (l1 ++ x :: l2) (Z.of_nat (List.length l1)) = Ok x.
Proof.
  apply vget_nth. rewrite nth_error_app2 by lia.
  rewrite Nat.sub_diag. reflexivity.
Qed.

Lemma upd_middle {A : Type} (l1 l2 : list A) (x a : A) :
  upd (l1 ++ x :: l2) (List.length l1) a = Some (l1 ++ a :: l2).
Proof.
  induction l1 as [|y l1 IH]; simpl; [reflexivity|].
  rewrite IH. reflexivity.
Qed.

Lemma vset_middle {A : Type} (l1 l2 : list A) (x a : A) :
  vset (l1 ++ x :: l2) (Z.of_nat (List.length l1)) a = Ok (l1 ++ a :: l2).
Proof.
  unfold vset. destruct (Z.ltb_spec (Z.of_nat (List.length l1)) 0); [lia|].
  rewrite Nat2Z.id, upd_middle. reflexivity.
Qed.

Lemma vget_map_upto {A : Type} (f : Z -> A) (n : nat) (i : Z) :
  0 <= i < Z.of_nat n -> vget (map f (upto n)) i = Ok (f i).
Proof.
  intros H. replace i with (Z.of_nat (Z.to_nat i)) at 1 by lia.
  apply vget_nth. rewrite nth_error_map, upto_nth by lia.
  simpl. rewrite Z2Nat.id by lia. reflexivity.
Qed.


(* ================================================================== *)
(** * Construction of the hidden state graph *)
(* ================================================================== *)

(** Reading and writing the cell of a row that is known up to the cell,
    and reading a row that is known in full. *)
Lemma tget_eval {A : Type} (t : list (list A)) (j i : Z) (l1 l2 : list A)
    (x : A) :
  0 <= j -> nth_error t (Z.to_nat j) = Some (l1 ++ x :: l2) ->
  i = Z.of_nat (List.length l1) -> tget t j i = Ok x.
Proof.
  intros Hj Hrow ->. unfold tget, vget at 1.
  destruct (Z.ltb_spec j 0); [lia|]. rewrite Hrow. simpl.
  apply vget_middle.
Qed.

Lemma tset_eval {A : Type} (t t' : list (list A)) (j i : Z) (l1 l2 : list A)
    (x a : A) :
  0 <= j -> nth_error t (Z.to_nat j) = Some (l1 ++ x :: l2) ->
  i = Z.of_nat (List.length l1) ->
  upd t (Z.to_nat j) (l1 ++ a :: l2) = Some t' ->
  tset t j i a = Ok t'.
Proof.
  intros Hj Hrow -> Hupd. unfold tset, vget.
  destruct (Z.ltb_spec j 0); [lia|]. rewrite Hrow. simpl.
  rewrite vset_middle. simpl. unfold vset.
  destruct (Z.ltb_spec j 0); [lia|]. rewrite Hupd. reflexivity.
Qed.

Lemma tget_full {A : Type} (t : list (list A)) (f : Z -> A) (n : nat)
    (j i : Z) :
  0 <= j -> nth_error t (Z.to_nat j) = Some (map f (upto n)) ->
  0 <= i < Z.of_nat n -> tget t j i = Ok (f i).
Proof.
  intros Hj Hrow Hi. unfold tget, vget at 1.
  destruct (Z.ltb_spec j 0); [lia|]. rewrite Hrow. simpl.
  apply vget_map_upto. assumption.
Qed.

Lemma substr_kmer (s : string) (i : Z) :
  0 <= i -> i + 5 <= size s ->
  substr s i 5 = Ok (substring (Z.to_nat i) 5 s).
Proof.
  intros H0 H5. unfold substr.
  destruct (Z.ltb_spec (size s) i); [lia|].
  rewrite Z.min_l by lia. reflexivity.
Qed.

Lemma add_state_mk (S0 : list State)
    (T0 : list (endpoint * endpoint * double)) (f0 : bool) (s : State) :
  add_state (mkHMM S0 T0 f0) s = mkHMM (S0 ++ [s]) T0 f0.
Proof. reflexivity. Qed.

Lemma add_transition_mk (S0 : list State)
    (T0 : list (endpoint * endpoint * double)) (f0 : bool)
    (a b : endpoint) (w : double) :
  add_transition (mkHMM S0 T0 f0) a b w = mkHMM S0 (T0 ++ [(a, b, w)]) f0.
Proof. reflexivity. Qed.

Lemma set_meta_same (s : State) (m : string) : meta s = m -> set_meta s m = s.
Proof. destruct s; simpl; intros <-; reflexivity. Qed.

Section InstallModule.
Context {E : Externals}.

(** One round over a position: the six cells of column [k] are written,
    the six states registered and the ten internal transitions added. *)
Lemma install_module_round (fiveMer : string) (k : nat)
    (vSS vD vI vM1 vM2 vSE : State) (hmm : HiddenMarkovModel)
    (p0 p1 p2 p3 p4 p5 q0 q1 q2 q3 q4 q5 : list State)
    (d0 d1 d2 d3 d4 d5 : State) :
  List.length p0 = k -> List.length p1 = k -> List.length p2 = k ->
  List.length p3 = k -> List.length p4 = k -> List.length p5 = k ->
  meta vSS = fiveMer -> meta vD = fiveMer -> meta vI = fiveMer ->
  meta vM1 = fiveMer -> meta vM2 = fiveMer -> meta vSE = fiveMer ->
  install_module fiveMer (Z.of_nat k) vSS vD vI vM1 vM2 vSE
    (hmm, [p0 ++ d0 :: q0; p1 ++ d1 :: q1; p2 ++ d2 :: q2;
           p3 ++ d3 :: q3; p4 ++ d4 :: q4; p5 ++ d5 :: q5])
  = Ok ({| states_of := states_of hmm ++ [vSS; vD; vI; vM1; vM2; vSE];
           transitions_of :=
             transitions_of hmm
             ++ [ (at_state vSS, at_state vM1, internalSS2M1);
                  (at_state vSS, at_state vM2, internalSS2M2);
                  (at_state vD, at_state vI, internalD2I);
                  (at_state vI, at_state vI, internalI2I);
                  (at_state vI, at_state vSS, internalI2SS);
                  (at_state vM1, at_state vM1, internalM12M1);
                  (at_state vM1, at_state vSE, internalM12SE);
                  (at_state vM2, at_state vM2, internalM22M2);
                  (at_state vM2, at_state vSE, internalM22SE);
                  (at_state vSE, at_state vI, internalSE2I) ];
           finalised := finalised hmm |},
        [p0 ++ vSS :: q0; p1 ++ vD :: q1; p2 ++ vI :: q2;
         p3 ++ vM1 :: q3; p4 ++ vM2 :: q4; p5 ++ vSE :: q5]).
Proof.
  intros L0 L1 L2 L3 L4 L5 M0 M1 M2 M3 M4 M5.
  unfold install_module.
  do 6 (erewrite tset_eval;
        [ | lia | reflexivity | congruence | reflexivity ]; cbn [bind]).
  rewrite for_uint_upto by (unfold UINT_MAX; lia).
  change (upto (Z.to_nat 6)) with [0; 1; 2; 3; 4; 5].
  cbn [foldM bind]. unfold register_state.
  repeat (first
    [ erewrite tset_eval; [ | lia | reflexivity | congruence | reflexivity ]
    | erewrite tget_eval; [ | lia | reflexivity | congruence ]
    | rewrite set_meta_same by assumption ];
    cbn [bind]).
  unfold connect.
  repeat (erewrite tget_eval; [ | lia | reflexivity | congruence ];
          cbn [bind]).
  destruct hmm as [S0 T0 f0].
  rewrite !add_state_mk, !add_transition_mk, <- !app_assoc. reflexivity.
Qed.

End InstallModule.

Section GraphFacts.
Context {E : Externals}.
Variable refSeqMapped : string.
Variable first : Z.

Lemma make_distributions (n k : nat) :
  Z.of_nat n + 5 <= size refSeqMapped -> kmers_known refSeqMapped n ->
  (k <= n)%nat ->
  foldM (make_distribution refSeqMapped) (upto k) []
  = Ok (map (normal_at refSeqMapped) (upto k)).
Proof.
  intros Hn Hk. induction k as [|k IH]; intros Hle; [reflexivity|].
  rewrite upto_S, foldM_app, IH by lia. simpl.
  unfold make_distribution. rewrite substr_kmer by lia. simpl.
  rewrite map_app. simpl.
  change (substring (Z.to_nat (Z.of_nat k)) 5 refSeqMapped)
    with (fiveMer_at refSeqMapped (Z.of_nat k)).
  destruct (FiveMer_model (fiveMer_at refSeqMapped (Z.of_nat k))) eqn:Hf.
  - assert (Hnd : normal_at refSeqMapped (Z.of_nat k)
                  = NormalDistribution (fst p) (snd p))
      by (unfold normal_at; rewrite Hf; reflexivity).
    rewrite Hnd. reflexivity.
  - exfalso. apply (Hk (Z.of_nat k)); [lia|assumption].
Qed.

Lemma add_module_round (n k : nat) :
  Z.of_nat n + 5 <= size refSeqMapped -> (k < n)%nat ->
  add_module refSeqMapped first (map (normal_at refSeqMapped) (upto n))
    (Z.of_nat k)
    (graph_after refSeqMapped first k, states_after refSeqMapped first n k)
  = Ok (graph_after refSeqMapped first (S k),
        states_after refSeqMapped first n (S k)).
Proof.
  intros Hn Hk.
  change (add_module refSeqMapped first (map (normal_at refSeqMapped) (upto n))
            (Z.of_nat k)
            (graph_after refSeqMapped first k,
             states_after refSeqMapped first n k))
    with (fiveMer <- substr refSeqMapped (Z.of_nat k) 5 ;;
          nd_i <- vget (map (normal_at refSeqMapped) (upto n)) (Z.of_nat k) ;;
          let loc := to_string (to_uint (Z.of_nat k + first)) in
          install_module fiveMer (Z.of_nat k)
            (mkState (Some sd) (loc ++ "_SS") fiveMer "" Binary64.one)
            (mkState (Some sd) (loc ++ "_D") fiveMer "" Binary64.one)
            (mkState (Some ud) (loc ++ "_I") fiveMer "" Binary64.one)
            (mkState (Some nd_i) (loc ++ "_M1") fiveMer (loc ++ "_match")
               Binary64.one)
            (mkState (Some nd_i) (loc ++ "_M2") fiveMer (loc ++ "_match")
               Binary64.one)
            (mkState (Some sd) (loc ++ "_SE") fiveMer "" Binary64.one)
            (graph_after refSeqMapped first k,
             states_after refSeqMapped first n k)).
  rewrite substr_kmer by lia. cbn [bind].
  rewrite vget_map_upto by lia. cbn [bind].
  unfold states_after, roles. cbn [map].
  replace (n - k)%nat with (S (n - S k)) by lia. cbn [repeat].
  cbv zeta.
  rewrite install_module_round with (k := k);
    try (rewrite length_map, upto_length; reflexivity);
    try reflexivity.
  unfold graph_after. cbn [states_of transitions_of finalised].
  f_equal. f_equal.
  - rewrite upto_S, !flat_map_app. cbn [flat_map].
    rewrite !app_nil_r. reflexivity.
  - rewrite upto_S, !map_app. cbn [map].
    rewrite <- !app_assoc. reflexivity.
Qed.
Lemma states_after_0 (n : nat) :
  states_after refSeqMapped first n 0 = repeat (repeat dummy_state n) 6.
Proof.
  unfold states_after, roles. cbn [map upto seq app repeat].
  rewrite Nat.sub_0_r. reflexivity.
Qed.

Lemma states_after_full (n : nat) :
  states_after refSeqMapped first n n = states_full refSeqMapped first n.
Proof.
  unfold states_after, states_full, roles. cbn [map].
  rewrite Nat.sub_diag. cbn [repeat]. rewrite !app_nil_r. reflexivity.
Qed.

Lemma add_module_loop (n k : nat) :
  Z.of_nat n + 5 <= size refSeqMapped -> (k <= n)%nat ->
  foldM (add_module refSeqMapped first (map (normal_at refSeqMapped) (upto n)))
    (upto k) (new_hmm, states_after refSeqMapped first n 0)
  = Ok (graph_after refSeqMapped first k, states_after refSeqMapped first n k).
Proof.
  intros Hn. induction k as [|k IH]; intros Hk; [reflexivity|].
  rewrite upto_S, foldM_app, IH by lia. cbn [bind foldM].
  rewrite add_module_round by lia. reflexivity.
Qed.

Lemma link_modules_round (n k : nat) (hmm : HiddenMarkovModel) :
  Z.of_nat n <= UINT_MAX -> (S k < n)%nat ->
  link_modules (states_full refSeqMapped first n) (Z.of_nat k) hmm
  = Ok {| states_of := states_of hmm;
          transitions_of :=
            transitions_of hmm
            ++ external_transitions refSeqMapped first (Z.of_nat k);
          finalised := finalised hmm |}.
Proof.
  intros Hn Hk. unfold link_modules, connect.
  rewrite to_uint_small by lia.
  unfold states_full, roles. cbn [map].
  repeat (erewrite tget_full; [ | lia | reflexivity | lia ]; cbn [bind]).
  destruct hmm as [S0 T0 f0].
  rewrite !add_transition_mk, <- !app_assoc. reflexivity.
Qed.

Lemma link_modules_loop (n k : nat) (hmm : HiddenMarkovModel) :
  Z.of_nat n <= UINT_MAX -> (k < n)%nat ->
  foldM (link_modules (states_full refSeqMapped first n)) (upto k) hmm
  = Ok {| states_of := states_of hmm;
          transitions_of :=
            transitions_of hmm
            ++ flat_map (external_transitions refSeqMapped first) (upto k);
          finalised := finalised hmm |}.
Proof.
  intros Hn. induction k as [|k IH]; intros Hk.
  - destruct hmm; simpl. rewrite app_nil_r. reflexivity.
  - rewrite upto_S, foldM_app, IH by lia. cbn [bind foldM].
    rewrite link_modules_round by lia.
    cbn [bind states_of transitions_of finalised].
    rewrite flat_map_app. cbn [flat_map].
    rewrite app_nil_r, <- app_assoc. reflexivity.
Qed.

(** The whole construction, for a subsequence of six bases or more. *)
Lemma build_hmm_modules (fuel : nat) :
  6 <= size refSeqMapped -> size refSeqMapped - 5 <= UINT_MAX ->
  (Z.to_nat (size refSeqMapped - 5) <= fuel)%nat ->
  kmers_known refSeqMapped (Z.to_nat (size refSeqMapped - 5)) ->
  build_hmm fuel refSeqMapped first
  = Ok (module_graph refSeqMapped first (Z.to_nat (size refSeqMapped - 5))).
Proof.
  intros H6 Hmax Hfuel Hknown. unfold build_hmm.
  set (L := size refSeqMapped) in *.
  set (n := Z.to_nat (L - 5)) in *.
  assert (Hn : Z.of_nat n = L - 5) by lia.
  destruct (Z.ltb_spec L 5) as [|_]; [lia|].
  unfold UINT_MAX in Hmax.
  rewrite !to_size_small by lia.
  rewrite for_uint_upto by (unfold UINT_MAX; lia).
  fold n. rewrite (@make_distributions n n) by (assumption || lia).
  cbn [bind].
  rewrite for_uint_upto by (unfold UINT_MAX; lia).
  fold n. rewrite <- states_after_0.
  rewrite add_module_loop by lia. cbn [bind].
  rewrite states_after_full.
  rewrite for_uint_upto by (unfold UINT_MAX; lia).
  replace (Z.to_nat (L - 6)) with (n - 1)%nat by lia.
  rewrite link_modules_loop by (unfold UINT_MAX; lia). cbn [bind].
  unfold states_full, roles. cbn [map].
  repeat (erewrite tget_full; [ | lia | reflexivity | lia ]; cbn [bind]).
  unfold graph_after. cbn [states_of transitions_of finalised].
  rewrite !add_transition_mk. unfold finalise, module_graph.
  cbn [states_of transitions_of finalised].
  replace (Z.of_nat n - 1) with (L - 6) by lia.
  f_equal. f_equal. rewrite <- !app_assoc. reflexivity.
Qed.

Lemma flat_map_length_const {A B : Type} (f : A -> list B) (c : nat)
    (l : list A) :
  (forall x, List.length (f x) = c) ->
  List.length (flat_map f l) = (c * List.length l)%nat.
Proof.
  intros Hc. induction l as [|x l IH]; simpl; [lia|].
  rewrite length_app, Hc, IH. lia.
Qed.

(** The graph of [n] modules has [6 n] states and
    [10 n + 5 (n - 1) + 5] transitions. *)
Lemma module_graph_sizes (n : nat) :
  List.length (states_of (module_graph refSeqMapped first n)) = (6 * n)%nat
  /\ List.length (transitions_of (module_graph refSeqMapped first n))
     = (10 * n + 5 * (n - 1) + 5)%nat.
Proof.
  unfold module_graph. cbn [states_of transitions_of]. split.
  - rewrite (@flat_map_length_const _ _ _ 6%nat), upto_length by reflexivity.
    reflexivity.
  - rewrite !length_app.
    rewrite (@flat_map_length_const _ _ _ 10%nat), upto_length
      by reflexivity.
    rewrite (@flat_map_length_const _ _ _ 5%nat), upto_length
      by reflexivity.
    simpl. lia.
Qed.

End GraphFacts.

(** C1.  For a mapped subsequence of length [L > 6] whose k-mers are all
    in the pore model table, the graph that is built and finalised is the
    graph of [L - 5] modules: the six states SS, D, I, M1, M2, SE of each
    position in [0, L-5), the ten internal transitions of each position,
    the five external transitions from each position but the last to the
    next, the start state to SS and D of the first module with weight 0.5
    each, and D, I, SE of the last module to the end state with weights
    [externalD2D + externalD2SS], [externalI2SS] and
    [externalSE2SS + externalSE2D].  [L - 5] is within the range of the
    loop counter, and the fuel covers the [L - 5] rounds. *)
Theorem build_hmm_graph {E : Externals} (fuel : nat) (refSeqMapped : string)
    (first : Z) :
  6 < size refSeqMapped ->
  size refSeqMapped - 5 <= UINT_MAX ->
  (Z.to_nat (size refSeqMapped - 5) <= fuel)%nat ->
  (forall i, 0 <= i < size refSeqMapped - 5 ->
             FiveMer_model (fiveMer_at refSeqMapped i) <> None) ->
  build_hmm fuel refSeqMapped first
  = Ok (module_graph refSeqMapped first (Z.to_nat (size refSeqMapped - 5))).
Proof.
  intros H6 Hmax Hfuel Hknown.
  apply build_hmm_modules; try assumption; [lia|].
  intros i Hi. apply Hknown. lia.
Qed.

(** The graph of the seven bases ACGTACG mapped at position 7: two
    modules. *)
Lemma build_hmm_graph_witness :
  6 < size "ACGTACG"
  /\ @build_hmm example_externals 2 "ACGTACG" 7
     = Ok (@module_graph example_externals "ACGTACG" 7 2).
Proof.
  split; [reflexivity|].
  apply (@build_hmm_graph example_externals 2 "ACGTACG" 7).
  - reflexivity.
  - vm_compute. discriminate.
  - vm_compute. lia.
  - intros i Hi. change (size "ACGTACG" - 5) with 2 in Hi.
    assert (Hc : i = 0 \/ i = 1) by lia.
    destruct Hc as [-> | ->]; vm_compute; discriminate.
Defined.

(* ================================================================== *)
(** * Alignment of a read: the quality filter, the pooling *)
(* ================================================================== *)

Lemma index_lt (c : ascii) (s : string) (m : nat) :
  index 0 (String c EmptyString) s = Some m -> (m < String.length s)%nat.
Proof.
  revert m. induction s as [|b s IH]; intros m; simpl; [discriminate|].
  destruct (ascii_dec c b) as [_|_].
  - destruct s; intros H; injection H as <-; lia.
  - destruct (index 0 (String c EmptyString) s) as [k|]; [|discriminate].
    intros H; injection H as <-. specialize (IH k eq_refl). lia.
Qed.

Lemma role_tag_total (nm : string) : exists tag, role_tag nm = Ok tag.
Proof.
  unfold role_tag, substr, find.
  destruct (index 0 (String "_" EmptyString) nm) as [k|] eqn:Hk; simpl.
  - apply index_lt in Hk.
    assert (to_size (Z.of_nat k + 1) <= Z.of_nat k + 1)
      by (unfold to_size; apply Z.mod_le; lia).
    unfold size. destruct (Z.ltb_spec (Z.of_nat (String.length nm))
                             (to_size (Z.of_nat k + 1))); [lia|eauto].
  - unfold size. destruct (Z.ltb_spec (Z.of_nat (String.length nm)) 0);
      [lia|eauto].
Qed.

Lemma role_tag_empty : role_tag EmptyString = Ok EmptyString.
Proof. reflexivity. Qed.

(** [split] yields at least one entry on a name that is not empty. *)
Lemma split_entries_nonempty (s : string) (delim : ascii) (entry : string) :
  split_entries s delim entry <> [].
Proof.
  revert entry. induction s as [|c s IH]; intros entry; simpl; [discriminate|].
  destruct (Ascii.eqb c delim); [discriminate|apply IH].
Qed.

Lemma split_nonempty (s : string) (delim : ascii) :
  s <> EmptyString -> exists entry rest, split s delim = entry :: rest.
Proof.
  intros Hs. destruct s as [|c s]; [congruence|].
  unfold split.
  destruct (split_entries (String c s) delim EmptyString) as [|e r] eqn:H.
  - exfalso. exact (@split_entries_nonempty _ _ _ H).
  - eauto.
Qed.

Lemma keep_emitting_named (acc acc' : list State) (s : State) :
  keep_emitting acc s = Ok acc' -> Forall named acc -> Forall named acc'.
Proof.
  unfold keep_emitting. intros H Hacc.
  assert (Hs : forall tag, role_tag (name s) = Ok tag ->
                           tag <> EmptyString -> named s).
  { intros tag Htag Hne Hn. rewrite Hn, role_tag_empty in Htag.
    congruence. }
  destruct (role_tag (name s)) as [tag| | |] eqn:Htag; simpl in H;
    try discriminate.
  destruct (String.eqb_spec tag "M") as [HM|_].
  - injection H as <-. apply Forall_app; split; [assumption|].
    constructor; [|constructor]. apply (Hs tag eq_refl). subst; discriminate.
  - destruct (String.eqb_spec tag "I") as [HI|_].
    + injection H as <-. apply Forall_app; split; [assumption|].
      constructor; [|constructor]. apply (Hs tag eq_refl). subst; discriminate.
    + injection H as <-. assumption.
Qed.

Lemma filter_emitting_named (statePath acc emitting : list State) :
  filter_emitting statePath acc = Ok emitting ->
  Forall named acc -> Forall named emitting.
Proof.
  revert acc. induction statePath as [|s rest IH]; intros acc; simpl.
  - intros H; injection H as <-. auto.
  - intros H Hacc. apply bind_inv_Ok in H. destruct H as [acc' [H1 H2]].
    apply (IH acc'); [assumption|].
    eapply keep_emitting_named; eassumption.
Qed.

(** The filtering loop never fails: it keeps the states that [emits]
    holds of, in their order. *)
Lemma filter_emitting_filter (statePath acc : list State) :
  filter_emitting statePath acc = Ok (acc ++ filter emits statePath).
Proof.
  revert acc. induction statePath as [|s rest IH]; intros acc; simpl.
  - rewrite app_nil_r. reflexivity.
  - unfold keep_emitting, emits.
    destruct (role_tag_total (name s)) as [tag Htag]. rewrite Htag.
    cbn [bind].
    destruct (String.eqb tag "M"); cbn [bind orb].
    + rewrite IH, <- app_assoc. reflexivity.
    + destruct (String.eqb tag "I"); cbn [bind].
      * rewrite IH, <- app_assoc. reflexivity.
      * apply IH.
Qed.

Section Pooling.
Variable trainArgs : Arguments.
Variable events : list double.
Variable emitting : list State.

Lemma pool_event_in_range (i : Z) (pile : pileup) :
  Forall named emitting ->
  0 <= i < Z.of_nat (List.length emitting) ->
  0 <= i < Z.of_nat (List.length events) ->
  exists pile', pool_event trainArgs events emitting i pile = Ok pile'.
Proof.
  intros Hnamed Hi He. unfold pool_event.
  destruct (@vget_in_range _ emitting i Hi) as [s Hs]. rewrite Hs. cbn [bind].
  assert (Hn : named s).
  { unfold vget in Hs. destruct (i <? 0); [discriminate|].
    destruct (nth_error emitting (Z.to_nat i)) eqn:Hnth; [|discriminate].
    injection Hs as <-. rewrite Forall_forall in Hnamed.
    apply Hnamed. eapply nth_error_In; eassumption. }
  destruct (@split_nonempty (name s) "_" Hn) as [entry [rest Hsplit]].
  rewrite Hsplit. cbn [vget Z.ltb Z.compare Z.to_nat nth_error bind].
  destruct (_ && _); [|eauto].
  destruct (@vget_in_range _ events i He) as [e He']. rewrite He'. cbn [bind].
  eauto.
Qed.

Lemma pool_event_out_of_range (i : Z) (pile : pileup) :
  Z.of_nat (List.length emitting) <= i ->
  pool_event trainArgs events emitting i pile = Undefined.
Proof.
  intros Hi. unfold pool_event. rewrite vget_out_of_range by assumption.
  reflexivity.
Qed.

Lemma pool_rounds_in_range (k : nat) (pile : pileup) :
  Forall named emitting ->
  (k <= List.length emitting)%nat -> (k <= List.length events)%nat ->
  exists pile',
    foldM (pool_event trainArgs events emitting) (upto k) pile = Ok pile'.
Proof.
  intros Hnamed. induction k as [|k IH]; intros Hk He; [simpl; eauto|].
  destruct IH as [pile1 H1]; [lia|lia|].
  rewrite upto_S, foldM_app, H1. cbn [bind foldM].
  destruct (@pool_event_in_range (Z.of_nat k) pile1) as [pile2 H2];
    [assumption|lia|lia|].
  rewrite H2. cbn [bind]. eauto.
Qed.

End Pooling.

Lemma upto_split (m n : nat) :
  (m < n)%nat ->
  upto n = upto m ++ Z.of_nat m :: map Z.of_nat (seq (S m) (n - S m)).
Proof.
  intros H. unfold upto.
  replace n with (m + S (n - S m))%nat at 1 by lia.
  rewrite seq_app, map_app. reflexivity.
Qed.

Lemma for_uint_invariant {St : Type} (P : St -> Prop)
    (body : Z -> St -> result St) :
  (forall i s s', body i s = Ok s' -> P s -> P s') ->
  forall (fuel : nat) (i bound : Z) (s s' : St),
    for_uint fuel i bound body s = Ok s' -> P s -> P s'.
Proof.
  intros Hbody. induction fuel as [|fuel IH]; intros i bound s s'; simpl;
    destruct (i <? bound); try discriminate;
    try (intros H; injection H as <-; auto).
  intros H Hs. apply bind_inv_Ok in H. destruct H as [s1 [H1 H2]].
  apply (IH _ _ _ _ H2). apply (Hbody _ _ _ H1 Hs).
Qed.

Lemma push_back_at_keys (m : pileup) (k : Z) (e : double) (k' : Z) :
  In k' (keys (push_back_at m k e)) -> k' = k \/ In k' (keys m).
Proof.
  induction m as [|[k1 v] m IH]; simpl.
  - intros [Hk|[]]; auto.
  - destruct (Z.ltb_spec k k1); simpl.
    + intros [Hk|[Hk|Hk]]; auto.
    + destruct (Z.eqb_spec k k1); simpl.
      * intros [Hk|Hk]; auto.
      * intros [Hk|Hk]; auto. destruct (IH Hk); auto.
Qed.

Lemma to_uint_of_int (z : Z) :
  - INT_MAX - 1 <= z <= INT_MAX ->
  to_uint z = if z <? 0 then z + 4294967296 else z.
Proof.
  unfold INT_MAX, to_uint. intros H. destruct (Z.ltb_spec z 0).
  - symmetry. apply (Z.mod_unique z 4294967296 (-1)); lia.
  - apply Z.mod_small. lia.
Qed.

Lemma to_uint_range (z : Z) : 0 <= to_uint z <= UINT_MAX.
Proof.
  unfold to_uint, UINT_MAX.
  pose proof (Z.mod_pos_bound z 4294967296). lia.
Qed.

Lemma to_int_of_uint (z : Z) :
  0 <= z <= UINT_MAX ->
  to_int z = if z <=? INT_MAX then z else z - 4294967296.
Proof.
  unfold UINT_MAX, INT_MAX, to_int. intros H.
  destruct (Z.leb_spec z 2147483647).
  - rewrite Z.mod_small by lia. lia.
  - rewrite <- (Z.mod_unique (z + 2147483648) 4294967296 1
                  (z - 2147483648)) by lia. lia.
Qed.

Section Bounds.
Context {E : Externals}.
Variable trainArgs : Arguments.

Lemma guard_in_bounds (pos : Z) :
  bounds_admissible trainArgs -> 0 <= pos <= UINT_MAX ->
  (to_uint (boundLower trainArgs) <=? pos)
  && (pos <? to_uint (boundUpper trainArgs)) = true ->
  in_bounds trainArgs (to_int pos).
Proof.
  intros [HL [HU Hs]] Hpos Hg. apply andb_true_iff in Hg.
  destruct Hg as [H1 H2]. apply Z.leb_le in H1. apply Z.ltb_lt in H2.
  rewrite to_uint_of_int in H1, H2 by assumption.
  rewrite to_int_of_uint by assumption. unfold in_bounds.
  unfold UINT_MAX, INT_MAX in *.
  destruct (Z.ltb_spec (boundLower trainArgs) 0),
           (Z.ltb_spec (boundUpper trainArgs) 0),
           (Z.leb_spec pos 2147483647); lia.
Qed.

Lemma pool_event_keys (events : list double) (emitting : list State)
    (i : Z) (pile pile' : pileup) :
  bounds_admissible trainArgs ->
  pool_event trainArgs events emitting i pile = Ok pile' ->
  Forall (in_bounds trainArgs) (keys pile) ->
  Forall (in_bounds trainArgs) (keys pile').
Proof.
  intros Hb H Hpile. unfold pool_event in H.
  apply bind_inv_Ok in H. destruct H as [s [_ H]].
  apply bind_inv_Ok in H. destruct H as [entry [_ H]].
  destruct (_ && _) eqn:Hg.
  - apply bind_inv_Ok in H. destruct H as [e [_ H]]. injection H as <-.
    apply Forall_forall. intros k Hk.
    destruct (push_back_at_keys _ _ _ _ Hk) as [-> | Hin].
    + apply guard_in_bounds; [assumption|apply to_uint_range|assumption].
    + rewrite Forall_forall in Hpile. auto.
  - injection H as <-. assumption.
Qed.

Lemma pool_events_keys (fuel : nat) (events : list double)
    (emitting : list State) (pile pile' : pileup) :
  bounds_admissible trainArgs ->
  pool_events fuel trainArgs events emitting pile = Ok pile' ->
  Forall (in_bounds trainArgs) (keys pile) ->
  Forall (in_bounds trainArgs) (keys pile').
Proof.
  intros Hb. unfold pool_events.
  apply (@for_uint_invariant _
           (fun p => Forall (in_bounds trainArgs) (keys p))).
  intros i s s' Hs. eapply pool_event_keys; eassumption.
Qed.

Lemma process_read_keys (fuel : nat) (reference : string) (currentRead : read)
    (st st' : train_state) (a : option alignment) :
  bounds_admissible trainArgs ->
  process_read fuel trainArgs reference currentRead st = Ok (st', a) ->
  Forall (in_bounds trainArgs) (keys (eventPileup st)) ->
  Forall (in_bounds trainArgs) (keys (eventPileup st')).
Proof.
  intros Hb H Hst. unfold process_read in H.
  destruct (Binary64.gtb _ _).
  - injection H as <- _. assumption.
  - repeat (apply bind_inv_Ok in H; destruct H as [? [? H]]).
    injection H as <- _. cbn [eventPileup].
    eapply pool_events_keys; eassumption.
Qed.

Lemma align_reads_keys (fuel : nat) (reference : string) (reads : list read) :
  bounds_admissible trainArgs ->
  forall st st' : train_state,
    align_reads fuel trainArgs reference reads st = Ok st' ->
    Forall (in_bounds trainArgs) (keys (eventPileup st)) ->
    Forall (in_bounds trainArgs) (keys (eventPileup st')).
Proof.
  intros Hb. induction reads as [|r reads IH]; intros st st'; simpl.
  - intros H; injection H as <-. auto.
  - intros H Hst. apply bind_inv_Ok in H. destruct H as [[st1 a] [H1 H2]].
    apply (IH _ _ H2). eapply process_read_keys; eassumption.
Qed.

End Bounds.

(** C8.  A read whose normalised quality score is greater than 1.0 in
    magnitude is left out before anything is built for it: whatever the
    fuel, the body of the loop ends with the pile and the progress count
    as they were, and with no graph, no decoded path and no emitting
    states. *)
Theorem low_quality_read_discarded {E : Externals} (fuel : nat)
    (trainArgs : Arguments) (reference : string) (currentRead : read)
    (st : train_state) :
  Binary64.gtb
    (Binary64.fabs (qualityScore (normaliseEvents currentRead)))
    Binary64.one = true ->
  process_read fuel trainArgs reference currentRead st = Ok (st, None).
Proof.
  intros Hq. unfold process_read. rewrite Hq. reflexivity.
Qed.

(** A read of quality -2.0, with no fuel at all. *)
Lemma low_quality_read_discarded_witness :
  let currentRead :=
    {| basecalls := "ACGTACG"; ROIbounds := (0, 7);
       raw := [S754_finite true 4503599627370496 (-51)] |} in
  let st := {| eventPileup := [(3, [Binary64.one])]; prog := 4 |} in
  @process_read example_externals 0 {| boundLower := 0; boundUpper := 7 |}
    "ACGTACG" currentRead st
  = Ok (st, None).
Proof.
  intros currentRead st.
  apply (@low_quality_read_discarded example_externals).
  reflexivity.
Defined.

(** C9.  The pooling loop reads [emittingStatePath[i]] for every index
    [i] of an observation.  The emitting states being those the filtering
    loop keeps of a decoded path, the pooling loop stays inside the vector
    exactly when there are at least as many emitting states as
    observations; with fewer, it reads past the end, which nothing in the
    loop checks. *)
Theorem pool_events_in_bounds (fuel : nat)
    (trainArgs : Arguments) (events : list double)
    (statePath : list State) (pile : pileup) :
  Z.of_nat (List.length events) <= UINT_MAX ->
  (List.length events <= fuel)%nat ->
  exists emittingStatePath,
    filter_emitting statePath [] = Ok emittingStatePath
    /\ ((List.length events <= List.length emittingStatePath)%nat ->
        exists pile',
          pool_events fuel trainArgs events emittingStatePath pile
          = Ok pile')
    /\ ((List.length emittingStatePath < List.length events)%nat ->
        pool_events fuel trainArgs events emittingStatePath pile
        = Undefined).
Proof.
  intros Hmax Hfuel.
  exists (filter emits statePath).
  assert (Hfilter : filter_emitting statePath [] = Ok (filter emits statePath))
    by apply filter_emitting_filter.
  split; [assumption|].
  assert (Hnamed : Forall named (filter emits statePath)).
  { eapply filter_emitting_named; [eassumption|constructor]. }
  unfold pool_events.
  rewrite for_uint_upto by lia. rewrite Nat2Z.id.
  split; intros Hlen.
  - apply pool_rounds_in_range; [assumption|lia|lia].
  - rewrite (upto_split Hlen), foldM_app.
    destruct (@pool_rounds_in_range trainArgs events (filter emits statePath)
                (List.length (filter emits statePath)) pile Hnamed)
      as [pile1 H1]; [lia|lia|].
    rewrite H1. cbn [bind foldM].
    rewrite pool_event_out_of_range by lia. reflexivity.
Qed.

(** A path of three states, two of them emitting, against one and
    against three observations. *)
Lemma pool_events_in_bounds_witness :
  let trainArgs := {| boundLower := 0; boundUpper := 9 |} in
  let statePath :=
    [ @module_state example_externals "ACGTAC" 4 SS 0;
      @module_state example_externals "ACGTAC" 4 M1 0;
      @module_state example_externals "ACGTAC" 4 I 0 ] in
  let e := Binary64.one in
  filter_emitting statePath [] = Ok (tl statePath)
  /\ (exists pile', pool_events 1 trainArgs [e] (tl statePath) [] = Ok pile')
  /\ pool_events 3 trainArgs [e; e; e] (tl statePath) [] = Undefined.
Proof.
  intros trainArgs statePath e.
  split; [reflexivity|]. split.
  - destruct (@pool_events_in_bounds 1 trainArgs [e] statePath [])
      as [emitting [Hf [Hin _]]];
      [vm_compute; discriminate|simpl; lia|].
    assert (Heq : emitting = tl statePath)
      by (vm_compute in Hf; injection Hf as <-; reflexivity).
    subst emitting. apply Hin. simpl. lia.
  - destruct (@pool_events_in_bounds 3 trainArgs [e; e; e] statePath [])
      as [emitting [Hf [_ Hout]]];
      [vm_compute; discriminate|simpl; lia|].
    assert (Heq : emitting = tl statePath)
      by (vm_compute in Hf; injection Hf as <-; reflexivity).
    subst emitting. apply Hout. simpl. lia.
Defined.

(** The pile keeps its keys between the bounds, read after read, when
    the upper bound is not negative (or the lower one is negative,
    too). *)
Theorem event_pool_keys_in_bounds {E : Externals} (fuel : nat)
    (trainArgs : Arguments) (reference : string) (reads : list read)
    (st st' : train_state) :
  bounds_admissible trainArgs ->
  align_reads fuel trainArgs reference reads st = Ok st' ->
  Forall (in_bounds trainArgs) (keys (eventPileup st)) ->
  Forall (in_bounds trainArgs) (keys (eventPileup st')).
Proof. intros Hb. apply align_reads_keys. assumption. Qed.

(** C10.  With the bounds [0] and [-1] of option [-b], the event of a
    read aligned at position 0 is put on the pile: the comparison of the
    [unsigned int] position with the [int] upper bound is made in
    [unsigned int], where [-1] is [UINT_MAX].  The key 0 is not in
    [0, -1). *)
Theorem negative_upper_bound_pools :
  let trainArgs := {| boundLower := 0; boundUpper := -1 |} in
  let currentRead :=
    {| basecalls := "ACGTAC"; ROIbounds := (0, 6);
       raw := [Binary64.half] |} in
  @align_reads example_externals 1 trainArgs "ACGTAC" [currentRead]
    {| eventPileup := []; prog := 0 |}
  = Ok {| eventPileup := [(0, [Binary64.half])]; prog := 1 |}
  /\ ~ in_bounds trainArgs 0.
Proof.
  split; [vm_compute; reflexivity|].
  unfold in_bounds; simpl. lia.
Qed.

(* ================================================================== *)
(** * The mixture fit and the rows of the output file *)
(* ================================================================== *)

Lemma string_app_assoc (a b c : string) :
  ((a ++ b) ++ c = a ++ (b ++ c))%string.
Proof. induction a as [|x a IH]; simpl; [reflexivity|now rewrite IH]. Qed.

Section Fit.
Context {E : Externals}.
Variable reference : string.

Lemma write_row_line (os fiveMer : string) (mu1 stdv1 : double)
    (p0 p1 p2 p3 p4 p5 : double) :
  write_row os fiveMer mu1 stdv1 p0 p1 p2 p3 p4 p5
  = (os ++ line (row_fields fiveMer mu1 stdv1 p0 p1 p2 p3 p4 p5))%string.
Proof.
  unfold write_row, put, put_double, line, row_fields.
  cbn [String.concat]. rewrite !string_app_assoc. reflexivity.
Qed.

Lemma write_header_line (os : string) :
  write_header os = (os ++ line header_fields)%string.
Proof.
  unfold write_header, put, line, header_fields.
  cbn [String.concat]. rewrite !string_app_assoc. reflexivity.
Qed.

Lemma vget_six (v : list double) (i : Z) :
  List.length v = 6%nat -> 0 <= i < 6 ->
  vget v i = Ok (nth (Z.to_nat i) v S754_nan).
Proof.
  intros Hlen Hi. unfold vget. destruct (Z.ltb_spec i 0); [lia|].
  destruct (nth_error v (Z.to_nat i)) eqn:Hn.
  - rewrite (nth_error_nth _ _ _ Hn). reflexivity.
  - apply nth_error_None in Hn. lia.
Qed.

Lemma fit_position_settled (entry : Z * list double) (io : streams) :
  fit_settles reference entry ->
  exists io',
    fit_position reference entry io = Ok io'
    /\ outFile io'
       = (outFile io
          ++ if fit_succeeds reference entry then row_of reference entry
             else EmptyString)%string.
Proof.
  intros [Hpos [Href Hfit]]. unfold fit_position, substr.
  rewrite to_size_small by (unfold INT_MAX in Hpos; lia).
  destruct (Z.ltb_spec (size reference) (fst entry)); [lia|]. cbn [bind].
  fold (fiveMer_of reference (fst entry)).
  fold (model_of reference (fst entry)).
  cbv zeta. fold (fit_of reference entry). unfold fit_succeeds, row_of.
  destruct Hfit as [Hneg | [v [Hv Hlen]]].
  - rewrite Hneg. eexists; split; [reflexivity|].
    cbn [outFile]. clear. induction (outFile io); simpl; congruence.
  - rewrite Hv.
    rewrite !(vget_six _ Hlen) by lia. cbn [bind].
    eexists; split; [reflexivity|].
    cbn [outFile]. apply write_row_line.
Qed.

Lemma fit_positions_settled (pile : pileup) :
  Forall (fit_settles reference) pile ->
  forall io : streams,
  exists io',
    fit_positions reference pile io = Ok io'
    /\ outFile io'
       = (outFile io
          ++ rows_text (map (row_of reference)
                          (filter (fit_succeeds reference) pile)))%string.
Proof.
  induction pile as [|entry pile IH]; intros Hall io; simpl.
  - eexists; split; [reflexivity|].
    induction (outFile io); simpl; congruence.
  - inversion Hall as [|? ? Hentry Hrest]; subst.
    destruct (fit_position_settled io Hentry) as [io1 [H1 Hout1]].
    rewrite H1. cbn [bind].
    destruct (IH Hrest io1) as [io2 [H2 Hout2]].
    exists io2. split; [assumption|].
    rewrite Hout2, Hout1.
    destruct (fit_succeeds reference entry); simpl.
    + apply string_app_assoc.
    + rewrite string_app_assoc. reflexivity.
Qed.

End Fit.

(** C6.  Over a pile whose positions lie on the reference and whose fits
    either succeed with six parameters or fail with [NegativeLog], the
    loop over the pile runs to its end, and the output file grows by the
    complete rows of the positions whose fit succeeded, one row each in
    the order of the positions, and by nothing for the others. *)
Theorem degenerate_fit_writes_no_row {E : Externals} (reference : string)
    (pile : pileup) (io : streams) :
  Forall (fit_settles reference) pile ->
  exists io',
    fit_positions reference pile io = Ok io'
    /\ outFile io'
       = (outFile io
          ++ rows_text (map (row_of reference)
                          (filter (fit_succeeds reference) pile)))%string.
Proof. intros H. apply fit_positions_settled. assumption. Qed.

(** Two positions, the first with no event at all: only the row of the
    second is written. *)
Lemma degenerate_fit_writes_no_row_witness :
  let pile := [(0, []); (1, [Binary64.half])] in
  let io := {| outFile := "header"; cout := EmptyString |} in
  exists io',
    @fit_positions example_externals "ACGTACG" pile io = Ok io'
    /\ outFile io'
       = ("header"
          ++ @row_of example_externals "ACGTACG" (1, [Binary64.half]))%string.
Proof.
  intros pile io.
  destruct (@degenerate_fit_writes_no_row example_externals "ACGTACG"
              pile io) as [io' [H1 H2]].
  - apply Forall_cons; [|apply Forall_cons; [|apply Forall_nil]].
    + split; [cbn [fst]; unfold INT_MAX; lia|].
      split; [vm_compute; discriminate|]. left. reflexivity.
    + split; [cbn [fst]; unfold INT_MAX; lia|].
      split; [vm_compute; discriminate|].
      right. eexists. split; reflexivity.
  - exists io'. split; [exact H1|].
    rewrite H2. vm_compute. reflexivity.
Defined.

(** The row of a position is one line of nine tab-separated fields: the
    k-mer, the mean and the deviation of the pore model, and the six
    parameters of the fit in their order, each printed as it is. *)
Lemma row_is_nine_fields {E : Externals} (os fiveMer : string)
    (mu1 stdv1 p0 p1 p2 p3 p4 p5 : double) :
  write_row os fiveMer mu1 stdv1 p0 p1 p2 p3 p4 p5
  = (os ++ line [ fiveMer; show_double mu1; show_double stdv1;
                  show_double p0; show_double p1; show_double p2;
                  show_double p3; show_double p4; show_double p5 ])%string.
Proof. apply write_row_line. Qed.

(** C7.  The header row is one line of nine names, but the sixth
    (over the deviation of the first component) is the name of the ninth
    and the eighth (over the mean of the second component) is the name
    of the fifth: the names are not those of nine different columns. *)
Theorem header_names_repeat :
  write_header EmptyString = line header_fields
  /\ List.length header_fields = 9%nat
  /\ nth 5 header_fields EmptyString = nth 8 header_fields EmptyString
  /\ nth 7 header_fields EmptyString = nth 4 header_fields EmptyString
  /\ ~ NoDup header_fields.
Proof.
  split; [reflexivity|]. split; [reflexivity|].
  split; [reflexivity|]. split; [reflexivity|].
  intros H. rewrite (NoDup_nth header_fields EmptyString) in H.
  assert (Heq : 5%nat = 8%nat) by (apply H; simpl; try lia; reflexivity).
  discriminate Heq.
Qed.

(** The whole of [train_main] on one read of two events over the seven
    bases ACGTACG: both events align to position 0, and the output file
    is the header row followed by the row of that position. *)
Example train_main_one_read :
  let currentRead :=
    {| basecalls := "ACGTACG"; ROIbounds := (0, 7);
       raw := [Binary64.half; Binary64.half] |} in
  @train_main example_externals 2 {| boundLower := 0; boundUpper := 7 |}
    "ACGTACG" [currentRead]
  = Ok {| outFile :=
            (line header_fields
             ++ @row_of example_externals "ACGTACG"
                  (0, [Binary64.half; Binary64.half]))%string;
          cout := EmptyString |}.
Proof. vm_compute. reflexivity. Qed.

(* ================================================================== *)
(** * Log-space arithmetic on binary64, whatever the C library *)
(* ================================================================== *)

(** X2.  On binary64, [lnProd] does not depend on the order of its
    operands, and its result is the sentinel exactly when an operand is
    the sentinel or the operands are the two infinities (a product of
    zero and infinity in linear space). *)
Theorem lnProd_symmetric (c_exp c_log : Binary64.double -> Binary64.double)
    (a b : Binary64.double) :
  let A := Binary64.arith c_exp c_log in
  lnProd a b = lnProd b a
  /\ Binary64.is_nan (lnProd a b)
     = Binary64.is_nan a || Binary64.is_nan b || opposite_infinities a b.
Proof.
  intros A. subst A. unfold lnProd. binary64_ops.
  destruct (Binary64.is_nan a) eqn:Ha; destruct (Binary64.is_nan b) eqn:Hb;
    cbn [orb]; try (split; reflexivity).
  split; [apply add_comm|]. apply add_nan; assumption.
Qed.

(** X4.  On binary64, [lnQuot] throws [DivideByZero] exactly when the
    divisor is the sentinel, also for a sentinel dividend; otherwise it
    returns, and its result is the sentinel exactly when the dividend is
    the sentinel or the operands are the same infinity; a number that
    is not an infinity divided by itself gives [0.0], the logarithm of
    one. *)
Theorem lnQuot_cases (c_exp c_log : Binary64.double -> Binary64.double)
    (a b : Binary64.double) :
  let A := Binary64.arith c_exp c_log in
  (Binary64.is_nan b = true -> lnQuot a b = Throw DivideByZero)
  /\ (Binary64.is_nan b = false ->
      exists q, lnQuot a b = Ok q
                /\ Binary64.is_nan q
                   = Binary64.is_nan a || same_infinity a b)
  /\ (Binary64.is_nan a = false -> same_infinity a a = false ->
      lnQuot a a = Ok Binary64.zero).
Proof.
  intros A. subst A. unfold lnQuot. binary64_ops.
  split; [|split].
  - intros Hb. rewrite Hb. reflexivity.
  - intros Hb. rewrite Hb.
    destruct (Binary64.is_nan a) eqn:Ha.
    + eexists. split; reflexivity.
    + eexists. split; [reflexivity|]. apply sub_nan; assumption.
  - intros Ha Hi. rewrite Ha. rewrite sub_self by assumption. reflexivity.
Qed.

Lemma rank_eq (a b : Binary64.double) :
  Binary64.is_nan a = false -> Binary64.is_nan b = false ->
  Binary64.gtb a b = false -> Binary64.gtb b a = false ->
  Binary64.eqb a b = true.
Proof.
  intros Ha Hb. unfold Binary64.gtb, Binary64.eqb, SFltb, SFeqb.
  destruct a as [sa|sa| |sa ma ea]; try discriminate;
  destruct b as [sb|sb| |sb mb eb]; try discriminate;
  try destruct sa; try destruct sb; simpl; try congruence.
  - destruct (Z.compare_spec eb ea) as [He|He|He];
      destruct (Z.compare_spec ea eb) as [He'|He'|He']; try lia;
      try congruence.
    rewrite !Pos.compare_cont_spec. simpl.
    destruct (Pos.compare_spec mb ma) as [Hm|Hm|Hm];
      destruct (Pos.compare_spec ma mb) as [Hm'|Hm'|Hm']; simpl;
      try lia; congruence.
  - destruct (Z.compare_spec eb ea) as [He|He|He];
      destruct (Z.compare_spec ea eb) as [He'|He'|He']; try lia;
      try congruence.
    rewrite !Pos.compare_cont_spec. simpl.
    destruct (Pos.compare_spec mb ma) as [Hm|Hm|Hm];
      destruct (Pos.compare_spec ma mb) as [Hm'|Hm'|Hm']; simpl;
      try lia; congruence.
Qed.

Lemma gtb_asym (a b : Binary64.double) :
  Binary64.gtb a b = true -> Binary64.gtb b a = false.
Proof.
  unfold Binary64.gtb, SFltb.
  destruct a as [sa|sa| |sa ma ea];
  destruct b as [sb|sb| |sb mb eb];
  try destruct sa; try destruct sb; simpl; try congruence.
  - destruct (Z.compare_spec eb ea) as [He|He|He];
      destruct (Z.compare_spec ea eb) as [He'|He'|He']; try lia;
      try congruence.
    rewrite !Pos.compare_cont_spec. simpl.
    destruct (Pos.compare_spec mb ma) as [Hm|Hm|Hm];
      destruct (Pos.compare_spec ma mb) as [Hm'|Hm'|Hm']; simpl;
      try lia; congruence.
  - destruct (Z.compare_spec eb ea) as [He|He|He];
      destruct (Z.compare_spec ea eb) as [He'|He'|He']; try lia;
      try congruence.
    rewrite !Pos.compare_cont_spec. simpl.
    destruct (Pos.compare_spec mb ma) as [Hm|Hm|Hm];
      destruct (Pos.compare_spec ma mb) as [Hm'|Hm'|Hm']; simpl;
      try lia; congruence.
Qed.

(** X6.  On binary64, whatever the C library, [lnSum] gives the same
    result (value or exception) for its operands in either order,
    sentinel operands included; the one exception the code allows is a
    pair of zeros of different sign. *)
Theorem lnSum_commutes (c_exp c_log : Binary64.double -> Binary64.double)
    (a b : Binary64.double) :
  let A := Binary64.arith c_exp c_log in
  (Binary64.eqb a b = true -> a = b) ->
  lnSum a b = lnSum b a.
Proof.
  intros A Hz. subst A. unfold lnSum. binary64_ops.
  destruct (Binary64.is_nan a) eqn:Ha; destruct (Binary64.is_nan b) eqn:Hb;
    try reflexivity.
  cbn [orb].
  destruct (Binary64.gtb a b) eqn:Hab.
  - rewrite (@gtb_asym a b Hab). reflexivity.
  - destruct (Binary64.gtb b a) eqn:Hba; [reflexivity|].
    rewrite (Hz (@rank_eq a b Ha Hb Hab Hba)). reflexivity.
Qed.

(** [lnSum] at 0.5 and 1.0, in the two orders. *)
Lemma lnSum_commutes_witness :
  let A := Binary64.arith sample_exp sample_log in
  lnSum Binary64.half Binary64.one = lnSum Binary64.one Binary64.half.
Proof.
  intros A.
  apply (@lnSum_commutes sample_exp sample_log Binary64.half Binary64.one).
  discriminate.
Defined.

Lemma gtb_rank (a b : Binary64.double) :
  Binary64.is_nan a = false -> Binary64.is_nan b = false ->
  (Binary64.gtb a b = true <-> rank_lt (rank b) (rank a)).
Proof.
  intros Ha Hb. unfold Binary64.gtb, SFltb.
  destruct a as [sa|sa| |sa ma ea]; try discriminate;
  destruct b as [sb|sb| |sb mb eb]; try discriminate;
  try destruct sa; try destruct sb; simpl;
  try (split; [discriminate | intros H; exfalso; lia]);
  try (split; [intros _; lia | reflexivity]).
  - destruct (Z.compare_spec eb ea) as [He|He|He].
    + subst. rewrite Pos.compare_cont_spec. simpl.
      destruct (Pos.compare_spec mb ma) as [Hm|Hm|Hm]; simpl;
        (split; [try discriminate; intros _; lia
                | try reflexivity; intros H; exfalso; lia]).
    + split; [discriminate | intros H; exfalso; lia].
    + split; [intros _; lia | reflexivity].
  - destruct (Z.compare_spec eb ea) as [He|He|He].
    + subst. rewrite Pos.compare_cont_spec. simpl.
      destruct (Pos.compare_spec mb ma) as [Hm|Hm|Hm]; simpl;
        (split; [try discriminate; intros _; lia
                | try reflexivity; intros H; exfalso; lia]).
    + split; [intros _; lia | reflexivity].
    + split; [discriminate | intros H; exfalso; lia].
Qed.

Lemma rank_lt_irrefl (a : Z * Z * Z) : ~ rank_lt a a.
Proof. destruct a as [[a1 a2] a3]. unfold rank_lt. lia. Qed.

Lemma rank_lt_trans (a b c : Z * Z * Z) :
  rank_lt a b -> rank_lt b c -> rank_lt a c.
Proof.
  destruct a as [[a1 a2] a3], b as [[b1 b2] b3], c as [[c1 c2] c3].
  unfold rank_lt. lia.
Qed.

(** X7.  On binary64, whatever the C library, [lnGreaterThan] is a strict
    order: nothing is greater than itself, two values are never each
    greater than the other, and greater than greater is greater. *)
Theorem lnGreaterThan_strict_order
    (c_exp c_log : Binary64.double -> Binary64.double) :
  let A := Binary64.arith c_exp c_log in
  (forall a : Binary64.double, lnGreaterThan a a = false)
  /\ (forall a b : Binary64.double,
        lnGreaterThan a b = true -> lnGreaterThan b a = false)
  /\ (forall a b c : Binary64.double,
        lnGreaterThan a b = true -> lnGreaterThan b c = true ->
        lnGreaterThan a c = true).
Proof.
  intros A.
  assert (Hchar : forall a b : Binary64.double,
            lnGreaterThan a b = true
            <-> Binary64.is_nan a = false
                /\ (Binary64.is_nan b = true
                    \/ rank_lt (rank b) (rank a))).
  { intros a b. rewrite lnGreaterThan_cases. simpl.
    destruct (Binary64.is_nan a) eqn:Ha.
    - split; [discriminate|]. intros [H _]; discriminate.
    - destruct (Binary64.is_nan b) eqn:Hb.
      + split; auto.
      + rewrite gtb_rank by assumption.
        split; [auto|]. intros [_ [H|H]]; [discriminate|assumption]. }
  split; [|split].
  - intros a. apply not_true_is_false. rewrite Hchar.
    intros [Ha [H|H]]; [congruence|]. exact (@rank_lt_irrefl _ H).
  - intros a b Hab. apply not_true_is_false. rewrite Hchar.
    rewrite Hchar in Hab. destruct Hab as [Ha [Hb|Hlt]].
    + intros [Hb' _]. congruence.
    + intros [_ [Ha'|Hlt']]; [congruence|].
      exact (@rank_lt_irrefl _ (@rank_lt_trans _ _ _ Hlt Hlt')).
  - intros a b c Hab Hbc. rewrite Hchar in *.
    destruct Hab as [Ha [Hb|Hlt]], Hbc as [Hb' Hc]; try congruence.
    split; [assumption|].
    destruct Hc as [Hc|Hlt']; [left; assumption|].
    right. exact (@rank_lt_trans _ _ _ Hlt' Hlt).
Qed.

(** The order at 0.5, 1.0 and the sentinel. *)
Lemma lnGreaterThan_strict_order_witness :
  let A := Binary64.arith (fun _ => Binary64.one) (fun _ => Binary64.zero) in
  lnGreaterThan Binary64.half Binary64.one = false
  /\ lnGreaterThan Binary64.one S754_nan = true.
Proof.
  intros A.
  destruct (lnGreaterThan_strict_order
              (fun _ => Binary64.one) (fun _ => Binary64.zero))
    as [_ [Hasym Htrans]].
  split.
  - apply Hasym. reflexivity.
  - apply (Htrans Binary64.one Binary64.half S754_nan); reflexivity.
Defined.

(* ================================================================== *)
(** * The position in the name of a state *)
(* ================================================================== *)

Lemma string_of_uint_digits (d : Decimal.uint) :
  all_digits (NilEmpty.string_of_uint d).
Proof.
  induction d; cbn; [exact Logic.I | split; [discriminate|assumption] ..].
Qed.

Lemma string_of_uint_length (d : Decimal.uint) :
  String.length (NilEmpty.string_of_uint d) = Decimal.nb_digits d.
Proof. induction d; simpl; congruence. Qed.

(** Reading the digits of a numeral continues an accumulator as
    [Pos.of_uint_acc] does. *)
Lemma digits_value_acc (d : Decimal.uint) (r : string) :
  forall acc : positive,
    digits_value (NilEmpty.string_of_uint d ++ r) (Zpos acc)
    = digits_value r (Zpos (Pos.of_uint_acc d acc)).
Proof.
  induction d; intros acc; cbn [NilEmpty.string_of_uint append digits_value
                                 Pos.of_uint_acc];
    try reflexivity.
  all: match goal with
       | |- context [digit_of ?c] =>
           let v := eval compute in (digit_of c) in
           change (digit_of c) with v; cbv iota
       end.
  all: match goal with
    | |- digits_value _ ?x = digits_value _ (Zpos (Pos.of_uint_acc _ ?p)) =>
        replace x with (Zpos p) by lia; apply IHd
    end.
Qed.

Lemma digits_value_uint (d : Decimal.uint) (r : string) :
  digits_value (NilEmpty.string_of_uint d ++ r) 0
  = digits_value r (Z.of_N (Pos.of_uint d)).
Proof.
  induction d;
    cbn [NilEmpty.string_of_uint append digits_value Pos.of_uint];
    try reflexivity.
  all: match goal with
       | |- context [digit_of ?c] =>
           let v := eval compute in (digit_of c) in
           change (digit_of c) with v; cbv iota
       end.
  all: try (change (10 * 0 + 0) with 0; assumption).
  all: match goal with
    | |- digits_value _ ?x = _ =>
        let p := eval compute in (Z.to_pos x) in
        change x with (Zpos p); apply digits_value_acc
    end.
Qed.

Lemma digits_value_stops (c : ascii) (r : string) (acc : Z) :
  digit_of c = None -> digits_value (String c r) acc = acc.
Proof. intros H. simpl. rewrite H. reflexivity. Qed.

Lemma string_app_nil (s : string) : (s ++ EmptyString)%string = s.
Proof. induction s as [|c s IH]; simpl; congruence. Qed.

(** [to_string] writes the digits of a numeral that reads back as the
    number. *)
Lemma to_string_uint (z : Z) :
  0 <= z ->
  exists d, to_string z = NilEmpty.string_of_uint d
            /\ d <> Decimal.Nil
            /\ Decimal.unorm d = d
            /\ Z.of_N (Pos.of_uint d) = z.
Proof.
  intros Hz. exists (N.to_uint (Z.to_N z)).
  assert (Hne : N.to_uint (Z.to_N z) <> Decimal.Nil).
  { destruct (Z.to_N z); simpl; [discriminate|].
    apply DecimalPos.Unsigned.to_uint_nonnil. }
  split; [|split; [assumption|split]].
  - unfold to_string, NilZero.string_of_uint.
    destruct (N.to_uint (Z.to_N z)); congruence.
  - rewrite <- (DecimalN.Unsigned.to_of (N.to_uint (Z.to_N z))).
    unfold N.of_uint. f_equal.
    change (Pos.of_uint (N.to_uint (Z.to_N z)))
      with (N.of_uint (N.to_uint (Z.to_N z))).
    rewrite DecimalN.Unsigned.of_to. reflexivity.
  - change (Pos.of_uint (N.to_uint (Z.to_N z)))
      with (N.of_uint (N.to_uint (Z.to_N z))).
    rewrite DecimalN.Unsigned.of_to. lia.
Qed.

Lemma digit_head (c : ascii) (s : string) :
  digit_of c <> None ->
  atoi (String c s) = to_int (digits_value (String c s) 0)
  /\ Ascii.eqb c "_" = false.
Proof.
  intros H.
  destruct c as [[] [] [] [] [] [] [] []];
    try (exfalso; apply H; reflexivity); split; reflexivity.
Qed.

Lemma atoi_to_string (z : Z) (r : string) :
  0 <= z ->
  match r with EmptyString => True | String c _ => digit_of c = None end ->
  atoi (to_string z ++ r) = to_int z.
Proof.
  intros Hz Hr.
  destruct (to_string_uint Hz) as [d [Hs [Hne [_ Hv]]]].
  pose proof (string_of_uint_digits d) as Hd.
  assert (Hval : digits_value (to_string z ++ r) 0 = z).
  { rewrite Hs, digits_value_uint, Hv.
    destruct r as [|c r]; [reflexivity|]. apply digits_value_stops.
    assumption. }
  rewrite <- Hval at 2. rewrite Hs in *.
  destruct (NilEmpty.string_of_uint d) as [|c s] eqn:Hstr.
  - destruct d; try discriminate Hstr. congruence.
  - simpl in Hd. destruct Hd as [Hc _].
    exact (proj1 (@digit_head c (s ++ r)%string Hc)).
Qed.

(** The value of a numeral and the number of its digits. *)
Lemma of_uint_acc_lower (d : Decimal.uint) :
  forall acc : positive,
    Zpos acc * 10 ^ Z.of_nat (Decimal.nb_digits d)
    <= Zpos (Pos.of_uint_acc d acc).
Proof.
  induction d; intros acc;
    cbn [Decimal.nb_digits Pos.of_uint_acc];
    rewrite ?Nat2Z.inj_succ, ?Z.pow_succ_r by lia;
    try (simpl; lia);
    match goal with
    | |- _ <= Zpos (Pos.of_uint_acc _ ?p) =>
        specialize (IHd p);
        assert (10 * Zpos acc <= Zpos p) by lia;
        assert (0 <= 10 ^ Z.of_nat (Decimal.nb_digits d))
          by (apply Z.pow_nonneg; lia);
        nia
    end.
Qed.

Lemma unorm_D0_inv (l : Decimal.uint) :
  Decimal.unorm (Decimal.D0 l) = Decimal.D0 l -> l = Decimal.Nil.
Proof.
  rewrite DecimalFacts.unorm_D0. unfold Decimal.unorm.
  destruct (Decimal.nzhead l) eqn:Hn; intros H; try discriminate H.
  - injection H as <-. reflexivity.
  - exfalso. exact (DecimalFacts.nzhead_nonzero l _ Hn).
Qed.

Lemma nb_digits_bound (d : Decimal.uint) (m : Z) :
  d <> Decimal.Nil -> Decimal.unorm d = d -> 1 <= m ->
  Z.of_N (Pos.of_uint d) < 10 ^ m ->
  Z.of_nat (Decimal.nb_digits d) <= m.
Proof.
  intros Hne Hnorm Hm Hv.
  destruct d; try congruence;
    [ apply unorm_D0_inv in Hnorm; subst; simpl; lia | .. ].
  all: cbn [Pos.of_uint Decimal.nb_digits Z.of_N] in *.
  all: rewrite Nat2Z.inj_succ.
  all: match goal with
       | H : Zpos (Pos.of_uint_acc ?l ?p) < _ |- _ =>
           pose proof (of_uint_acc_lower l p) as Hlow;
           assert (Hpow : 10 ^ Z.of_nat (Decimal.nb_digits l) < 10 ^ m)
             by (assert (0 < 10 ^ Z.of_nat (Decimal.nb_digits l))
                   by (apply Z.pow_pos_nonneg; lia); nia);
           apply Z.pow_lt_mono_r_iff in Hpow; lia
       end.
Qed.

Lemma to_string_length (z : Z) :
  0 <= z <= UINT_MAX -> (String.length (to_string z) <= 10)%nat.
Proof.
  intros Hz. destruct (@to_string_uint z) as [d [Hs [Hne [Hn Hv]]]]; [lia|].
  rewrite Hs, string_of_uint_length.
  assert (Z.of_nat (Decimal.nb_digits d) <= 10); [|lia].
  apply nb_digits_bound; try assumption; [lia|].
  rewrite Hv. unfold UINT_MAX in Hz. lia.
Qed.

Lemma split_entries_digits (s r entry : string) :
  all_digits s ->
  split_entries (s ++ String "_" r) "_" entry
  = (entry ++ s)%string
    :: match r with
       | EmptyString => []
       | _ => split_entries r "_" EmptyString
       end.
Proof.
  revert entry. induction s as [|c s IH]; intros entry Hs.
  - simpl. rewrite string_app_nil. reflexivity.
  - destruct Hs as [Hc Hs].
    cbn [append split_entries].
    rewrite (proj2 (@digit_head c EmptyString Hc)).
    rewrite IH by assumption. rewrite string_app_assoc. reflexivity.
Qed.

Lemma find_digits (s r : string) :
  all_digits s ->
  find (s ++ String "_" r) "_" = Some (Z.of_nat (String.length s)).
Proof.
  intros Hs. unfold find.
  assert (H : index 0 (String "_" EmptyString) (s ++ String "_" r)
              = Some (String.length s)); [|rewrite H; reflexivity].
  induction s as [|c s IH].
  - simpl. destruct (ascii_dec "_" "_") as [_|N]; [|congruence].
    destruct r; reflexivity.
  - destruct Hs as [Hc Hs]. cbn [append index prefix].
    destruct (ascii_dec "_" c) as [<-|_].
    + exfalso. apply Hc. reflexivity.
    + rewrite IH by assumption. reflexivity.
Qed.

Lemma substring_after (s r : string) (x c : ascii) :
  substring (S (String.length s)) 1 (s ++ String x (String c r))
  = String c EmptyString.
Proof.
  induction s as [|y s IH]; simpl; [|assumption].
  destruct r; reflexivity.
Qed.

Lemma string_app_length (s r : string) :
  String.length (s ++ r) = (String.length s + String.length r)%nat.
Proof. induction s as [|c s IH]; simpl; congruence. Qed.

(** The tag of a name made of digits, the separator and a role. *)
Lemma role_tag_digits (s r : string) (c : ascii) :
  all_digits s -> (String.length s <= 10)%nat ->
  role_tag (s ++ String "_" (String c r)) = Ok (String c EmptyString).
Proof.
  intros Hs Hlen. unfold role_tag. rewrite find_digits by assumption.
  rewrite to_size_small by lia.
  unfold substr, size. rewrite string_app_length. cbn [String.length].
  destruct (Z.ltb_spec
              (Z.of_nat (String.length s + S (S (String.length r))))
              (Z.of_nat (String.length s) + 1)); [lia|].
  rewrite Z.min_l by lia.
  replace (Z.to_nat (Z.of_nat (String.length s) + 1))
    with (S (String.length s)) by lia.
  change (Z.to_nat 1) with 1%nat.
  rewrite substring_after. reflexivity.
Qed.

Lemma to_uint_to_int (z : Z) : 0 <= z <= UINT_MAX -> to_uint (to_int z) = z.
Proof.
  intros Hz. rewrite to_int_of_uint by assumption.
  unfold UINT_MAX, INT_MAX in *.
  destruct (Z.leb_spec z 2147483647).
  - apply to_uint_small. unfold UINT_MAX. lia.
  - unfold to_uint.
    apply eq_sym, (Z.mod_unique (z - 4294967296) 4294967296 (-1)); lia.
Qed.

Lemma to_string_digits (z : Z) : 0 <= z -> all_digits (to_string z).
Proof.
  intros Hz. destruct (to_string_uint Hz) as [d [Hs _]].
  rewrite Hs. apply string_of_uint_digits.
Qed.

Section Names.
Context {E : Externals}.
Variable refSeqMapped : string.
Variable first : Z.

Lemma module_state_name (r : role) (i : Z) :
  exists c rest,
    name (module_state refSeqMapped first r i)
    = (loc_at first i ++ String "_" (String c rest))%string
    /\ String c EmptyString
       = match r with
         | SS | SE => "S" | D => "D" | I => "I" | M1 | M2 => "M"
         end%string.
Proof.
  destruct r; do 2 eexists; split; reflexivity.
Qed.

Lemma state_name_position (r : role) (i : Z) :
  exists entry,
    vget (split (name (module_state refSeqMapped first r i)) "_") 0 = Ok entry
    /\ to_uint (atoi entry) = to_uint (i + first).
Proof.
  exists (loc_at first i).
  pose proof (to_uint_range (i + first)) as Hr.
  assert (Hd : all_digits (loc_at first i))
    by (apply to_string_digits; lia).
  destruct (module_state_name r i) as [c [rest [Hn _]]]. rewrite Hn.
  split.
  - unfold split.
    destruct (loc_at first i ++ String "_" (String c rest))%string eqn:Hs.
    + destruct (loc_at first i); discriminate.
    + rewrite <- Hs, split_entries_digits by assumption. reflexivity.
  - unfold loc_at.
    rewrite <- (string_app_nil (to_string (to_uint (i + first)))).
    rewrite atoi_to_string by (lia || exact Logic.I).
    apply to_uint_to_int. assumption.
Qed.

(** The states kept as emitting are those of the roles I, M1, M2. *)
Lemma emits_module_state (r : role) (i : Z) :
  emits (module_state refSeqMapped first r i)
  = match r with I | M1 | M2 => true | SS | D | SE => false end.
Proof.
  pose proof (to_uint_range (i + first)) as Hr.
  destruct (module_state_name r i) as [c [rest [Hn Hc]]].
  unfold emits. rewrite Hn, role_tag_digits.
  - rewrite Hc. destruct r; reflexivity.
  - apply to_string_digits; lia.
  - apply to_string_length. assumption.
Qed.

(** X8.  The name [train_main] gives to a state of the graph starts
    with the position of its module on the reference; cutting the name at
    the first ['_'] and reading the first entry with [atoi], as the
    pooling loop does, gives that position back (as an [unsigned int]),
    whatever the role of the state. *)
Theorem position_of_state_name (r : role) (i : Z) :
  exists entry,
    vget (split (name (module_state refSeqMapped first r i)) "_") 0 = Ok entry
    /\ to_uint (atoi entry) = to_uint (i + first).
Proof. apply state_name_position. Qed.

End Names.

Lemma foldM_combine {A B St : Type} (body : Z -> St -> result St)
    (step : St -> A * B -> St) :
  forall (la : list A) (lb : list B) (off : nat) (s : St),
    (forall k a b s',
        nth_error la k = Some a -> nth_error lb k = Some b ->
        body (Z.of_nat (off + k)) s' = Ok (step s' (a, b))) ->
    (List.length la <= List.length lb)%nat ->
    foldM body (map Z.of_nat (seq off (List.length la))) s
    = Ok (fold_left step (combine la lb) s).
Proof.
  induction la as [|a la IH]; intros lb off s Hbody Hlen; [reflexivity|].
  destruct lb as [|b lb]; [simpl in Hlen; lia|].
  cbn [List.length seq map foldM combine fold_left].
  rewrite <- (Nat.add_0_r off) at 1.
  rewrite (Hbody 0%nat a b s eq_refl eq_refl). cbn [bind].
  apply IH; [|simpl in Hlen; lia].
  intros k a' b' s' Ha Hb.
  replace (S off + k)%nat with (off + S k)%nat by lia.
  apply Hbody; assumption.
Qed.

Section PoolPath.
Context {E : Externals}.
Variable refSeqMapped : string.
Variable first : Z.
Variable trainArgs : Arguments.

Lemma pool_event_module (events : list double) (emitting : list State)
    (k : Z) (r : role) (i : Z) (e : double) (pile : pileup) :
  0 <= boundLower trainArgs <= INT_MAX ->
  0 <= boundUpper trainArgs <= INT_MAX ->
  0 <= i + first <= INT_MAX ->
  vget emitting k = Ok (module_state refSeqMapped first r i) ->
  vget events k = Ok e ->
  pool_event trainArgs events emitting k pile
  = Ok (if (boundLower trainArgs <=? i + first)
           && (i + first <? boundUpper trainArgs)
        then push_back_at pile (i + first) e else pile).
Proof.
  intros HL HU Hp Hs He. unfold pool_event. rewrite Hs. cbn [bind].
  destruct (state_name_position refSeqMapped first r i)
    as [entry [Hentry Hpos]].
  rewrite Hentry. cbn [bind]. cbv zeta. rewrite Hpos.
  unfold INT_MAX in *.
  rewrite !to_uint_small by (unfold UINT_MAX; lia).
  destruct (_ && _); [|reflexivity].
  rewrite He. cbn [bind]. rewrite to_int_small by (unfold INT_MAX; lia).
  reflexivity.
Qed.

(** X9.  When the emitting path is made of states of the graph, the
    pooling loop puts the k-th event under the reference position of the
    k-th state of the path, if that position lies between the two bounds
    of the command line, and drops it otherwise; events are taken in
    order, and states of the path beyond the last event are not used. *)
Theorem pool_events_aligned (fuel : nat) (events : list double)
    (path : list (role * Z)) (pile : pileup) :
  0 <= boundLower trainArgs <= INT_MAX ->
  0 <= boundUpper trainArgs <= INT_MAX ->
  Forall (fun x => 0 <= snd x + first <= INT_MAX) path ->
  (List.length events <= List.length path)%nat ->
  Z.of_nat (List.length events) <= UINT_MAX ->
  (List.length events <= fuel)%nat ->
  pool_events fuel trainArgs events
    (map (fun x => module_state refSeqMapped first (fst x) (snd x)) path) pile
  = Ok (pool_aligned trainArgs first (combine events path) pile).
Proof.
  intros HL HU Hpath Hlen Hmax Hfuel. unfold pool_events.
  rewrite for_uint_upto by lia. rewrite Nat2Z.id. unfold upto.
  unfold pool_aligned.
  apply foldM_combine; [|assumption].
  intros k e [r i] s' He Hx. cbn [Nat.add fst snd].
  apply pool_event_module with (r := r); try assumption.
  - rewrite Forall_forall in Hpath.
    apply (Hpath (r, i)). eapply nth_error_In; eassumption.
  - apply vget_nth. rewrite nth_error_map, Hx. reflexivity.
  - apply vget_nth. assumption.
Qed.

End PoolPath.

(** Two events on a match and an insertion state of position 4. *)
Lemma pool_events_aligned_witness :
  let trainArgs := {| boundLower := 0; boundUpper := 9 |} in
  pool_events 2 trainArgs [Binary64.one; Binary64.half]
    [ @module_state example_externals "ACGTAC" 4 M1 0;
      @module_state example_externals "ACGTAC" 4 I 0 ] []
  = Ok [(4, [Binary64.one; Binary64.half])].
Proof.
  intros trainArgs.
  apply (@pool_events_aligned example_externals "ACGTAC" 4 trainArgs 2
           [Binary64.one; Binary64.half] [(M1, 0); (I, 0)] []).
  - cbn. unfold INT_MAX. lia.
  - cbn. unfold INT_MAX. lia.
  - apply Forall_cons; [cbn; unfold INT_MAX; lia|].
    apply Forall_cons; [cbn; unfold INT_MAX; lia|]. apply Forall_nil.
  - simpl. lia.
  - simpl. unfold UINT_MAX. lia.
  - simpl. lia.
Defined.

(* ================================================================== *)
(** * The pile of events as a map *)
(* ================================================================== *)

Lemma events_at_below (m : pileup) (k : Z) :
  Forall (fun k' => k < k') (keys m) -> events_at m k = [].
Proof.
  unfold events_at. induction m as [|[k1 v] m IH]; intros H; [reflexivity|].
  inversion H as [|? ? H1 H2]; subst. simpl in *.
  destruct (Z.eqb_spec k1 k); [lia|]. apply IH. assumption.
Qed.

Lemma push_back_at_ascending (m : pileup) (k : Z) (e : double) :
  ascending m -> ascending (push_back_at m k e).
Proof.
  unfold ascending. induction m as [|[k1 v] m IH]; intros H; simpl.
  - repeat constructor.
  - inversion H as [|? ? Hs Hall]; subst.
    destruct (Z.ltb_spec k k1).
    + simpl. constructor; [assumption|].
      constructor; [assumption|].
      eapply Forall_impl; [|eassumption]. simpl. intros; lia.
    + destruct (Z.eqb_spec k k1).
      * simpl. constructor; assumption.
      * simpl. constructor; [apply IH; assumption|].
        apply Forall_forall. intros k' Hk'.
        destruct (push_back_at_keys _ _ _ _ Hk') as [-> | Hin]; [lia|].
        rewrite Forall_forall in Hall. auto.
Qed.

Lemma events_at_push_back (m : pileup) (k : Z) (e : double) (k' : Z) :
  ascending m ->
  events_at (push_back_at m k e) k'
  = if k' =? k then events_at m k ++ [e] else events_at m k'.
Proof.
  unfold ascending. induction m as [|[k1 v] m IH]; intros H.
  - unfold events_at. simpl. rewrite Z.eqb_sym.
    destruct (k' =? k); reflexivity.
  - inversion H as [|? ? Hs Hall]; subst. simpl.
    destruct (Z.ltb_spec k k1).
    + assert (Hk : events_at ((k1, v) :: m) k = []).
      { apply events_at_below. simpl. constructor; [assumption|].
        eapply Forall_impl; [|eassumption]. simpl. intros; lia. }
      rewrite Hk. unfold events_at at 1. cbn [List.find fst snd].
      rewrite Z.eqb_sym. destruct (k' =? k); reflexivity.
    + destruct (Z.eqb_spec k k1) as [->|Hne].
      * unfold events_at. cbn [List.find fst snd].
        rewrite Z.eqb_refl.
        destruct (Z.eqb_spec k1 k') as [->|Hn].
        -- rewrite Z.eqb_refl. reflexivity.
        -- destruct (Z.eqb_spec k' k1); [congruence|reflexivity].
      * specialize (IH Hs). unfold events_at in *. cbn [List.find fst snd].
        destruct (Z.eqb_spec k1 k') as [->|Hn].
        -- destruct (Z.eqb_spec k' k); [congruence|].
           reflexivity.
        -- destruct (Z.eqb_spec k1 k); [congruence|]. exact IH.
Qed.

(** What pooling keeps: a property of the pile that every
    [push_back_at] keeps is kept by the loops that pool. *)
Section PileInvariant.
Context {E : Externals}.
Variable P : pileup -> Prop.
Hypothesis P_push : forall m k e, P m -> P (push_back_at m k e).

Lemma pool_event_keeps (trainArgs : Arguments) (events : list double)
    (emitting : list State) (i : Z) (pile pile' : pileup) :
  pool_event trainArgs events emitting i pile = Ok pile' -> P pile -> P pile'.
Proof.
  intros H Hp. unfold pool_event in H.
  apply bind_inv_Ok in H. destruct H as [s [_ H]].
  apply bind_inv_Ok in H. destruct H as [entry [_ H]].
  destruct (_ && _).
  - apply bind_inv_Ok in H. destruct H as [e [_ H]]. injection H as <-.
    apply P_push. assumption.
  - injection H as <-. assumption.
Qed.

Lemma process_read_keeps (fuel : nat) (trainArgs : Arguments)
    (reference : string) (currentRead : read) (st st' : train_state)
    (a : option alignment) :
  process_read fuel trainArgs reference currentRead st = Ok (st', a) ->
  P (eventPileup st) -> P (eventPileup st').
Proof.
  intros H Hst. unfold process_read in H.
  destruct (Binary64.gtb _ _).
  - injection H as <- _. assumption.
  - repeat (apply bind_inv_Ok in H; destruct H as [? [? H]]).
    injection H as <- _. cbn [eventPileup].
    match goal with
    | Hp : pool_events _ _ _ _ _ = Ok _ |- _ =>
        unfold pool_events in Hp; revert Hst; revert Hp
    end.
    apply (@for_uint_invariant _ P).
    intros i s s'. apply pool_event_keeps.
Qed.

Lemma align_reads_keeps (fuel : nat) (trainArgs : Arguments)
    (reference : string) (reads : list read) :
  forall st st' : train_state,
    align_reads fuel trainArgs reference reads st = Ok st' ->
    P (eventPileup st) -> P (eventPileup st').
Proof.
  induction reads as [|r reads IH]; intros st st'; simpl.
  - intros H; injection H as <-. auto.
  - intros H Hst. apply bind_inv_Ok in H. destruct H as [[st1 a] [H1 H2]].
    apply (IH _ _ H2). eapply process_read_keeps; eassumption.
Qed.

End PileInvariant.

(** X10.  The loop over the reads only adds to the pile: if the keys
    of the pile are in strictly ascending order before the loop, they are
    so after it, and under every key the events that were there are still
    there, in the same order, before the events the reads added. *)
Theorem event_pool_grows {E : Externals} (fuel : nat) (trainArgs : Arguments)
    (reference : string) (reads : list read) (st st' : train_state) :
  ascending (eventPileup st) ->
  align_reads fuel trainArgs reference reads st = Ok st' ->
  ascending (eventPileup st')
  /\ forall k, exists added,
       events_at (eventPileup st') k = events_at (eventPileup st) k ++ added.
Proof.
  intros Hasc H.
  apply (@align_reads_keeps E
           (fun m => ascending m
                     /\ forall k, exists added,
                          events_at m k
                          = events_at (eventPileup st) k ++ added))
    with (2 := H).
  - intros m k e [Hm Hpre]. split; [apply push_back_at_ascending; assumption|].
    intros k'. rewrite events_at_push_back by assumption.
    destruct (Z.eqb_spec k' k) as [->|_].
    + destruct (Hpre k) as [added Ha]. exists (added ++ [e]).
      rewrite Ha, app_assoc. reflexivity.
    + apply Hpre.
  - split; [assumption|]. intros k. exists []. rewrite app_nil_r. reflexivity.
Qed.

(** One read of two events, on a pile that has an event at position 0. *)
Lemma event_pool_grows_witness :
  let currentRead :=
    {| basecalls := "ACGTACG"; ROIbounds := (0, 7);
       raw := [Binary64.half; Binary64.half] |} in
  let st := {| eventPileup := [(0, [Binary64.one])]; prog := 0 |} in
  let st' := {| eventPileup :=
                  [(0, [Binary64.one; Binary64.half; Binary64.half])];
                prog := 1 |} in
  ascending (eventPileup st')
  /\ forall k, exists added,
       events_at (eventPileup st') k = events_at (eventPileup st) k ++ added.
Proof.
  intros currentRead st st'.
  apply (@event_pool_grows example_externals 2
           {| boundLower := 0; boundUpper := 7 |} "ACGTACG" [currentRead]
           st st').
  - apply SSorted_cons; [apply SSorted_nil | apply Forall_nil].
  - vm_compute. reflexivity.
Defined.

(* ================================================================== *)
(** * The edges of the graph construction *)
(* ================================================================== *)

Section GraphEdges.
Context {E : Externals}.
Variable refSeqMapped : string.
Variable first : Z.

(** The loop over the distributions either makes them all or leaves
    through [map::at] at a k-mer the table does not have. *)
Lemma make_distributions_outcome (n k : nat) :
  Z.of_nat n + 5 <= size refSeqMapped -> (k <= n)%nat ->
  (kmers_known refSeqMapped k
   /\ foldM (make_distribution refSeqMapped) (upto k) []
      = Ok (map (normal_at refSeqMapped) (upto k)))
  \/ ((exists i, 0 <= i < Z.of_nat k
                 /\ FiveMer_model (fiveMer_at refSeqMapped i) = None)
      /\ foldM (make_distribution refSeqMapped) (upto k) []
         = Throw out_of_range).
Proof.
  intros Hn. induction k as [|k IH]; intros Hk.
  - left. split; [intros i Hi; lia|reflexivity].
  - destruct IH as [[Hknown Hok] | [[i [Hi Hnone]] Hthrow]]; [lia| |].
    + rewrite upto_S, foldM_app, Hok. cbn [bind foldM].
      unfold make_distribution. rewrite substr_kmer by lia. cbn [bind].
      change (substring (Z.to_nat (Z.of_nat k)) 5 refSeqMapped)
        with (fiveMer_at refSeqMapped (Z.of_nat k)).
      destruct (FiveMer_model (fiveMer_at refSeqMapped (Z.of_nat k)))
        as [p|] eqn:Hf.
      * left. split.
        -- intros i Hi. destruct (Z.eq_dec i (Z.of_nat k)) as [->|Hne].
           ++ congruence.
           ++ apply Hknown. lia.
        -- cbn [bind]. rewrite map_app. cbn [map].
           assert (Hnd : normal_at refSeqMapped (Z.of_nat k)
                         = NormalDistribution (fst p) (snd p))
             by (unfold normal_at; rewrite Hf; reflexivity).
           rewrite Hnd. reflexivity.
      * right. split; [|reflexivity].
        exists (Z.of_nat k). split; [lia|assumption].
    + right. split.
      * exists i. split; [lia|assumption].
      * rewrite upto_S, foldM_app, Hthrow. reflexivity.
Qed.

(** X11.  If the pore model has no entry for one of the k-mers of the
    mapped region, the graph is not built: the loop that creates the
    normal distributions leaves through [map::at] with
    [std::out_of_range], which nothing in [train_main] catches. *)
Theorem build_hmm_unknown_kmer (fuel : nat) (i : Z) :
  6 <= size refSeqMapped -> size refSeqMapped - 5 <= UINT_MAX ->
  (Z.to_nat (size refSeqMapped - 5) <= fuel)%nat ->
  0 <= i < size refSeqMapped - 5 ->
  FiveMer_model (fiveMer_at refSeqMapped i) = None ->
  build_hmm fuel refSeqMapped first = Throw out_of_range.
Proof.
  intros H6 Hmax Hfuel Hi Hnone. unfold build_hmm.
  set (L := size refSeqMapped) in *.
  set (n := Z.to_nat (L - 5)) in *.
  destruct (Z.ltb_spec L 5) as [|_]; [lia|].
  unfold UINT_MAX in Hmax.
  rewrite !to_size_small by lia.
  rewrite for_uint_upto by (unfold UINT_MAX; lia). fold n.
  destruct (@make_distributions_outcome n n) as [[Hknown _] | [_ Hthrow]];
    [fold L; lia|lia| |].
  - exfalso. apply (Hknown i); [lia|assumption].
  - rewrite Hthrow. reflexivity.
Qed.

(** X12.  A mapped region of exactly five bases has no module at all:
    the loops over the modules do nothing, and the bound [length - 6] of
    the loop that links the modules wraps around, so that the loop reads
    [states[1][0]] of an empty vector; the behaviour is undefined. *)
Theorem build_hmm_five_bases (fuel : nat) :
  size refSeqMapped = 5 -> (1 <= fuel)%nat ->
  build_hmm fuel refSeqMapped first = Undefined.
Proof.
  intros H5 Hfuel. unfold build_hmm. rewrite H5.
  destruct fuel as [|fuel]; [lia|]. reflexivity.
Qed.

End GraphEdges.

(** The seven bases ACGTACG when the table has no entry for CGTAC. *)
Lemma build_hmm_unknown_kmer_witness :
  @build_hmm (example_with ["CGTAC"%string] NegativeLog) 2 "ACGTACG" 7
  = Throw out_of_range.
Proof.
  apply (@build_hmm_unknown_kmer (example_with ["CGTAC"%string] NegativeLog)
           "ACGTACG" 7 2 1).
  - vm_compute. discriminate.
  - vm_compute. discriminate.
  - vm_compute. lia.
  - vm_compute. split; [discriminate|reflexivity].
  - reflexivity.
Defined.

Lemma build_hmm_five_bases_witness :
  @build_hmm example_externals 1 "ACGTA" 0 = Undefined.
Proof.
  apply (@build_hmm_five_bases example_externals "ACGTA" 0 1).
  - reflexivity.
  - lia.
Defined.

(* ================================================================== *)
(** * A read from its region of interest to the pile *)
(* ================================================================== *)

Lemma substring_length (s : string) :
  forall n m : nat,
    (n + m <= String.length s)%nat -> String.length (substring n m s) = m.
Proof.
  induction s as [|c s IH]; intros n m H; simpl in H.
  - assert (n = 0%nat) by lia. assert (m = 0%nat) by lia. subst. reflexivity.
  - destruct n as [|n]; destruct m as [|m]; simpl; try reflexivity.
    + rewrite IH by lia. reflexivity.
    + apply IH. lia.
    + apply IH. lia.
Qed.

Lemma mapped_region_size (reference : string) (first second : Z) :
  0 <= first <= second -> second <= size reference ->
  size (mapped_region reference first second) = second - first.
Proof.
  intros H1 H2. unfold size, mapped_region in *.
  rewrite substring_length by lia. lia.
Qed.

Lemma substr_region (reference : string) (first second : Z) :
  0 <= first <= second -> second <= size reference -> second <= INT_MAX ->
  substr reference (to_size first) (to_size (to_int (second - first)))
  = Ok (mapped_region reference first second).
Proof.
  intros H1 H2 H3. unfold INT_MAX in H3.
  rewrite to_int_small by (unfold INT_MAX; lia).
  rewrite !to_size_small by lia.
  unfold substr. destruct (Z.ltb_spec (size reference) first); [lia|].
  rewrite Z.min_l by lia. reflexivity.
Qed.

Section ReadPath.
Context {E : Externals}.

(** X13.  A read of acceptable quality whose region of interest lies
    inside the reference and has at least six bases, all of whose k-mers
    the pore model knows, is processed to the end: the graph given to the
    decoder is the graph of the region, the emitting path is the decoded
    path without its silent states, the pile is the one the pooling loop
    makes of the events and the emitting path, and the progress counter
    goes up by one. *)
Theorem process_read_aligns (fuel : nat) (trainArgs : Arguments)
    (reference : string) (currentRead : read) (st : train_state)
    (score : double) (statePath : list State) (pile' : pileup) :
  let first := fst (ROIbounds currentRead) in
  let second := snd (ROIbounds currentRead) in
  let eventData := normaliseEvents currentRead in
  let region := mapped_region reference first second in
  let hmm := module_graph region first (Z.to_nat (second - first - 5)) in
  Binary64.gtb (Binary64.fabs (qualityScore eventData)) Binary64.one = false ->
  0 <= first -> first + 6 <= second ->
  second <= size reference -> second <= INT_MAX ->
  (Z.to_nat (second - first - 5) <= fuel)%nat ->
  (forall i, 0 <= i < second - first - 5 ->
             FiveMer_model (fiveMer_at region i) <> None) ->
  viterbi hmm (normalisedEvents eventData) = Ok (score, statePath) ->
  pool_events fuel trainArgs (normalisedEvents eventData)
    (filter emits statePath) (eventPileup st) = Ok pile' ->
  process_read fuel trainArgs reference currentRead st
  = Ok ({| eventPileup := pile'; prog := to_int (prog st + 1) |},
        Some {| graph := hmm; statePath := statePath;
                emittingPath := filter emits statePath |}).
Proof.
  intros first second eventData region hmm Hq H0 H6 Href Hint Hfuel Hknown
         Hvit Hpool.
  unfold process_read. fold eventData. rewrite Hq.
  fold first. fold second.
  rewrite substr_region by lia. fold region. cbn [bind].
  assert (Hsize : size region = second - first)
    by (apply mapped_region_size; lia).
  rewrite build_hmm_modules; rewrite ?Hsize;
    try assumption; try (unfold UINT_MAX, INT_MAX in *; lia).
  - fold hmm. cbn [bind]. rewrite Hvit. cbn [bind snd].
    rewrite filter_emitting_filter. cbn [bind app].
    rewrite Hpool. reflexivity.
  - intros i Hi. apply Hknown. lia.
Qed.

(** X14.  A read of acceptable quality whose region of interest starts
    before the reference (a negative first bound, which becomes a huge
    [size_t]) or after its end makes [substr] throw
    [std::out_of_range]; the read is not skipped, the exception leaves
    the loop over the reads. *)
Theorem process_read_region_outside (fuel : nat) (trainArgs : Arguments)
    (reference : string) (currentRead : read) (st : train_state) :
  let first := fst (ROIbounds currentRead) in
  Binary64.gtb
    (Binary64.fabs (qualityScore (normaliseEvents currentRead)))
    Binary64.one = false ->
  - INT_MAX - 1 <= first <= INT_MAX ->
  size reference <= INT_MAX ->
  first < 0 \/ size reference < first ->
  process_read fuel trainArgs reference currentRead st = Throw out_of_range.
Proof.
  intros first Hq Hint Href Hout. unfold process_read. rewrite Hq.
  fold first. unfold substr.
  assert (Hbig : size reference < to_size first).
  { unfold to_size, INT_MAX in *. destruct Hout as [Hneg | Hpast].
    - assert (Hm : first + 18446744073709551616
                   = first mod 18446744073709551616).
      { apply Z.mod_unique with (q := -1); lia. }
      rewrite <- Hm. lia.
    - rewrite Z.mod_small by (unfold size in *; lia). assumption. }
  destruct (Z.ltb_spec (size reference) (to_size first)); [reflexivity|lia].
Qed.

End ReadPath.

(** The read of seven bases and two events, on the empty pile. *)
Lemma process_read_aligns_witness :
  let trainArgs := {| boundLower := 0; boundUpper := 7 |} in
  let currentRead :=
    {| basecalls := "ACGTACG"; ROIbounds := (0, 7);
       raw := [Binary64.half; Binary64.half] |} in
  let hmm := @module_graph example_externals "ACGTACG" 0 2 in
  @process_read example_externals 2 trainArgs "ACGTACG" currentRead
    {| eventPileup := []; prog := 0 |}
  = Ok ({| eventPileup := [(0, [Binary64.half; Binary64.half])];
           prog := 1 |},
        Some {| graph := hmm; statePath := states_of hmm;
                emittingPath := filter emits (states_of hmm) |}).
Proof.
  intros trainArgs currentRead hmm.
  pose proof (@process_read_aligns example_externals 2 trainArgs "ACGTACG"
                currentRead {| eventPileup := []; prog := 0 |}
                Binary64.zero (states_of hmm)
                [(0, [Binary64.half; Binary64.half])]) as H.
  cbv zeta in H. apply H.
  - reflexivity.
  - simpl. lia.
  - simpl. lia.
  - vm_compute. discriminate.
  - vm_compute. discriminate.
  - simpl. lia.
  - intros i Hi. simpl in Hi.
    assert (Hc : i = 0 \/ i = 1) by lia.
    destruct Hc as [-> | ->]; vm_compute; discriminate.
  - reflexivity.
  - vm_compute. reflexivity.
Defined.

(** A region that starts one base before the reference. *)
Lemma process_read_region_outside_witness :
  let currentRead :=
    {| basecalls := "ACGTACG"; ROIbounds := (-1, 6);
       raw := [Binary64.half] |} in
  @process_read example_externals 2 {| boundLower := 0; boundUpper := 7 |}
    "ACGTACG" currentRead {| eventPileup := []; prog := 0 |}
  = Throw out_of_range.
Proof.
  intros currentRead.
  pose proof (@process_read_region_outside example_externals 2
                {| boundLower := 0; boundUpper := 7 |} "ACGTACG"
                currentRead {| eventPileup := []; prog := 0 |}) as H.
  cbv zeta in H. apply H.
  - reflexivity.
  - simpl. unfold INT_MAX. lia.
  - vm_compute. discriminate.
  - left. simpl. lia.
Defined.

Section ShortRegion.
Context {E : Externals}.

(** X15.  A read of acceptable quality whose region of interest lies
    inside the reference but has fewer than five bases ends the run:
    the vector of [length - 5] states cannot be created, and
    [std::length_error] leaves [train_main]. *)
Theorem process_read_short_region (fuel : nat) (trainArgs : Arguments)
    (reference : string) (currentRead : read) (st : train_state) :
  let first := fst (ROIbounds currentRead) in
  let second := snd (ROIbounds currentRead) in
  Binary64.gtb
    (Binary64.fabs (qualityScore (normaliseEvents currentRead)))
    Binary64.one = false ->
  0 <= first <= second -> second <= size reference -> second <= INT_MAX ->
  second - first < 5 ->
  process_read fuel trainArgs reference currentRead st = Throw length_error.
Proof.
  intros first second Hq H1 H2 H3 H5. unfold process_read. rewrite Hq.
  fold first. fold second. rewrite substr_region by lia. cbn [bind].
  unfold build_hmm. rewrite mapped_region_size by lia.
  destruct (Z.ltb_spec (second - first) 5); [reflexivity|lia].
Qed.

(** X16.  When the second bound of a read is smaller than the first,
    the length given to [substr] is negative and becomes a huge
    [size_t]: the read is processed exactly as a read whose region of
    interest runs from its first bound to the end of the reference. *)
Theorem process_read_reversed_bounds (fuel : nat) (trainArgs : Arguments)
    (reference : string) (currentRead toEnd : read) (st : train_state) :
  let first := fst (ROIbounds currentRead) in
  let second := snd (ROIbounds currentRead) in
  0 <= first <= size reference -> size reference <= INT_MAX ->
  - INT_MAX - 1 <= second - first < 0 ->
  ROIbounds toEnd = (first, size reference) ->
  normaliseEvents toEnd = normaliseEvents currentRead ->
  process_read fuel trainArgs reference currentRead st
  = process_read fuel trainArgs reference toEnd st.
Proof.
  intros first second H1 H2 H3 Hb Hn. unfold process_read.
  rewrite Hn, Hb. cbn [fst snd]. fold first. fold second.
  assert (Hsub :
    substr reference (to_size first) (to_size (to_int (second - first)))
    = substr reference (to_size first)
        (to_size (to_int (size reference - first)))).
  { unfold INT_MAX in *.
    rewrite (@to_int_small (size reference - first))
      by (unfold INT_MAX; lia).
    assert (Hneg : to_int (second - first) = second - first).
    { unfold to_int.
      rewrite <- (Z.mod_unique (second - first + 2147483648) 4294967296 0
                    (second - first + 2147483648)) by lia. lia. }
    rewrite Hneg.
    assert (Hbig : to_size (second - first)
                   = second - first + 18446744073709551616).
    { unfold to_size. symmetry. apply Z.mod_unique with (q := -1); lia. }
    rewrite Hbig. rewrite !to_size_small by lia.
    unfold substr.
    destruct (Z.ltb_spec (size reference) first); [reflexivity|].
    rewrite Z.min_r by lia. rewrite Z.min_l by lia. reflexivity. }
  rewrite Hsub. reflexivity.
Qed.

End ShortRegion.

(** A region of four bases. *)
Lemma process_read_short_region_witness :
  let currentRead :=
    {| basecalls := "ACGTACG"; ROIbounds := (1, 5);
       raw := [Binary64.half] |} in
  @process_read example_externals 2 {| boundLower := 0; boundUpper := 7 |}
    "ACGTACG" currentRead {| eventPileup := []; prog := 0 |}
  = Throw length_error.
Proof.
  intros currentRead.
  pose proof (@process_read_short_region example_externals 2
                {| boundLower := 0; boundUpper := 7 |} "ACGTACG"
                currentRead {| eventPileup := []; prog := 0 |}) as H.
  cbv zeta in H. apply H.
  - reflexivity.
  - simpl. lia.
  - vm_compute. discriminate.
  - simpl. unfold INT_MAX. lia.
  - simpl. lia.
Defined.

(** The bounds 1 and 0 against the bounds 1 and 7 on seven bases. *)
Lemma process_read_reversed_bounds_witness :
  let trainArgs := {| boundLower := 0; boundUpper := 7 |} in
  let st := {| eventPileup := []; prog := 0 |} in
  @process_read example_externals 2 trainArgs "ACGTACG"
    {| basecalls := "ACGTACG"; ROIbounds := (1, 0);
       raw := [Binary64.half] |} st
  = @process_read example_externals 2 trainArgs "ACGTACG"
      {| basecalls := "ACGTACG"; ROIbounds := (1, 7);
         raw := [Binary64.half] |} st.
Proof.
  intros trainArgs st.
  pose proof (@process_read_reversed_bounds example_externals 2 trainArgs
                "ACGTACG"
                {| basecalls := "ACGTACG"; ROIbounds := (1, 0);
                   raw := [Binary64.half] |}
                {| basecalls := "ACGTACG"; ROIbounds := (1, 7);
                   raw := [Binary64.half] |} st) as H.
  cbv zeta in H. apply H.
  - vm_compute. split; discriminate.
  - vm_compute. discriminate.
  - simpl. unfold INT_MAX. lia.
  - reflexivity.
  - reflexivity.
Defined.

(* ================================================================== *)
(** * The two streams after the loop over the pile *)
(* ================================================================== *)

Section Report.
Context {E : Externals}.
Variable reference : string.

Lemma fit_position_streams (entry : Z * list double) (io : streams) :
  fit_settles reference entry ->
  fit_position reference entry io
  = Ok {| outFile := (outFile io
                      ++ if fit_succeeds reference entry
                         then row_of reference entry else "")%string;
          cout := (cout io
                   ++ if fit_succeeds reference entry
                      then "" else abort_message reference entry)%string |}.
Proof.
  intros [Hpos [Href Hfit]]. unfold fit_position, substr.
  rewrite to_size_small by (unfold INT_MAX in Hpos; lia).
  destruct (Z.ltb_spec (size reference) (fst entry)); [lia|]. cbn [bind].
  fold (fiveMer_of reference (fst entry)).
  fold (model_of reference (fst entry)).
  cbv zeta. fold (fit_of reference entry).
  unfold fit_succeeds, row_of, abort_message.
  destruct Hfit as [Hneg | [v [Hv Hlen]]].
  - rewrite Hneg. cbn [outFile cout]. rewrite string_app_nil.
    unfold put. rewrite !string_app_assoc. reflexivity.
  - rewrite Hv.
    rewrite !(vget_six _ Hlen) by lia. cbn [bind outFile cout].
    rewrite string_app_nil, write_row_line. reflexivity.
Qed.

Lemma fit_positions_streams (pile : pileup) :
  Forall (fit_settles reference) pile ->
  forall io : streams,
    fit_positions reference pile io
    = Ok {| outFile :=
              (outFile io
               ++ rows_text (map (row_of reference)
                               (filter (fit_succeeds reference) pile)))%string;
            cout :=
              (cout io
               ++ rows_text (map (abort_message reference)
                               (filter (fit_fails reference) pile)))%string |}.
Proof.
  induction pile as [|entry pile IH]; intros Hall io; simpl.
  - rewrite !string_app_nil. destruct io; reflexivity.
  - inversion Hall as [|? ? Hentry Hrest]; subst.
    rewrite (fit_position_streams io Hentry). cbn [bind].
    rewrite (IH Hrest). cbn [outFile cout]. unfold fit_fails at 2.
    destruct (fit_succeeds reference entry);
      cbn [negb map rows_text fold_right];
      rewrite ?string_app_nil, ?string_app_assoc; reflexivity.
Qed.

(** X17.  When the alignment of the reads succeeds and the fit of every
    position of the pile either returns its six parameters or fails with
    [NegativeLog], [train_main] ends normally.  The output file then
    holds the header row and one row for each position whose fit
    succeeded, in ascending order of the positions; and what the loop
    over the pile has written on the standard output is, for each
    position whose fit failed, the message of the exception and the line
    that names the k-mer training was aborted on, in the same order. *)
Theorem train_main_output (fuel : nat) (trainArgs : Arguments)
    (reads : list read) (st : train_state) :
  align_reads fuel trainArgs reference reads
    {| eventPileup := []; prog := 0 |} = Ok st ->
  Forall (fit_settles reference) (eventPileup st) ->
  train_main fuel trainArgs reference reads
  = Ok {| outFile :=
            (line header_fields
             ++ rows_text (map (row_of reference)
                             (filter (fit_succeeds reference)
                                (eventPileup st))))%string;
          cout := rows_text (map (abort_message reference)
                               (filter (fit_fails reference)
                                  (eventPileup st))) |}.
Proof.
  intros Hreads Hall. unfold train_main. rewrite Hreads. cbn [bind].
  rewrite (fit_positions_streams Hall). cbn [outFile cout].
  rewrite write_header_line. reflexivity.
Qed.

Lemma fit_position_throws (entry : Z * list double) (e : exn)
    (io : streams) :
  0 <= fst entry <= INT_MAX -> fst entry <= size reference ->
  fit_of reference entry = Throw e -> e <> NegativeLog ->
  fit_position reference entry io = Throw e.
Proof.
  intros Hpos Href Hfit He. unfold fit_position, substr.
  rewrite to_size_small by (unfold INT_MAX in Hpos; lia).
  destruct (Z.ltb_spec (size reference) (fst entry)); [lia|]. cbn [bind].
  fold (fiveMer_of reference (fst entry)).
  fold (model_of reference (fst entry)).
  cbv zeta. fold (fit_of reference entry). rewrite Hfit.
  destruct e; try reflexivity. congruence.
Qed.

(** X18.  Only [NegativeLog] is caught in the loop over the pile: when
    the fit of a position throws any other exception, the exception
    leaves the loop there.  When it does, the two streams hold what the
    positions before it have put there (a row for each fit that
    succeeded, the abort message for each that failed) and nothing
    else: the position of the exception and the positions after it get
    no row. *)
Theorem fit_positions_uncaught (settled rest : pileup)
    (entry : Z * list double) (e : exn) (io : streams) :
  Forall (fit_settles reference) settled ->
  0 <= fst entry <= INT_MAX -> fst entry <= size reference ->
  fit_of reference entry = Throw e -> e <> NegativeLog ->
  fit_positions reference (settled ++ entry :: rest) io = Throw e
  /\ fit_positions_run reference (settled ++ entry :: rest) io
     = ({| outFile :=
             (outFile io
              ++ rows_text (map (row_of reference)
                              (filter (fit_succeeds reference)
                                 settled)))%string;
           cout :=
             (cout io
              ++ rows_text (map (abort_message reference)
                              (filter (fit_fails reference)
                                 settled)))%string |},
        Throw e).
Proof.
  intros Hall Hpos Href Hfit He.
  pose proof (fun io => @fit_position_throws entry e io Hpos Href Hfit He)
    as Hthrow.
  split; revert io.
  - induction settled as [|s settled IH]; intros io; simpl.
    + rewrite Hthrow. reflexivity.
    + inversion Hall as [|? ? Hs Hrest]; subst.
      rewrite (fit_position_streams io Hs). cbn [bind]. apply IH.
      assumption.
  - induction settled as [|s settled IH]; intros io;
      cbn [app fit_positions_run].
    + rewrite Hthrow. cbn [filter map rows_text fold_right].
      rewrite !string_app_nil. destruct io; reflexivity.
    + inversion Hall as [|? ? Hs Hrest]; subst.
      rewrite (fit_position_streams io Hs).
      rewrite (IH Hrest). cbn [outFile cout filter]. unfold fit_fails at 2.
      destruct (fit_succeeds reference s);
        cbn [negb map rows_text fold_right];
        rewrite ?string_app_nil, ?string_app_assoc; reflexivity.
Qed.

End Report.

(** The read of seven bases and two events. *)
Lemma train_main_output_witness :
  let currentRead :=
    {| basecalls := "ACGTACG"; ROIbounds := (0, 7);
       raw := [Binary64.half; Binary64.half] |} in
  @train_main example_externals 2 {| boundLower := 0; boundUpper := 7 |}
    "ACGTACG" [currentRead]
  = Ok {| outFile :=
            (line header_fields
             ++ @row_of example_externals "ACGTACG"
                  (0, [Binary64.half; Binary64.half]))%string;
          cout := EmptyString |}.
Proof.
  intros currentRead.
  apply (@train_main_output example_externals "ACGTACG" 2
           {| boundLower := 0; boundUpper := 7 |} [currentRead]
           {| eventPileup := [(0, [Binary64.half; Binary64.half])];
              prog := 1 |}).
  - vm_compute. reflexivity.
  - apply Forall_cons; [|apply Forall_nil].
    split; [cbn [fst]; unfold INT_MAX; lia|].
    split; [vm_compute; discriminate|].
    right. eexists. split; reflexivity.
Defined.

(** A fit that divides by zero at the second of three positions. *)
Lemma fit_positions_uncaught_witness :
  let pile := [ (0, [Binary64.half]); (1, []); (2, [Binary64.half]) ] in
  let io := {| outFile := "header"; cout := EmptyString |} in
  @fit_positions (example_with [] DivideByZero) "ACGTACG" pile io
  = Throw DivideByZero
  /\ @fit_positions_run (example_with [] DivideByZero) "ACGTACG" pile io
     = ({| outFile :=
             ("header"
              ++ @row_of (example_with [] DivideByZero) "ACGTACG"
                   (0, [Binary64.half]))%string;
           cout := EmptyString |},
        Throw DivideByZero).
Proof.
  intros pile io.
  apply (@fit_positions_uncaught (example_with [] DivideByZero) "ACGTACG"
           [ (0, [Binary64.half]) ] [ (2, [Binary64.half]) ] (1, [])
           DivideByZero io).
  - apply Forall_cons; [|apply Forall_nil].
    split; [cbn [fst]; unfold INT_MAX; lia|].
    split; [vm_compute; discriminate|].
    right. eexists. split; reflexivity.
  - cbn [fst]. unfold INT_MAX. lia.
  - vm_compute. discriminate.
  - reflexivity.
  - discriminate.
Defined.

(* ================================================================== *)
(** * The bounds line of a read, read back *)
(* ================================================================== *)

Lemma find_space_digits (s r : string) :
  all_digits s ->
  find (s ++ String " " r) " " = Some (Z.of_nat (String.length s)).
Proof.
  intros Hs. unfold find.
  assert (H : index 0 (String " " EmptyString) (s ++ String " " r)
              = Some (String.length s)); [|rewrite H; reflexivity].
  induction s as [|c s IH].
  - simpl. destruct (ascii_dec " " " ") as [_|N]; [|congruence].
    destruct r; reflexivity.
  - destruct Hs as [Hc Hs]. cbn [append index prefix].
    destruct (ascii_dec " " c) as [<-|_].
    + exfalso. apply Hc. reflexivity.
    + rewrite IH by assumption. reflexivity.
Qed.

Lemma substring_prefix (s r : string) :
  substring 0 (String.length s) (s ++ r) = s.
Proof.
  induction s as [|c s IH]; simpl; [destruct r; reflexivity|].
  rewrite IH. reflexivity.
Qed.

Lemma substring_suffix (s r : string) :
  substring (String.length s) (String.length r) (s ++ r) = r.
Proof.
  induction s as [|c s IH]; simpl; [|assumption].
  induction r as [|c r IH]; simpl; congruence.
Qed.

Lemma substring_whole (s : string) : substring 0 (String.length s) s = s.
Proof. induction s as [|c s IH]; simpl; congruence. Qed.

Lemma atoi_digits_space (z : Z) (r : string) :
  0 <= z -> atoi (to_string z ++ String " " r) = to_int z.
Proof. intros Hz. apply atoi_to_string; [assumption | reflexivity]. Qed.

(** X19.  The bounds line of a record is read back: from a line made
    of two numbers that are not negative, in decimal, with one space
    between them, [train_main] takes these two numbers as the bounds of
    the read. *)
Theorem read_bounds_round_trip (first second : Z) :
  0 <= first <= INT_MAX -> 0 <= second <= INT_MAX ->
  read_bounds (to_string first ++ String " " (to_string second))
  = Ok (first, second).
Proof.
  intros H1 H2. unfold read_bounds, find_pos.
  pose proof (@to_string_digits first (proj1 H1)) as Hd.
  pose proof (@to_string_length first) as Hlen.
  assert (Hl : (String.length (to_string first) <= 10)%nat)
    by (apply Hlen; unfold UINT_MAX, INT_MAX in *; lia).
  assert (Hl2 : (String.length (to_string second) <= 10)%nat)
    by (apply to_string_length; unfold UINT_MAX, INT_MAX in *; lia).
  rewrite find_space_digits by assumption.
  set (a := to_string first) in *. set (b := to_string second) in *.
  assert (Hsize : size (a ++ String " " b)
                  = Z.of_nat (String.length a) + 1
                    + Z.of_nat (String.length b)).
  { unfold size. rewrite string_app_length. simpl. lia. }
  unfold substr. rewrite Hsize.
  destruct (Z.ltb_spec (Z.of_nat (String.length a) + 1
                        + Z.of_nat (String.length b)) 0); [lia|].
  cbn [bind].
  rewrite !to_size_small by lia.
  destruct (Z.ltb_spec (Z.of_nat (String.length a) + 1
                        + Z.of_nat (String.length b))
                       (Z.of_nat (String.length a) + 1)); [lia|].
  cbn [bind].
  replace (Z.to_nat (Z.min (Z.of_nat (String.length a))
             (Z.of_nat (String.length a) + 1 + Z.of_nat (String.length b)
              - 0)))
    with (String.length a) by lia.
  replace (Z.to_nat (Z.min
             (Z.of_nat (String.length a) + 1 + Z.of_nat (String.length b)
              - Z.of_nat (String.length a))
             (Z.of_nat (String.length a) + 1 + Z.of_nat (String.length b)
              - (Z.of_nat (String.length a) + 1))))
    with (String.length b) by lia.
  change (Z.to_nat 0) with 0%nat.
  rewrite substring_prefix.
  replace (Z.to_nat (Z.of_nat (String.length a) + 1))
    with (String.length (a ++ " "))%nat
    by (rewrite string_app_length; simpl; lia).
  replace (a ++ String " " b)%string with ((a ++ " ") ++ b)%string
    by (rewrite string_app_assoc; reflexivity).
  rewrite substring_suffix.
  subst a b.
  rewrite <- (string_app_nil (to_string first)).
  rewrite <- (string_app_nil (to_string second)).
  rewrite !atoi_to_string by (try exact Logic.I; lia).
  rewrite !to_int_small by lia. reflexivity.
Qed.




Lemma read_bounds_round_trip_witness :
  read_bounds "150 650" = Ok (150, 650).
Proof.
  apply (@read_bounds_round_trip 150 650); unfold INT_MAX; lia.
Defined.


(* ================================================================== *)
(** * The command line of [train], parsed *)
(* ================================================================== *)

Lemma skip_spaces_digit (c : ascii) (s : string) :
  digit_of c <> None ->
  skip_spaces (String c s) = String c s
  /\ c <> "-"%char /\ c <> "+"%char.
Proof.
  intros H.
  destruct c as [[] [] [] [] [] [] [] []];
    try (exfalso; apply H; reflexivity);
    (split; [reflexivity | split; discriminate]).
Qed.

Lemma stoi_to_string (z : Z) :
  0 <= z <= INT_MAX -> CommandLine.stoi (to_string z) = Returns z.
Proof.
  intros Hz.
  destruct (@to_string_uint z) as [d [Hs [Hne [_ Hv]]]]; [lia|].
  pose proof (string_of_uint_digits d) as Hd.
  assert (Hval : digits_value (to_string z) 0 = z).
  { rewrite Hs. rewrite <- (string_app_nil (NilEmpty.string_of_uint d)).
    rewrite digits_value_uint. simpl. assumption. }
  unfold CommandLine.stoi. rewrite Hs in *.
  destruct (NilEmpty.string_of_uint d) as [|c s] eqn:Hstr.
  - destruct d; try discriminate Hstr. congruence.
  - assert (Hc : digit_of c <> None) by exact (proj1 Hd).
    destruct (@skip_spaces_digit c s Hc) as [Hsk [Hm Hp]].
    rewrite Hsk.
    assert (Hsign :
      match String c s with
      | String "-"%char r => (true, r)
      | String "+"%char r => (false, r)
      | _ => (false, String c s)
      end = (false, String c s)).
    { destruct c as [[] [] [] [] [] [] [] []]; try reflexivity;
        congruence. }
    rewrite Hsign.
    destruct (digit_of c) eqn:Hdc; [|congruence].
    rewrite Hval.
    destruct (Z.leb_spec (- INT_MAX - 1) z); [|unfold INT_MAX in *; lia].
    destruct (Z.leb_spec z INT_MAX); [|lia]. reflexivity.
Qed.

Lemma parse_spelled (o : bool * CommandLine.setting) (rest : list string)
    (a : CommandLine.Arguments) :
  CommandLine.plain o ->
  CommandLine.parse_options (CommandLine.spelled o ++ rest) a
  = CommandLine.parse_options rest (CommandLine.apply_setting a o).
Proof.
  destruct o as [long [path | path | lower upper | n]];
    unfold CommandLine.plain, CommandLine.spelled,
           CommandLine.apply_setting; cbn [fst snd];
    intros Hp; destruct long; cbn [app CommandLine.parse_options];
    cbn [CommandLine.is_flag String.eqb Ascii.eqb Bool.eqb orb andb];
    try reflexivity.
  all: try (destruct Hp as [Hl Hu]; rewrite !stoi_to_string by assumption;
            reflexivity).
  all: rewrite stoi_to_string by assumption; reflexivity.
Qed.

Lemma parse_settings (opts : list (bool * CommandLine.setting))
    (rest : list string) :
  Forall CommandLine.plain opts ->
  forall a : CommandLine.Arguments,
    CommandLine.parse_options (flat_map CommandLine.spelled opts ++ rest) a
    = CommandLine.parse_options rest
        (fold_left CommandLine.apply_setting opts a).
Proof.
  induction opts as [|o opts IH]; intros Hall a; [reflexivity|].
  inversion Hall as [|? ? Ho Hrest]; subst.
  cbn [flat_map fold_left]. rewrite <- app_assoc.
  rewrite parse_spelled by assumption. apply IH. assumption.
Qed.

Lemma spelled_first (o : bool * CommandLine.setting) :
  exists flag values,
    CommandLine.spelled o = flag :: values
    /\ CommandLine.asks_help flag = false.
Proof.
  destruct o as [[] []]; cbn; eexists; eexists; split; reflexivity.
Qed.

Lemma parse_after_settings (opts : list (bool * CommandLine.setting))
    (rest : list string) (prog : string) :
  opts <> [] \/ (exists flag more, rest = flag :: more
                                   /\ CommandLine.asks_help flag = false) ->
  Forall CommandLine.plain opts ->
  CommandLine.parseTrainingArguments
    (prog :: flat_map CommandLine.spelled opts ++ rest)
  = CommandLine.parse_options rest
      (fold_left CommandLine.apply_setting opts CommandLine.defaults).
Proof.
  intros Hne Hall. rewrite <- parse_settings by assumption.
  unfold CommandLine.parseTrainingArguments.
  destruct opts as [|o opts].
  - destruct Hne as [Hne | [flag [more [Hr Hh]]]]; [congruence|].
    subst rest. cbn [flat_map app].
    unfold CommandLine.asks_help in Hh. rewrite Hh. reflexivity.
  - destruct (spelled_first o) as [flag [values [Hsp Hh]]].
    cbn [flat_map]. rewrite Hsp. cbn [app].
    unfold CommandLine.asks_help in Hh. rewrite Hh. reflexivity.
Qed.

(** X21.  A command line that spells settings one after the other, each
    with the short or the long name of its option and with numbers that
    are not negative, is parsed to the record these settings give when
    they are applied in order to the defaults (one thread, empty file
    names, bounds not assigned): the options can come in any order, and
    of an option given more than once the last one counts. *)
Theorem parseTrainingArguments_settings
    (opts : list (bool * CommandLine.setting)) (prog : string) :
  opts <> [] -> Forall CommandLine.plain opts ->
  CommandLine.parseTrainingArguments
    (prog :: flat_map CommandLine.spelled opts)
  = Returns (fold_left CommandLine.apply_setting opts CommandLine.defaults).
Proof.
  intros Hne Hall.
  rewrite <- (List.app_nil_r (flat_map CommandLine.spelled opts)).
  rewrite parse_after_settings; [reflexivity | left; assumption | assumption].
Qed.

(** X22.  An argument at the place of an option that is none of the
    eight option names makes the parser throw [InvalidOption] with that
    argument, whatever follows; this holds for [-h] and [--help] too
    when they are not the first argument. *)
Theorem parseTrainingArguments_unknown_option
    (opts : list (bool * CommandLine.setting)) (prog flag : string)
    (rest : list string) :
  Forall CommandLine.plain opts ->
  CommandLine.recognised flag = false ->
  (opts = [] -> CommandLine.asks_help flag = false) ->
  CommandLine.parseTrainingArguments
    (prog :: flat_map CommandLine.spelled opts ++ flag :: rest)
  = Raises (InvalidOption flag).
Proof.
  intros Hall Hflag Hhelp.
  rewrite parse_after_settings; try assumption.
  - cbn [CommandLine.parse_options].
    unfold CommandLine.recognised in Hflag.
    apply orb_false_iff in Hflag. destruct Hflag as [Hflag Ht].
    apply orb_false_iff in Hflag. destruct Hflag as [Hflag Hb].
    apply orb_false_iff in Hflag. destruct Hflag as [Hd Ho].
    rewrite Hd, Ho, Hb, Ht. reflexivity.
  - destruct opts as [|o opts].
    + right. exists flag, rest. split; [reflexivity|]. apply Hhelp.
      reflexivity.
    + left. discriminate.
Qed.

(** X23.  An option name as the last argument, without its value, is
    not reported: the parser makes a string of [argv[argc]], the null
    pointer, and the behaviour is undefined. *)
Theorem parseTrainingArguments_missing_value
    (opts : list (bool * CommandLine.setting)) (prog flag : string) :
  Forall CommandLine.plain opts ->
  CommandLine.recognised flag = true ->
  CommandLine.parseTrainingArguments
    (prog :: flat_map CommandLine.spelled opts ++ [flag])
  = Unspecified.
Proof.
  intros Hall Hflag.
  assert (Hh : CommandLine.asks_help flag = false).
  { unfold CommandLine.recognised, CommandLine.asks_help,
           CommandLine.is_flag in *.
    destruct (String.eqb_spec flag "-h") as [->|_];
      [vm_compute in Hflag; discriminate|].
    destruct (String.eqb_spec flag "--help") as [->|_];
      [vm_compute in Hflag; discriminate|]. reflexivity. }
  rewrite parse_after_settings; try assumption.
  - cbn [CommandLine.parse_options].
    unfold CommandLine.recognised in Hflag.
    destruct (CommandLine.is_flag flag "-d" "--trainingData");
      [reflexivity|].
    destruct (CommandLine.is_flag flag "-o" "--output"); [reflexivity|].
    destruct (CommandLine.is_flag flag "-b" "--bounds"); [reflexivity|].
    destruct (CommandLine.is_flag flag "-t" "--threads"); [reflexivity|].
    discriminate.
  - right. exists flag, []. split; [reflexivity | assumption].
Qed.

Lemma fold_no_bounds (opts : list (bool * CommandLine.setting)) :
  forallb (fun o => negb (CommandLine.sets_bounds o)) opts = true ->
  forall a : CommandLine.Arguments,
    CommandLine.boundLower (fold_left CommandLine.apply_setting opts a)
    = CommandLine.boundLower a
    /\ CommandLine.boundUpper (fold_left CommandLine.apply_setting opts a)
       = CommandLine.boundUpper a.
Proof.
  induction opts as [|o opts IH]; intros H a; [split; reflexivity|].
  cbn [forallb] in H. apply andb_true_iff in H. destruct H as [Ho Hrest].
  cbn [fold_left]. destruct (IH Hrest (CommandLine.apply_setting a o))
    as [H1 H2]. rewrite H1, H2.
  destruct o as [long []]; try discriminate Ho; split; reflexivity.
Qed.

(** X24.  The options the help text calls required are not required
    by the parser: a command line without [-b] is parsed without an
    error, and the two bounds of the record it returns were never
    assigned. *)
Theorem parseTrainingArguments_bounds_unset
    (opts : list (bool * CommandLine.setting)) (prog : string) :
  opts <> [] -> Forall CommandLine.plain opts ->
  forallb (fun o => negb (CommandLine.sets_bounds o)) opts = true ->
  exists trainArgs,
    CommandLine.parseTrainingArguments
      (prog :: flat_map CommandLine.spelled opts) = Returns trainArgs
    /\ CommandLine.boundLower trainArgs = None
    /\ CommandLine.boundUpper trainArgs = None.
Proof.
  intros Hne Hall Hnb. eexists. split.
  - rewrite <- (List.app_nil_r (flat_map CommandLine.spelled opts)).
    rewrite parse_after_settings; [reflexivity | left; assumption | assumption].
  - apply (fold_no_bounds opts Hnb CommandLine.defaults).
Qed.

Lemma parseTrainingArguments_settings_witness :
  CommandLine.parseTrainingArguments
    [ "train"; "-d"; "data.foh"; "--bounds"; "150"; "650"; "-o"; "out.txt";
      "-t"; "20"; "-b"; "100"; "200" ]%string
  = Returns {| CommandLine.trainingDataFilename := "data.foh";
               CommandLine.trainingOutputFilename := "out.txt";
               CommandLine.threads := 20;
               CommandLine.boundLower := Some 100;
               CommandLine.boundUpper := Some 200 |}.
Proof.
  apply (@parseTrainingArguments_settings
           [ (false, CommandLine.TrainingData "data.foh");
             (true, CommandLine.Bounds 150 650);
             (false, CommandLine.Output "out.txt");
             (false, CommandLine.Threads 20);
             (false, CommandLine.Bounds 100 200) ] "train").
  - discriminate.
  - apply Forall_cons; [exact Logic.I|].
    apply Forall_cons; [cbn; unfold INT_MAX; lia|].
    apply Forall_cons; [exact Logic.I|].
    apply Forall_cons; [cbn; unfold INT_MAX; lia|].
    apply Forall_cons; [cbn; unfold INT_MAX; lia|]. apply Forall_nil.
Defined.

(** The help option after another option. *)
Lemma parseTrainingArguments_unknown_option_witness :
  CommandLine.parseTrainingArguments
    [ "train"; "-d"; "data.foh"; "-h"; "-o"; "out.txt" ]%string
  = Raises (InvalidOption "-h").
Proof.
  apply (@parseTrainingArguments_unknown_option
           [ (false, CommandLine.TrainingData "data.foh") ] "train" "-h"
           [ "-o"; "out.txt" ]%string).
  - apply Forall_cons; [exact Logic.I | apply Forall_nil].
  - reflexivity.
  - discriminate.
Defined.

Lemma parseTrainingArguments_missing_value_witness :
  CommandLine.parseTrainingArguments
    [ "train"; "-d"; "data.foh"; "-b" ]%string
  = Unspecified.
Proof.
  apply (@parseTrainingArguments_missing_value
           [ (false, CommandLine.TrainingData "data.foh") ] "train" "-b").
  - apply Forall_cons; [exact Logic.I | apply Forall_nil].
  - reflexivity.
Defined.

Lemma parseTrainingArguments_bounds_unset_witness :
  exists trainArgs,
    CommandLine.parseTrainingArguments
      [ "train"; "-d"; "data.foh"; "-o"; "out.txt" ]%string
    = Returns trainArgs
    /\ CommandLine.boundLower trainArgs = None
    /\ CommandLine.boundUpper trainArgs = None.
Proof.
  apply (@parseTrainingArguments_bounds_unset
           [ (false, CommandLine.TrainingData "data.foh");
             (false, CommandLine.Output "out.txt") ] "train").
  - discriminate.
  - apply Forall_cons; [exact Logic.I|].
    apply Forall_cons; [exact Logic.I | apply Forall_nil].
  - reflexivity.
Defined.

(* ================================================================== *)
(** * What the readers of the reference and of the pore model return *)
(* ================================================================== *)

(** Lookups after an assignment. *)

Lemma compare_refl (k : string) : String.compare k k = Eq.
Proof.
  pose proof (String.compare_antisym k k) as H.
  destruct (String.compare k k); simpl in H; congruence.
Qed.

Lemma map_lookup_assign {V : Type} (m : list (string * V)) (k : string)
    (v : V) :
  map_lookup (map_assign m k v) k = Some v.
Proof.
  induction m as [|[k' v'] m IH]; simpl.
  - rewrite String.eqb_refl. reflexivity.
  - destruct (String.compare k k') eqn:Hc; simpl.
    + apply String.compare_eq_iff in Hc. subst.
      rewrite String.eqb_refl. reflexivity.
    + rewrite String.eqb_refl. reflexivity.
    + destruct (String.eqb_spec k k') as [->|_]; [|assumption].
      rewrite compare_refl in Hc. discriminate.
Qed.

Lemma map_lookup_assign_other {V : Type} (m : list (string * V))
    (k k0 : string) (v : V) :
  k0 <> k -> map_lookup (map_assign m k v) k0 = map_lookup m k0.
Proof.
  intros Hne. induction m as [|[k' v'] m IH]; simpl.
  - destruct (String.eqb_spec k0 k); [congruence|reflexivity].
  - destruct (String.compare k k') eqn:Hc; simpl.
    + apply String.compare_eq_iff in Hc. subst.
      destruct (String.eqb_spec k0 k'); [congruence|reflexivity].
    + destruct (String.eqb_spec k0 k); [congruence|reflexivity].
    + rewrite IH. reflexivity.
Qed.

Lemma map_assign_values {V : Type} (P : V -> Prop) (m : list (string * V))
    (k : string) (v : V) :
  Forall (fun kv => P (snd kv)) m -> P v ->
  Forall (fun kv => P (snd kv)) (map_assign m k v).
Proof.
  intros Hm Hv. induction m as [|[k' v'] m IH]; simpl.
  - constructor; [assumption|constructor].
  - inversion Hm as [|? ? Hh Ht]; subst.
    destruct (String.compare k k').
    + constructor; assumption.
    + constructor; [assumption|]. constructor; assumption.
    + constructor; [assumption|]. apply IH. assumption.
Qed.

Lemma map_lookup_values {V : Type} (P : V -> Prop) (m : list (string * V))
    (k : string) (v : V) :
  Forall (fun kv => P (snd kv)) m -> map_lookup m k = Some v -> P v.
Proof.
  intros Hm. induction m as [|[k' v'] m IH]; simpl; [discriminate|].
  inversion Hm as [|? ? Hh Ht]; subst.
  destruct (String.eqb k k'); [|apply IH; assumption].
  intros H. injection H as <-. assumption.
Qed.

(* ------------------------------------------------------------------ *)
(** The reference. *)

Lemma first_illegal_clean (s : string) :
  first_illegal s = None <-> clean s.
Proof.
  induction s as [|c s IH]; simpl; [tauto|].
  destruct (Ascii.eqb_spec c CR) as [->|Hc].
  - rewrite IH. tauto.
  - destruct (legal c) eqn:Hl.
    + rewrite IH. tauto.
    + split; [discriminate|]. intros [[H|H] _]; congruence.
Qed.

Lemma clean_app (a b : string) : clean a -> clean b -> clean (a ++ b).
Proof.
  induction a as [|c a IH]; simpl; [tauto|]. intros [Hc Ha] Hb.
  split; [assumption|]. apply IH; assumption.
Qed.

Lemma first_illegal_app (a b : string) (c : ascii) :
  clean a -> c <> CR -> legal c = false ->
  first_illegal (a ++ String c b) = Some c.
Proof.
  intros Ha Hc Hl. induction a as [|x a IH]; simpl.
  - destruct (Ascii.eqb_spec c CR); [congruence|]. rewrite Hl. reflexivity.
  - destruct Ha as [Hx Ha].
    destruct (Ascii.eqb_spec x CR); [apply IH; assumption|].
    destruct Hx as [Hx|Hx]; [congruence|]. rewrite Hx. apply IH. assumption.
Qed.

Lemma reference_line_clean (line : string) (st st' : reference_state) :
  clean_store st -> reference_line line st = Returns st' -> clean_store st'.
Proof.
  unfold clean_store, reference_line. intros Hst.
  destruct (is_header line).
  - destruct (referencesInFile st =? INT_MAX); [discriminate|].
    intros H. injection H as <-. cbn [references].
    apply map_assign_values; [assumption|exact Logic.I].
  - destruct (first_illegal (transform toupper line)) eqn:Hf; [discriminate|].
    intros H. injection H as <-. cbn [references].
    apply map_assign_values; [assumption|].
    apply clean_app; [|apply first_illegal_clean; assumption].
    destruct (map_lookup (references st) (currentRefName st)) eqn:Hl;
      [|exact Logic.I].
    exact (@map_lookup_values _ clean _ _ _ Hst Hl).
Qed.

Lemma reference_lines_clean (lines : list string) :
  forall st st' : reference_state,
    clean_store st -> reference_lines lines st = Returns st' ->
    clean_store st'.
Proof.
  induction lines as [|line lines IH]; intros st st' Hst; simpl.
  - intros H. injection H as <-. assumption.
  - destruct (reference_line line st) as [st1| | |] eqn:H1; try discriminate.
    apply IH. exact (@reference_line_clean _ _ _ Hst H1).
Qed.

(** X25.  Whatever the file holds, a sequence [import_reference]
    returns is in upper case and within the alphabet: each of its
    characters is one of the sixteen nucleotide codes or a carriage
    return (which the grammar check passes over and the sequence
    keeps). *)
Theorem import_reference_alphabet (lines : list string)
    (reference : list (string * string)) (name sequence : string) :
  import_reference lines = Returns reference ->
  map_lookup reference name = Some sequence ->
  clean sequence.
Proof.
  unfold import_reference.
  destruct (reference_lines lines _) as [st| | |] eqn:Hr; try discriminate.
  destruct (referencesInFile st =? 0); [discriminate|].
  intros H Hl. injection H as <-.
  assert (Hinit : clean_store {| currentRefName := EmptyString;
                                 references := []; referencesInFile := 0 |})
    by apply Forall_nil.
  exact (@map_lookup_values _ clean _ _ _
           (@reference_lines_clean lines _ _ Hinit Hr) Hl).
Qed.

Lemma reference_lines_headerless (lines : list string) :
  Forall (fun line => is_header line = false) lines ->
  forall st : reference_state,
    (exists st', reference_lines lines st = Returns st'
                 /\ referencesInFile st' = referencesInFile st
                 /\ Forall (fun line => clean (transform toupper line)) lines)
    \/ (exists c, reference_lines lines st
                  = Exits EXIT_FAILURE (illegal_character c)
                  /\ ~ Forall (fun line => clean (transform toupper line))
                         lines).
Proof.
  induction lines as [|line lines IH]; intros Hall st.
  - left. exists st. repeat split. constructor.
  - inversion Hall as [|? ? Hh Ht]; subst.
    cbn [reference_lines]. unfold reference_line. rewrite Hh.
    destruct (first_illegal (transform toupper line)) as [c|] eqn:Hf.
    + right. exists c. split; [reflexivity|].
      intros Hc. inversion Hc as [|? ? Hc1 _]; subst.
      apply first_illegal_clean in Hc1. congruence.
    + apply first_illegal_clean in Hf.
      match goal with
      | |- context [reference_lines lines ?s] =>
          destruct (IH Ht s) as [[st' [H1 [H2 H3]]] | [c [H1 H2]]]
      end.
      * left. exists st'. split; [assumption|]. split; [assumption|].
        constructor; assumption.
      * right. exists c. split; [assumption|].
        intros Hc. inversion Hc; subst. tauto.
Qed.

(** X26.  A file without a header line never yields a reference:
    [import_reference] exits with [EXIT_FAILURE], and when every line
    passes the grammar check, what it has written is the message that no
    fasta header was found. *)
Theorem import_reference_without_header (lines : list string) :
  Forall (fun line => is_header line = false) lines ->
  exists written,
    import_reference lines = Exits EXIT_FAILURE written
    /\ (Forall (fun line => clean (transform toupper line)) lines ->
        written = no_header).
Proof.
  intros Hall. unfold import_reference.
  destruct (reference_lines_headerless Hall
              {| currentRefName := EmptyString; references := [];
                 referencesInFile := 0 |})
    as [[st' [H1 [H2 H3]]] | [c [H1 H2]]]; rewrite H1.
  - cbn [referencesInFile] in H2. rewrite H2. cbn.
    exists no_header. split; reflexivity.
  - exists (illegal_character c). split; [reflexivity|]. tauto.
Qed.

(** X27.  At the first sequence line that has, once in upper case, a
    character that is neither legal nor a carriage return,
    [import_reference] writes the message that names the first such
    character of the line and exits with [EXIT_FAILURE]; the lines after
    it are not read. *)
Theorem import_reference_illegal_character (before after : list string)
    (line good rest : string) (c : ascii) (st : reference_state) :
  reference_lines before
    {| currentRefName := EmptyString; references := [];
       referencesInFile := 0 |} = Returns st ->
  is_header line = false ->
  transform toupper line = (good ++ String c rest)%string ->
  clean good -> c <> CR -> legal c = false ->
  import_reference (before ++ line :: after)
  = Exits EXIT_FAILURE (illegal_character c).
Proof.
  intros Hb Hh Ht Hg Hc Hl. unfold import_reference.
  assert (Happ : forall l1 l2 s s',
            reference_lines l1 s = Returns s' ->
            reference_lines (l1 ++ l2) s = reference_lines l2 s').
  { induction l1 as [|x l1 IH]; intros l2 s s'; simpl.
    - intros H. injection H as <-. reflexivity.
    - destruct (reference_line x s); try discriminate. apply IH. }
  rewrite (Happ _ _ _ _ Hb). cbn [reference_lines].
  unfold reference_line. rewrite Hh, Ht.
  rewrite first_illegal_app by assumption. reflexivity.
Qed.

(** A record in lower case, with a carriage return at the end of its
    second line. *)
Lemma import_reference_alphabet_witness :
  clean ("ACGTNNRY" ++ String CR EmptyString).
Proof.
  apply (@import_reference_alphabet
           [ ">chr1 test"; "acgt"; "NNry" ++ String CR EmptyString ]%string
           [ ("chr1", "ACGTNNRY" ++ String CR EmptyString) ]%string
           "chr1" ("ACGTNNRY" ++ String CR EmptyString)).
  - vm_compute. reflexivity.
  - vm_compute. reflexivity.
Defined.

Lemma import_reference_without_header_witness :
  exists written,
    import_reference [ "ACGT"; "acgt" ]%string = Exits EXIT_FAILURE written
    /\ (Forall (fun line => clean (transform toupper line))
          [ "ACGT"; "acgt" ]%string ->
        written = no_header).
Proof.
  apply (@import_reference_without_header [ "ACGT"; "acgt" ]%string).
  apply Forall_cons; [reflexivity|].
  apply Forall_cons; [reflexivity | apply Forall_nil].
Defined.

Lemma import_reference_illegal_character_witness :
  import_reference [ ">chr1"; "acxgt"; "ACGT" ]%string
  = Exits EXIT_FAILURE (illegal_character "X").
Proof.
  apply (@import_reference_illegal_character [ ">chr1"%string ]
           [ "ACGT"%string ] "acxgt" "AC" "GT" "X"
           {| currentRefName := "chr1"; references := [ ("chr1", "") ]%string;
              referencesInFile := 1 |}).
  - vm_compute. reflexivity.
  - reflexivity.
  - reflexivity.
  - vm_compute. tauto.
  - discriminate.
  - reflexivity.
Defined.

(** Where a character is found first. *)
Lemma index_absent_app (c : ascii) (s r : string) :
  index 0 (String c EmptyString) s = None ->
  index 0 (String c EmptyString) (s ++ String c r) = Some (String.length s).
Proof.
  induction s as [|x s IH]; intros H.
  - simpl. destruct (ascii_dec c c) as [_|N]; [|congruence].
    destruct r; reflexivity.
  - cbn [append index prefix] in *.
    destruct (ascii_dec c x) as [<-|_].
    + destruct s; discriminate H.
    + destruct (index 0 (String c EmptyString) s) eqn:Hi; [discriminate H|].
      rewrite IH by reflexivity. reflexivity.
Qed.

Lemma find_absent_app (c : ascii) (s r : string) :
  find s c = None -> find (s ++ String c r) c = Some (size s).
Proof.
  unfold find, size. intros H.
  destruct (index 0 (String c EmptyString) s) eqn:Hi; [discriminate H|].
  rewrite index_absent_app by assumption. reflexivity.
Qed.

(* ------------------------------------------------------------------ *)
(** A record of the reference. *)

Lemma reference_lines_app (l1 l2 : list string) :
  forall s s' : reference_state,
    reference_lines l1 s = Returns s' ->
    reference_lines (l1 ++ l2) s = reference_lines l2 s'.
Proof.
  induction l1 as [|x l1 IH]; intros s s'; simpl.
  - intros H. injection H as <-. reflexivity.
  - destruct (reference_line x s); try discriminate. apply IH.
Qed.

Lemma reference_lines_count (lines : list string) :
  forall st st' : reference_state,
    reference_lines lines st = Returns st' ->
    referencesInFile st <= referencesInFile st'
    <= referencesInFile st + Z.of_nat (List.length lines).
Proof.
  induction lines as [|line lines IH]; intros st st'; simpl List.length.
  - simpl. intros H. injection H as <-. lia.
  - cbn [reference_lines].
    destruct (reference_line line st) as [st1| | |] eqn:H1; try discriminate.
    intros H. apply IH in H.
    assert (referencesInFile st <= referencesInFile st1
            <= referencesInFile st + 1); [|lia].
    unfold reference_line in H1. destruct (is_header line).
    + destruct (referencesInFile st =? INT_MAX); [discriminate|].
      injection H1 as <-. cbn. lia.
    + destruct (first_illegal (transform toupper line)); [discriminate|].
      injection H1 as <-. cbn. lia.
Qed.

Lemma header_name (name comment : string) :
  find name " " = None ->
  comment = EmptyString \/ (exists r, comment = String " " r) ->
  let line := String ">" (name ++ comment) in
  let rest := substring 1 (String.length line - 1) line in
  match find rest " " with
  | Some k => substring 0 (Z.to_nat k) rest
  | None => rest
  end = name.
Proof.
  intros Hn Hc line rest.
  assert (Hrest : rest = (name ++ comment)%string).
  { subst rest line. cbn [String.length substring].
    replace (S (String.length (name ++ comment)) - 1)%nat
      with (String.length (name ++ comment)) by lia.
    apply substring_whole. }
  rewrite Hrest. destruct Hc as [-> | [r ->]].
  - rewrite string_app_nil, Hn. reflexivity.
  - rewrite find_absent_app by assumption. unfold size.
    rewrite Nat2Z.id. apply substring_prefix.
Qed.

Lemma sequence_lines (body : list string) :
  Forall (fun line => is_header line = false
                      /\ clean (transform toupper line)) body ->
  forall (st : reference_state) (acc : string),
    map_lookup (references st) (currentRefName st) = Some acc ->
    exists st',
      reference_lines body st = Returns st'
      /\ referencesInFile st' = referencesInFile st
      /\ map_lookup (references st') (currentRefName st)
         = Some (acc ++ String.concat "" (map (transform toupper) body))%string.
Proof.
  induction body as [|line body IH]; intros Hall st acc Hacc.
  - exists st. split; [reflexivity|]. split; [reflexivity|].
    simpl. rewrite string_app_nil. assumption.
  - inversion Hall as [|? ? [Hh Hc] Ht]; subst.
    cbn [reference_lines]. unfold reference_line. rewrite Hh.
    apply first_illegal_clean in Hc. rewrite Hc, Hacc.
    match goal with
    | |- context [reference_lines body ?s] =>
        destruct (IH Ht s (acc ++ transform toupper line)%string)
          as [st' [H1 [H2 H3]]]
    end.
    + cbn [references currentRefName]. apply map_lookup_assign.
    + exists st'. split; [assumption|]. split; [assumption|].
      cbn [currentRefName] in H3. rewrite H3.
      rewrite string_app_assoc. f_equal. f_equal.
      cbn [map String.concat].
      destruct (map (transform toupper) body) eqn:Hm.
      * simpl. rewrite string_app_nil. reflexivity.
      * reflexivity.
Qed.

(** X28.  The sequence of the last record of a file is what its lines
    hold: after a header line made of ['>'], a name without a space and,
    possibly, a space and a comment, and sequence lines that pass the
    grammar check, the reference returned has under that name the
    sequence lines in upper case, one after the other; a sequence read
    before under the same name is gone. *)
Theorem import_reference_record (before body : list string)
    (name comment : string) (st : reference_state) :
  reference_lines before
    {| currentRefName := EmptyString; references := [];
       referencesInFile := 0 |} = Returns st ->
  Z.of_nat (List.length before) < INT_MAX ->
  find name " " = None ->
  comment = EmptyString \/ (exists r, comment = String " " r) ->
  Forall (fun line => is_header line = false
                      /\ clean (transform toupper line)) body ->
  exists reference,
    import_reference (before ++ String ">" (name ++ comment) :: body)
    = Returns reference
    /\ map_lookup reference name
       = Some (String.concat "" (map (transform toupper) body)).
Proof.
  intros Hb Hlen Hn Hc Hbody. unfold import_reference.
  rewrite (@reference_lines_app _ _ _ _ Hb). cbn [reference_lines].
  pose proof (@reference_lines_count _ _ _ Hb) as Hcount.
  cbn [referencesInFile] in Hcount.
  unfold reference_line. cbn [is_header Ascii.eqb Bool.eqb].
  pose proof (@header_name name comment Hn Hc) as Hname.
  cbv zeta in Hname. rewrite Hname.
  destruct (Z.eqb_spec (referencesInFile st) INT_MAX); [lia|].
  match goal with
  | |- context [reference_lines body ?s] =>
      destruct (@sequence_lines body Hbody s EmptyString)
        as [st' [H1 [H2 H3]]]
  end.
  - cbn [references currentRefName]. apply map_lookup_assign.
  - rewrite H1. cbn [referencesInFile] in H2. rewrite H2.
    destruct (Z.eqb_spec (referencesInFile st + 1) 0); [lia|].
    exists (references st'). split; [reflexivity|].
    cbn [currentRefName] in H3. exact H3.
Qed.

(* ------------------------------------------------------------------ *)
(** The columns of a line of the pore model. *)

Lemma substring_all (s : string) :
  forall m : nat, (String.length s <= m)%nat -> substring 0 m s = s.
Proof.
  induction s as [|c s IH]; intros m Hm; destruct m as [|m];
    simpl in *; try reflexivity; try lia.
  rewrite IH by lia. reflexivity.
Qed.

Lemma substring_skip (s r : string) (m : nat) :
  substring (String.length s) m (s ++ r) = substring 0 m r.
Proof. induction s as [|c s IH]; simpl; [reflexivity|assumption]. Qed.

Lemma size_app (s r : string) : size (s ++ r) = size s + size r.
Proof. unfold size. rewrite string_app_length. lia. Qed.

Lemma size_nonneg (s : string) : 0 <= size s.
Proof. unfold size. lia. Qed.

Lemma column_found (s r : string) :
  find s HT = None -> column (s ++ String HT r) = s.
Proof.
  intros H. unfold column, find_pos. fold HT.
  rewrite find_absent_app by assumption.
  rewrite Z.min_l by (rewrite size_app; pose proof (size_nonneg (String HT r)); lia).
  unfold size. rewrite Nat2Z.id. apply substring_prefix.
Qed.

Lemma next_column_found (s r : string) :
  find s HT = None -> size (s ++ String HT r) < npos ->
  next_column (s ++ String HT r) = r.
Proof.
  intros H Hsize. unfold next_column, find_pos, erase_front. fold HT.
  rewrite find_absent_app by assumption.
  rewrite size_app in *. unfold npos in Hsize.
  pose proof (size_nonneg s). pose proof (size_nonneg r).
  assert (Hr : size (String HT r) = 1 + size r)
    by (unfold size; simpl String.length; lia).
  rewrite Hr in *.
  rewrite to_size_small by lia. rewrite Z.min_l by lia.
  replace (Z.to_nat (size s + 1)) with (String.length (s ++ String HT ""))
    by (rewrite string_app_length; unfold size; simpl; lia).
  replace (s ++ String HT r)%string with ((s ++ String HT "") ++ r)%string
    by (rewrite string_app_assoc; reflexivity).
  rewrite substring_skip. apply substring_all.
  rewrite string_app_length. lia.
Qed.

Lemma column_absent (s : string) :
  find s HT = None -> size s < npos -> column s = s.
Proof.
  intros H Hsize. unfold column, find_pos. fold HT. rewrite H.
  rewrite Z.min_r by lia. unfold size. rewrite Nat2Z.id.
  apply substring_whole.
Qed.

Lemma next_column_absent (s : string) :
  find s HT = None -> next_column s = s.
Proof.
  intros H. unfold next_column, find_pos, erase_front. fold HT. rewrite H.
  change (to_size (npos + 1)) with 0.
  rewrite Z.min_l by apply size_nonneg. apply substring_whole.
Qed.

Lemma column_last (s tail : string) :
  find s HT = None -> size (s ++ tail) < npos ->
  tail = EmptyString \/ (exists r, tail = String HT r) ->
  column (s ++ tail) = s.
Proof.
  intros H Hsize [-> | [r ->]].
  - rewrite string_app_nil in *. apply column_absent; assumption.
  - apply column_found. assumption.
Qed.

Section PoreLines.
Variable atof : string -> double.

(** X29.  A line of the pore model file that is not a header line and
    has a k-mer, a mean and a deviation in its first three columns, with
    tabs between them, assigns to the k-mer the pair [atof] makes of the
    second and the third column; further columns are not read. *)
Theorem pore_line_columns (key mean std tail : string)
    (kmer2MeanStd : list (string * (double * double))) :
  let line := (key ++ String HT (mean ++ String HT (std ++ tail)))%string in
  skipped line = false -> size line < npos ->
  find key HT = None -> find mean HT = None -> find std HT = None ->
  tail = EmptyString \/ (exists r, tail = String HT r) ->
  pore_line atof line kmer2MeanStd
  = map_assign kmer2MeanStd key (atof mean, atof std).
Proof.
  intros line Hs Hsize Hk Hm Hd Ht. unfold pore_line. rewrite Hs.
  subst line.
  assert (H1 : size (mean ++ String HT (std ++ tail)) < npos).
  { rewrite size_app in Hsize. pose proof (size_nonneg key).
    assert (size (String HT (mean ++ String HT (std ++ tail)))
            = 1 + size (mean ++ String HT (std ++ tail)))
      by (unfold size; simpl String.length; lia). lia. }
  assert (H2 : size (std ++ tail) < npos).
  { rewrite size_app in H1. pose proof (size_nonneg mean).
    assert (size (String HT (std ++ tail)) = 1 + size (std ++ tail))
      by (unfold size; simpl String.length; lia). lia. }
  rewrite column_found by assumption.
  rewrite next_column_found by assumption.
  rewrite column_found by assumption.
  rewrite next_column_found by assumption.
  rewrite column_last by assumption. reflexivity.
Qed.

(** A line without any tab is not rejected: [find] yields [npos],
    nothing is erased, and the line is key, mean and deviation at once. *)
Lemma pore_line_without_tab (line : string)
    (kmer2MeanStd : list (string * (double * double))) :
  skipped line = false -> size line < npos -> find line HT = None ->
  pore_line atof line kmer2MeanStd
  = map_assign kmer2MeanStd line (atof line, atof line).
Proof.
  intros Hs Hsize Hf. unfold pore_line. rewrite Hs.
  rewrite !next_column_absent by assumption.
  rewrite column_absent by assumption. reflexivity.
Qed.

Lemma pore_lines_app (l1 l2 : list string)
    (m : list (string * (double * double))) :
  fold_left (fun m line => pore_line atof line m) (l1 ++ l2) m
  = fold_left (fun m line => pore_line atof line m) l2
      (fold_left (fun m line => pore_line atof line m) l1 m).
Proof. apply fold_left_app. Qed.

Lemma pore_lines_keep (key : string) (lines : list string) :
  Forall (fun l => skipped l = true \/ column l <> key) lines ->
  forall m : list (string * (double * double)),
    map_lookup (fold_left (fun m line => pore_line atof line m) lines m) key
    = map_lookup m key.
Proof.
  induction lines as [|l lines IH]; intros Hall m; [reflexivity|].
  inversion Hall as [|? ? Hl Ht]; subst. cbn [fold_left].
  rewrite IH by assumption. unfold pore_line.
  destruct (skipped l) eqn:Hs; [reflexivity|].
  destruct Hl as [Hl|Hl]; [discriminate|].
  apply map_lookup_assign_other. congruence.
Qed.

(** X30.  In the map [import_poreModel] returns, a k-mer has the values
    of the last line of the file that has it in the first column: lines
    after it that are header lines (they start with "kmer" or ['#']) or
    have another first column do not touch the entry, and lines before
    it do not matter. *)
Theorem import_poreModel_last_line (before after : list string)
    (line : string) :
  skipped line = false ->
  Forall (fun l => skipped l = true \/ column l <> column line) after ->
  map_lookup (import_poreModel atof (before ++ line :: after)) (column line)
  = Some (atof (column (next_column line)),
          atof (column (next_column (next_column line)))).
Proof.
  intros Hs Hafter. unfold import_poreModel.
  rewrite pore_lines_app. cbn [fold_left].
  rewrite pore_lines_keep by assumption.
  unfold pore_line. rewrite Hs. apply map_lookup_assign.
Qed.

End PoreLines.

(** Two records under the same name. *)
Lemma import_reference_record_witness :
  exists reference,
    import_reference
      [ ">chr1"; "TTTT"; ">chr1 second copy"; "ac"; "gt" ]%string
    = Returns reference
    /\ map_lookup reference "chr1" = Some "ACGT"%string.
Proof.
  apply (@import_reference_record [ ">chr1"; "TTTT" ]%string
           [ "ac"; "gt" ]%string "chr1" " second copy"
           {| currentRefName := "chr1";
              references := [ ("chr1", "TTTT") ]%string;
              referencesInFile := 1 |}).
  - vm_compute. reflexivity.
  - vm_compute. reflexivity.
  - reflexivity.
  - right. eexists. reflexivity.
  - apply Forall_cons; [split; [reflexivity | vm_compute; tauto]|].
    apply Forall_cons; [split; [reflexivity | vm_compute; tauto]|].
    apply Forall_nil.
Defined.

(** A line of four columns. *)
Lemma pore_line_columns_witness :
  pore_line example_atof
    ("ACGTA" ++ String HT ("1" ++ String HT ("0.5" ++ String HT "extra")))
    []
  = [ ("ACGTA"%string, (Binary64.one, Binary64.half)) ].
Proof.
  pose proof (@pore_line_columns example_atof "ACGTA" "1" "0.5"
                (String HT "extra") []) as H.
  cbv zeta in H. apply H.
  - reflexivity.
  - reflexivity.
  - reflexivity.
  - reflexivity.
  - reflexivity.
  - right. eexists. reflexivity.
Defined.

(** The k-mer ACGTA on two lines, with a comment line and another
    k-mer after them. *)
Lemma import_poreModel_last_line_witness :
  map_lookup
    (import_poreModel example_atof
       [ "ACGTA" ++ String HT ("0" ++ String HT "0");
         "ACGTA" ++ String HT ("1" ++ String HT "0.5");
         "#ACGTA" ++ String HT ("0" ++ String HT "0");
         "CCCCC" ++ String HT ("0" ++ String HT "0") ]%string)
    "ACGTA"
  = Some (Binary64.one, Binary64.half).
Proof.
  apply (@import_poreModel_last_line example_atof
           [ "ACGTA" ++ String HT ("0" ++ String HT "0") ]%string
           [ "#ACGTA" ++ String HT ("0" ++ String HT "0");
             "CCCCC" ++ String HT ("0" ++ String HT "0") ]%string
           ("ACGTA" ++ String HT ("1" ++ String HT "0.5"))%string).
  - reflexivity.
  - apply Forall_cons; [left; reflexivity|].
    apply Forall_cons; [right; vm_compute; discriminate | apply Forall_nil].
Defined.
